(** * Circuit cutting (pennylane/qcut.py): a shallow embedding

    The development follows [src/pennylane/qcut.py].  Two functions of that
    file have a body: [cut_circuit] and [remove_wire_cut_node]; they are
    embedded from the source.  The graph they work on is a networkx
    [MultiDiGraph]; the part of its behaviour the two functions rely on
    ([add_node], [add_edge], [remove_node], [predecessors], [successors]) is
    embedded from networkx.  The remaining functions of the file are
    declared with an elided body; where a statement needs one of them it is
    modelled from the specification and marked as such. *)

From Stdlib Require Import String.
From Stdlib Require Import List Arith Bool ZArith Lia Permutation.
Import ListNotations.

Set Implicit Arguments.

(** ** Exceptions and the error monad *)

Inductive exn : Type :=
| NetworkXError      (* networkx: node not in the graph *)
| RuntimeError       (* dictionary changed size during iteration *)
| KeyError           (* missing dictionary key *)
| ValueError         (* malformed program *)
| InfeasibleCutError
| UnknownMethodError
| CyclicFragmentError
| ShapeMismatchError
| ConfigurationBudgetExceededError.

Inductive result (A : Type) : Type :=
| Ok (a : A)
| Raise (e : exn).

Arguments Ok {A} a.
Arguments Raise {A} e.

Definition bind {A B : Type} (r : result A) (k : A -> result B) : result B :=
  match r with
  | Ok a => k a
  | Raise e => Raise e
  end.

Notation "'do' x <- c ; k" := (bind c (fun x => k))
  (at level 10, x name, c at level 100, k at level 200).
Notation "'do' ' p <- c ; k" := (bind c (fun x => match x with p => k end))
  (at level 10, p pattern, c at level 100, k at level 200).

(** A Python list comprehension [[f(x) for x in xs]] whose body can raise:
    elements are evaluated left to right, the first exception escapes. *)
Fixpoint mapM {A B : Type} (f : A -> result B) (xs : list A) : result (list B) :=
  match xs with
  | [] => Ok []
  | x :: rest =>
      do y <- f x;
      do ys <- mapM f rest;
      Ok (y :: ys)
  end.

(** A [for] loop threading a state through a body that can raise. *)
Fixpoint foldM {S A : Type} (body : S -> A -> result S) (xs : list A) (s : S)
  : result S :=
  match xs with
  | [] => Ok s
  | x :: rest => do s' <- body s x; foldM body rest s'
  end.

(** ** Operations

    [pennylane.operation.Operator] (2021) defines neither [__eq__] nor
    [__hash__]: two operations are the same graph node exactly when they are
    the same object.  [oid] is that object identity; [kind] is the class of
    the object and [wires] its [wires] attribute. *)

Definition Wire := nat.

Inductive OpKind : Type :=
| Gate (name : string)        (* any ordinary operation *)
| WireCut
| MeasureNode
| PrepareNode
| MeasureIn (basis : nat)     (* a MeasureNode resolved to a basis choice *)
| PrepareIn (basis : nat).    (* a PrepareNode resolved to a basis choice *)

Record Op : Type := mkOp { oid : nat; kind : OpKind; wires : list Wire }.

Definition same_op (a b : Op) : bool := Nat.eqb (oid a) (oid b).

Definition op_in (a : Op) (l : list Op) : bool := existsb (same_op a) l.

Definition isWireCut (o : Op) : bool :=
  match kind o with WireCut => true | _ => false end.

Definition isMeasureNode (o : Op) : bool :=
  match kind o with MeasureNode => true | _ => false end.

Definition isPrepareNode (o : Op) : bool :=
  match kind o with PrepareNode => true | _ => false end.

Definition isPlaceholder (o : Op) : bool := isMeasureNode o || isPrepareNode o.

Definition wire_in (w : Wire) (ws : list Wire) : bool := existsb (Nat.eqb w) ws.

(** [tape.operations] *)
Record QuantumTape : Type := mkTape { operations : list Op }.

(** ** Python dictionaries keyed by wire

    A [dict] keeps its keys in insertion order and assigning to a key that
    is present keeps the key where it is. *)

Definition Dict (V : Type) := list (Wire * V).

Fixpoint dict_get {V : Type} (d : Dict V) (w : Wire) : option V :=
  match d with
  | [] => None
  | (k, v) :: rest => if Nat.eqb k w then Some v else dict_get rest w
  end.

Fixpoint dict_set {V : Type} (d : Dict V) (w : Wire) (v : V) : Dict V :=
  match d with
  | [] => [(w, v)]
  | (k, x) :: rest =>
      if Nat.eqb k w then (k, v) :: rest else (k, x) :: dict_set rest w v
  end.

(** ** networkx.MultiDiGraph

    Nodes are kept in insertion order ([G._node]); edges are kept in
    insertion order with the key networkx gives them and their attribute
    dictionary, of which the code uses [wire] and [pair]. *)

Record EdgeData : Type := mkData {
  e_wire : option Wire;
  e_pair : option (Op * Op)
}.

Record Edge : Type := mkEdge {
  e_src : Op;
  e_dst : Op;
  e_key : nat;
  e_data : EdgeData
}.

Record MultiDiGraph : Type := mkGraph {
  g_nodes : list Op;
  g_edges : list Edge
}.

Definition empty_graph : MultiDiGraph := mkGraph [] [].

Definition no_data : EdgeData := mkData None None.
Definition wire_data (w : Wire) : EdgeData := mkData (Some w) None.
Definition pair_data (m p : Op) : EdgeData := mkData None (Some (m, p)).

Definition has_node (g : MultiDiGraph) (n : Op) : bool := op_in n (g_nodes g).

(** [G.add_node(n)]: a node that is present is left where it is. *)
Definition add_node (g : MultiDiGraph) (n : Op) : MultiDiGraph :=
  if has_node g n then g else mkGraph (g_nodes g ++ [n]) (g_edges g).

Definition between (u v : Op) (e : Edge) : bool :=
  same_op (e_src e) u && same_op (e_dst e) v.

(** [MultiGraph.new_edge_key]: [key = len(keydict)], then
    [while key in keydict: key += 1]. *)
Fixpoint first_free (fuel key : nat) (keys : list nat) : nat :=
  match fuel with
  | 0 => key
  | S f => if existsb (Nat.eqb key) keys then first_free f (S key) keys else key
  end.

Definition new_edge_key (g : MultiDiGraph) (u v : Op) : nat :=
  let keys := map e_key (filter (between u v) (g_edges g)) in
  first_free (S (length keys)) (length keys) keys.

(** [G.add_edge(u, v, **attr)]: both end points are added when missing, the
    edge gets a new key. *)
Definition add_edge (g : MultiDiGraph) (u v : Op) (d : EdgeData) : MultiDiGraph :=
  let g1 := add_node (add_node g u) v in
  mkGraph (g_nodes g1) (g_edges g1 ++ [mkEdge u v (new_edge_key g u v) d]).

Definition incident (n : Op) (e : Edge) : bool :=
  same_op (e_src e) n || same_op (e_dst e) n.

(** [G.remove_node(n)]: the node and every edge at it go; a node that is not
    in the graph raises [NetworkXError]. *)
Definition remove_node (g : MultiDiGraph) (n : Op) : result MultiDiGraph :=
  if has_node g n
  then Ok (mkGraph (filter (fun m => negb (same_op m n)) (g_nodes g))
                   (filter (fun e => negb (incident n e)) (g_edges g)))
  else Raise NetworkXError.

(** keys of a dictionary filled in the order of [l]: first occurrences *)
Fixpoint distinct_ops (l : list Op) (seen : list Op) : list Op :=
  match l with
  | [] => []
  | x :: rest =>
      if op_in x seen then distinct_ops rest seen
      else x :: distinct_ops rest (x :: seen)
  end.

(** [G.predecessors(n)] iterates over the keys of [G._pred[n]]: each
    predecessor once, in the order in which its first edge into [n] was
    added.  (The graphs here only grow by [add_edge] and shrink by
    [remove_node], so that order is the order of the edge list.) *)
Definition predecessors (g : MultiDiGraph) (n : Op) : result (list Op) :=
  if has_node g n
  then Ok (distinct_ops
             (map e_src (filter (fun e => same_op (e_dst e) n) (g_edges g))) [])
  else Raise NetworkXError.

Definition successors (g : MultiDiGraph) (n : Op) : result (list Op) :=
  if has_node g n
  then Ok (distinct_ops
             (map e_dst (filter (fun e => same_op (e_src e) n) (g_edges g))) [])
  else Raise NetworkXError.

Definition has_self_loop (g : MultiDiGraph) (n : Op) : bool :=
  existsb (between n n) (g_edges g).

(** ** The graph together with the allocator

    [MeasureNode(wires=wire)] creates an object distinct from every live
    one: [next_oid] is the identity the next new object gets. *)

Record GState : Type := mkState {
  graph : MultiDiGraph;
  next_oid : nat
}.

Definition new_op (k : OpKind) (w : Wire) (st : GState) : Op * GState :=
  (mkOp (next_oid st) k [w], mkState (graph st) (S (next_oid st))).

Definition on_graph (f : MultiDiGraph -> MultiDiGraph) (st : GState) : GState :=
  mkState (f (graph st)) (next_oid st).

(** ** remove_wire_cut_node (qcut.py, lines 75-114) *)

(** what the loops carry: the graph and allocator, [measure_wires],
    [prepare_wires] *)
Record CutLoop : Type := mkLoop {
  l_state : GState;
  measure_wires : Dict Op;
  prepare_wires : Dict Op
}.

(** lines 85-93: one default pair of placeholders per wire of the marker *)
Definition default_pair (acc : CutLoop) (wire : Wire) : CutLoop :=
  let '(meas, st1) := new_op MeasureNode wire (l_state acc) in
  let '(prep, st2) := new_op PrepareNode wire st1 in
  let st3 := on_graph (fun g => add_node g meas) st2 in
  let st4 := on_graph (fun g => add_node g prep) st3 in
  mkLoop st4 (dict_set (measure_wires acc) wire meas)
             (dict_set (prepare_wires acc) wire prep).

(** lines 96-101, for one predecessor [p] and one of its wires *)
Definition link_predecessor (node p : Op) (acc : CutLoop) (wire : Wire) : CutLoop :=
  if wire_in wire (wires node) then
    let '(op, st1) := new_op MeasureNode wire (l_state acc) in
    let st2 := on_graph (fun g => add_node g op) st1 in
    let st3 := on_graph (fun g => add_edge g p op no_data) st2 in
    mkLoop st3 (dict_set (measure_wires acc) wire op) (prepare_wires acc)
  else acc.

(** lines 104-109, for one successor [s] and one of its wires *)
Definition link_successor (node s : Op) (acc : CutLoop) (wire : Wire) : CutLoop :=
  if wire_in wire (wires node) then
    let '(op, st1) := new_op PrepareNode wire (l_state acc) in
    let st2 := on_graph (fun g => add_node g op) st1 in
    let st3 := on_graph (fun g => add_edge g op s no_data) st2 in
    mkLoop st3 (measure_wires acc) (dict_set (prepare_wires acc) wire op)
  else acc.

(** lines 111-114: one pair-annotated edge per key of [measure_wires] *)
Definition link_pair (prepare_wires : Dict Op) (st : GState) (entry : Wire * Op)
  : result GState :=
  let '(wire, measure) := entry in
  match dict_get prepare_wires wire with
  | Some prepare =>
      Ok (on_graph (fun g => add_edge g measure prepare (pair_data measure prepare)) st)
  | None => Raise KeyError
  end.

(** [graph.predecessors(node)] and [graph.successors(node)] are iterators
    over dictionaries of the graph, read only after [remove_node].
    [remove_node] leaves both dictionaries as they were unless [node] has an
    edge to itself; then [_pred[node]] has lost an entry and the loop over
    it raises [RuntimeError]. *)
Definition remove_wire_cut_node (node : Op) (st : GState) : result GState :=
  do preds <- predecessors (graph st) node;
  do succs <- successors (graph st) node;
  let loop_broken := has_self_loop (graph st) node in
  do g1 <- remove_node (graph st) node;
  let acc1 := fold_left default_pair (wires node)
                (mkLoop (mkState g1 (next_oid st)) [] []) in
  if loop_broken then Raise RuntimeError else
  let acc2 := fold_left
                (fun acc p => fold_left (link_predecessor node p) (wires p) acc)
                preds acc1 in
  let acc3 := fold_left
                (fun acc s => fold_left (link_successor node s) (wires s) acc)
                succs acc2 in
  foldM (link_pair (prepare_wires acc3)) (measure_wires acc3) (l_state acc3).

(** ** cut_circuit (qcut.py, lines 44-67)

    [cut_circuit] is the function under the [batch_transform] decorator:
    applied to a tape the decorated object returns what the function
    returns.  The communication graph is a [MultiDiGraph] whose nodes are the
    fragments; an edge carries the (measure, prepare) pair of a cut. *)

Record CommEdge : Type := mkCommEdge {
  ce_src : nat;            (* index of the fragment holding the MeasureNode *)
  ce_dst : nat;            (* index of the fragment holding the PrepareNode *)
  ce_pair : Op * Op
}.

Record CommunicationGraph : Type := mkComm {
  cg_fragments : list MultiDiGraph;
  cg_edges : list CommEdge
}.

(** [**kwargs] *)
Definition Kwargs := list (string * Z).

(** [method: Union[str, Callable]]; a callable has the signature of
    [example_method] (the bounds travel in the keyword arguments) and
    returns the wire cuts and a results dictionary. *)
Definition CutSet := list (Op * Op * Wire).

Inductive Method : Type :=
| ByName (name : string)
| ByCallable (search : MultiDiGraph -> Kwargs -> result (CutSet * Kwargs)).

(** [partial(contract, shapes=shapes, communication_graph=communication_graph)]:
    the keyword arguments are stored when the object is made. *)
Record Partial : Type := mkPartial {
  p_shapes : list nat;
  p_communication_graph : CommunicationGraph
}.

(** an identity above those of all objects of the tape *)
Definition fresh_oid (tape : QuantumTape) : nat :=
  S (list_max (map oid (operations tape))).

Section Pipeline.

(** The functions [cut_circuit] calls and whose body is elided in the
    source; each may raise. *)
Variable tape_to_graph : QuantumTape -> result MultiDiGraph.
Variable find_and_place_cuts : GState -> Method -> Kwargs -> result GState.
Variable fragment_graph :
  MultiDiGraph -> result (list MultiDiGraph * CommunicationGraph).
Variable graph_to_tape : MultiDiGraph -> result QuantumTape.
Variable expand_fragment_tapes : QuantumTape -> result (list QuantumTape).
Variable contract :
  list Z -> list nat -> CommunicationGraph -> result (list Z).

(** lines 52-54, the body of the loop *)
Definition resolve_marker (st : GState) (op : Op) : result GState :=
  if isWireCut op then remove_wire_cut_node op st else Ok st.

(** lines 49-57: the graph handed to [fragment_graph] *)
Definition resolved_graph (tape : QuantumTape) (method : option Method)
  (kwargs : Kwargs) : result MultiDiGraph :=
  do g <- tape_to_graph tape;
  do st <- foldM resolve_marker (operations tape) (mkState g (fresh_oid tape));
  do st' <- match method with
            | Some m => find_and_place_cuts st m kwargs
            | None => Ok st
            end;
  Ok (graph st').

Definition cut_circuit (tape : QuantumTape) (method : option Method)
  (kwargs : Kwargs) : result (list QuantumTape * Partial) :=
  do g <- resolved_graph tape method kwargs;
  do '(fragments, communication_graph) <- fragment_graph g;
  do fragment_tapes <- mapM graph_to_tape fragments;
  do configurations <- mapM expand_fragment_tapes fragment_tapes;
  let shapes := map (@length QuantumTape) configurations in
  let tapes := concat configurations in
  Ok (tapes, mkPartial shapes communication_graph).

(** calling the partial object on the results *)
Definition call (post : Partial) (results : list Z) : result (list Z) :=
  contract results (p_shapes post) (p_communication_graph post).

End Pipeline.

(** ** The pipeline stages whose body is elided in qcut.py

    Modelled from the spec: every definition of module [Spec].  The source
    declares these functions with their signature and docstring only; the
    definitions follow sections 3 and 4 of the specification. *)

Module Spec.

(** *** tape_to_graph (lines 70-72) *)

Definition add_op_wire (op : Op) (acc : MultiDiGraph * Dict Op) (w : Wire)
  : MultiDiGraph * Dict Op :=
  let '(g, latest) := acc in
  match dict_get latest w with
  | Some prev => (add_edge g prev op (wire_data w), dict_set latest w op)
  | None => (g, dict_set latest w op)
  end.

Definition add_op (acc : MultiDiGraph * Dict Op) (op : Op)
  : result (MultiDiGraph * Dict Op) :=
  match wires op with
  | [] => Raise ValueError
  | _ :: _ => Ok (fold_left (add_op_wire op) (wires op)
                    (add_node (fst acc) op, snd acc))
  end.

(** Modelled from the spec: the body of [tape_to_graph], elided in the
    source (Graph Builder, section 4.1).  Every operation becomes one node;
    for each channel of an operation, in program order, an edge annotated
    with the channel is added from the most recent prior operation touching
    that channel; an operation referencing zero channels is malformed
    input. *)
Definition tape_to_graph (tape : QuantumTape) : result MultiDiGraph :=
  do acc <- foldM add_op (operations tape) (empty_graph, []);
  Ok (fst acc).

(** *** fragment_graph (lines 144-147) *)

Definition is_cut_edge (e : Edge) : bool :=
  match e_pair (e_data e) with Some _ => true | None => false end.

Definition data_edges (g : MultiDiGraph) : list Edge :=
  filter (fun e => negb (is_cut_edge e)) (g_edges g).

Definition adjacent (es : list Edge) (u v : Op) : bool :=
  existsb (fun e => between u v e || between v u e) es.

(** one round of the search: the nodes already reached and their
    neighbours, in node insertion order *)
Definition grow (g : MultiDiGraph) (s : list Op) : list Op :=
  filter (fun v => op_in v s || existsb (fun u => adjacent (data_edges g) u v) s)
         (g_nodes g).

Fixpoint grow_n (n : nat) (g : MultiDiGraph) (s : list Op) : list Op :=
  match n with
  | 0 => s
  | S k => grow_n k g (grow g s)
  end.

Definition component (g : MultiDiGraph) (v : Op) : list Op :=
  grow_n (length (g_nodes g)) g [v].

Fixpoint components (g : MultiDiGraph) (todo seen : list Op) : list (list Op) :=
  match todo with
  | [] => []
  | v :: rest =>
      if op_in v seen then components g rest seen
      else let c := component g v in c :: components g rest (c ++ seen)
  end.

Definition subgraph (g : MultiDiGraph) (c : list Op) : MultiDiGraph :=
  mkGraph c (filter (fun e => op_in (e_src e) c && op_in (e_dst e) c) (g_edges g)).

Fixpoint fragment_index (frags : list MultiDiGraph) (o : Op) : option nat :=
  match frags with
  | [] => None
  | f :: rest =>
      if has_node f o then Some 0
      else option_map S (fragment_index rest o)
  end.

Definition comm_edge (frags : list MultiDiGraph) (e : Edge) : list CommEdge :=
  match e_pair (e_data e) with
  | Some (m, p) =>
      match fragment_index frags m, fragment_index frags p with
      | Some i, Some j => [mkCommEdge i j (m, p)]
      | _, _ => []
      end
  | None => []
  end.

(** Modelled from the spec: the body of [fragment_graph], elided in the
    source (Fragmenter, sections 3 and 4.4).  The fragments are the
    weakly-connected components of the resolved graph, a pair-annotated cut
    edge being a fragment boundary (section 4.2) and not a connection; they
    come in the order of their first node, each with its nodes in insertion
    order.  The communication graph has the fragments as nodes and, for
    every cut edge, in edge insertion order, an edge from the fragment of
    the MeasureNode to the fragment of the PrepareNode carrying the pair. *)
Definition fragment_graph (g : MultiDiGraph)
  : list MultiDiGraph * CommunicationGraph :=
  let frags := map (subgraph g) (components g (g_nodes g) []) in
  (frags, mkComm frags (flat_map (comm_edge frags) (g_edges g))).

(** *** graph_to_tape (lines 150-152) *)

Definition ready (es : list Edge) (remaining : list Op) (v : Op) : bool :=
  negb (existsb (fun e => same_op (e_dst e) v && op_in (e_src e) remaining) es).

Fixpoint linearize (fuel : nat) (es : list Edge) (remaining : list Op)
  : result (list Op) :=
  match remaining with
  | [] => Ok []
  | _ :: _ =>
      match fuel with
      | 0 => Raise CyclicFragmentError
      | S f =>
          match find (ready es remaining) remaining with
          | None => Raise CyclicFragmentError
          | Some v =>
              do rest <- linearize f es
                           (filter (fun m => negb (same_op m v)) remaining);
              Ok (v :: rest)
          end
      end
  end.

(** Modelled from the spec: the body of [graph_to_tape], elided in the
    source (Program Reconstructor, section 4.5).  A topological
    linearization of the fragment's nodes over its edges other than the cut
    edges: repeatedly the first node, in insertion order, none of whose
    predecessors remains; [CyclicFragmentError] when no node is ready. *)
Definition graph_to_tape (f : MultiDiGraph) : result QuantumTape :=
  do ops <- linearize (length (g_nodes f)) (data_edges f) (g_nodes f);
  Ok (mkTape ops).

(** *** expand_fragment_tapes (lines 155-157) *)

Definition resolve_op (b : nat) (o : Op) : Op :=
  match kind o with
  | MeasureNode => mkOp (oid o) (MeasureIn b) (wires o)
  | PrepareNode => mkOp (oid o) (PrepareIn b) (wires o)
  | _ => o
  end.

Fixpoint resolve (ops : list Op) (cfg : list nat) : list Op :=
  match ops with
  | [] => []
  | o :: rest =>
      if isPlaceholder o then
        match cfg with
        | b :: cfg' => resolve_op b o :: resolve rest cfg'
        | [] => o :: resolve rest []
        end
      else o :: resolve rest cfg
  end.

(** the mixed-radix counter: all assignments of a basis choice below [a] to
    [p] placeholders, the first placeholder being the most significant *)
Fixpoint configurations (a p : nat) : list (list nat) :=
  match p with
  | 0 => [[]]
  | S q => flat_map (fun b => map (cons b) (configurations a q)) (seq 0 a)
  end.

Definition placeholders (ops : list Op) : list Op := filter isPlaceholder ops.

(** Modelled from the spec: the body of [expand_fragment_tapes], elided in
    the source (Configuration Expander, section 4.6), for a basis alphabet
    of size [a].  One Program per configuration, in the order of the
    mixed-radix counter over the placeholders in program order, each the
    input with every placeholder resolved to the operation of its basis
    choice. *)
Definition expand_fragment_tapes (a : nat) (tape : QuantumTape) : list QuantumTape :=
  map (fun cfg => mkTape (resolve (operations tape) cfg))
      (configurations a (length (placeholders (operations tape)))).

(** *** contract (lines 160-162) *)

Section Contractor.

(** The basis alphabet and the pairing table are left open by the spec
    (section 9); they are parameters here. *)
Variable a : nat.
Variable pairing : nat -> nat -> Z.

(** one axis per placeholder of the fragment, named by the placeholder *)
Definition axes (f : MultiDiGraph) : list nat :=
  map oid (placeholders (g_nodes f)).

Definition cut_axes (cg : CommunicationGraph) : list nat :=
  nodup Nat.eq_dec
    (flat_map (fun e => [oid (fst (ce_pair e)); oid (snd (ce_pair e))])
              (cg_edges cg)).

Definition open_axes (cg : CommunicationGraph) : list nat :=
  filter (fun x => negb (existsb (Nat.eqb x) (cut_axes cg)))
         (flat_map axes (cg_fragments cg)).

Fixpoint digit_of (asg : list (nat * nat)) (x : nat) : nat :=
  match asg with
  | [] => 0
  | (k, d) :: rest => if Nat.eqb k x then d else digit_of rest x
  end.

(** position of a configuration in the counter's enumeration *)
Fixpoint encode (ds : list nat) (acc : nat) : nat :=
  match ds with
  | [] => acc
  | d :: rest => encode rest (acc * a + d)
  end.

Fixpoint split_by (shapes : list nat) (results : list Z) : list (list Z) :=
  match shapes with
  | [] => []
  | n :: rest => firstn n results :: split_by rest (skipn n results)
  end.

Definition entry (asg : list (nat * nat)) (ft : MultiDiGraph * list Z) : Z :=
  nth (encode (map (digit_of asg) (axes (fst ft))) 0) (snd ft) 0%Z.

Definition weight (asg : list (nat * nat)) (e : CommEdge) : Z :=
  pairing (digit_of asg (oid (fst (ce_pair e))))
          (digit_of asg (oid (snd (ce_pair e)))).

Definition product (l : list Z) : Z := fold_right Z.mul 1%Z l.
Definition total (l : list Z) : Z := fold_right Z.add 0%Z l.

Definition term (cg : CommunicationGraph) (tensors : list (list Z))
  (asg : list (nat * nat)) : Z :=
  (product (map (weight asg) (cg_edges cg))
   * product (map (entry asg) (combine (cg_fragments cg) tensors)))%Z.

Fixpoint shapes_match (shapes : list nat) (frags : list MultiDiGraph) : bool :=
  match shapes, frags with
  | [], [] => true
  | n :: shapes', f :: frags' =>
      Nat.eqb n (a ^ length (axes f)) && shapes_match shapes' frags'
  | _, _ => false
  end.

(** Modelled from the spec: the body of [contract], elided in the source
    (Contractor, section 4.7).  The results are cut into one tensor per
    fragment along [shapes], a tensor having one axis per placeholder of
    its fragment; for every edge of the communication graph the axes of
    the paired MeasureNode and PrepareNode are contracted against each
    other with the pairing table; the cut axes are summed over and the
    axes of the remaining placeholders are left, enumerated by the
    counter.  [ShapeMismatchError] when the lengths do not fit the
    configuration counts. *)
Definition contract (results : list Z) (shapes : list nat)
  (cg : CommunicationGraph) : result (list Z) :=
  if shapes_match shapes (cg_fragments cg)
     && Nat.eqb (length results) (list_sum shapes)
  then
    let tensors := split_by shapes results in
    let inner := cut_axes cg in
    let outer := open_axes cg in
    Ok (map (fun o =>
               total (map (fun i => term cg tensors
                                      (combine outer o ++ combine inner i))
                          (configurations a (length inner))))
            (configurations a (length outer)))
  else Raise ShapeMismatchError.

End Contractor.

End Spec.

(** ** The pipeline with the modelled stages

    [cut_circuit] over the stages as the spec describes them, for an
    alphabet of size [a]; [find_and_place_cuts] stays a parameter. *)

Definition cut_circuit_with (a : nat)
  (find_and_place_cuts : GState -> Method -> Kwargs -> result GState)
  : QuantumTape -> option Method -> Kwargs -> result (list QuantumTape * Partial) :=
  cut_circuit Spec.tape_to_graph find_and_place_cuts
    (fun g => Ok (Spec.fragment_graph g))
    Spec.graph_to_tape
    (fun t => Ok (Spec.expand_fragment_tapes a t)).

(** ** Notions the statements use *)

(** the part of a flat sequence that the cumulative sums of [shapes] give to
    fragment [i] *)
Definition slice {A : Type} (shapes : list nat) (i : nat) (l : list A) : list A :=
  firstn (nth i shapes 0) (skipn (list_sum (firstn i shapes)) l).

(** the cut edges that name [o] in their pair *)
Definition pair_edges_of (g : MultiDiGraph) (o : Op) : list Edge :=
  filter (fun e => match e_pair (e_data e) with
                   | Some (m, p) => same_op m o || same_op p o
                   | None => false
                   end) (g_edges g).

(** the placeholders that do not sit on exactly one cut edge *)
Definition unpaired (g : MultiDiGraph) : list Op :=
  filter (fun o => isPlaceholder o
                   && negb (Nat.eqb (length (pair_edges_of g o)) 1))
         (g_nodes g).

(** the operations with an edge into [o] that is not a cut edge *)
Definition feeders (g : MultiDiGraph) (o : Op) : list Op :=
  map e_src (filter (fun e => negb (Spec.is_cut_edge e) && same_op (e_dst e) o)
                    (g_edges g)).

Definition on_wire (w : Wire) (e : Edge) : bool :=
  match e_wire (e_data e) with Some w' => Nat.eqb w' w | None => false end.

(** the predecessor of [node] on channel [w]: the source of the edge into
    [node] annotated with [w] *)
Definition predecessor_on (g : MultiDiGraph) (node : Op) (w : Wire) : list Op :=
  map e_src (filter (fun e => same_op (e_dst e) node && on_wire w e) (g_edges g)).

(** the MeasureNodes on channel [w] that a cut edge pairs *)
Definition paired_measures (g : MultiDiGraph) (w : Wire) : list Op :=
  flat_map (fun e => match e_pair (e_data e) with
                     | Some (m, _) => if wire_in w (wires m) then [m] else []
                     | None => []
                     end) (g_edges g).

Definition count_markers (ops : list Op) : nat := length (filter isWireCut ops).

(** [find_and_place_cuts] for runs that pass no method, in which
    [cut_circuit] does not call it *)
Definition no_search : GState -> Method -> Kwargs -> result GState :=
  fun _ _ _ => Raise UnknownMethodError.

(** ** Example programs *)

Definition RX_0 : Op := mkOp 0 (Gate "RX") [0].
Definition Cut_0 : Op := mkOp 1 WireCut [0].
Definition RY_0 : Op := mkOp 2 (Gate "RY") [0].

(** RX(0); WireCut(0); RY(0) *)
Definition chain_tape : QuantumTape := mkTape [RX_0; Cut_0; RY_0].

Definition CNOT_01 : Op := mkOp 0 (Gate "CNOT") [0; 1].
Definition RX_1 : Op := mkOp 1 (Gate "RX") [1].
Definition Cut_10 : Op := mkOp 2 WireCut [1; 0].

(** CNOT(0,1); RX(1); WireCut(1,0) *)
Definition shared_tape : QuantumTape := mkTape [CNOT_01; RX_1; Cut_10].

(** H(0); H(1) *)
Definition apart_tape : QuantumTape :=
  mkTape [mkOp 0 (Gate "H") [0]; mkOp 1 (Gate "H") [1]].

(** RX(0); CNOT(0,1); RY(1) *)
Definition joined_tape : QuantumTape :=
  mkTape [mkOp 0 (Gate "RX") [0]; mkOp 1 (Gate "CNOT") [0; 1];
          mkOp 2 (Gate "RY") [1]].

(** ** The budget claim *)

(** [kwargs.get(key)] *)
Fixpoint kwarg (kwargs : Kwargs) (key : string) : option Z :=
  match kwargs with
  | [] => None
  | (k, v) :: rest => if String.eqb k key then Some v else kwarg rest key
  end.

(** the total configuration count of a tape cut at its markers: over the
    fragment Programs, the alphabet size to the number of placeholders *)
Definition total_configurations (a : nat) (tape : QuantumTape) : result nat :=
  do g <- resolved_graph Spec.tape_to_graph no_search tape None [];
  do fragment_tapes <- mapM Spec.graph_to_tape (fst (Spec.fragment_graph g));
  Ok (list_sum (map (fun t => a ^ length (Spec.placeholders (operations t)))
                    fragment_tapes)).

(** "the pipeline raises ConfigurationBudgetExceededError whenever the total
    configuration count exceeds the ceiling", the ceiling being the keyword
    argument [key] *)
Definition eager_budget_check (a : nat) (key : string) : Prop :=
  forall tape kwargs ceiling n,
    kwarg kwargs key = Some ceiling ->
    total_configurations a tape = Ok n ->
    (ceiling < Z.of_nat n)%Z ->
    cut_circuit_with a no_search tape None kwargs
    = Raise ConfigurationBudgetExceededError.

(** a pairing table for the examples *)
Definition delta_pairing (i j : nat) : Z := if Nat.eqb i j then 1%Z else 0%Z.

(** ** The chain example, stage by stage (alphabet of size 2) *)

Definition or_else {A : Type} (r : result A) (d : A) : A :=
  match r with Ok x => x | Raise _ => d end.

Definition chain_graph : MultiDiGraph :=
  Eval vm_compute in
    or_else (resolved_graph Spec.tape_to_graph no_search chain_tape None [])
            empty_graph.

Definition chain_fragments : list MultiDiGraph :=
  Eval vm_compute in fst (Spec.fragment_graph chain_graph).

Definition chain_comm : CommunicationGraph :=
  Eval vm_compute in snd (Spec.fragment_graph chain_graph).

Definition chain_fragment_tapes : list QuantumTape :=
  Eval vm_compute in or_else (mapM Spec.graph_to_tape chain_fragments) [].

Definition chain_configurations : list (list QuantumTape) :=
  Eval vm_compute in map (Spec.expand_fragment_tapes 2) chain_fragment_tapes.

(** ** The shared-predecessor example, before and after resolution *)

Definition shared_built : MultiDiGraph :=
  Eval vm_compute in or_else (Spec.tape_to_graph shared_tape) empty_graph.

Definition shared_graph : MultiDiGraph :=
  Eval vm_compute in
    or_else (resolved_graph Spec.tape_to_graph no_search shared_tape None [])
            empty_graph.

Definition chain_built : MultiDiGraph :=
  Eval vm_compute in or_else (Spec.tape_to_graph chain_tape) empty_graph.

(** ** Valid programs and connected graphs *)

(** an operation acts on a non-empty set of distinct channels *)
Definition valid_op (o : Op) : Prop := wires o <> [] /\ NoDup (wires o).

(** a Program lists distinct operation objects, each valid *)
Definition valid_tape (t : QuantumTape) : Prop :=
  NoDup (map oid (operations t)) /\ Forall valid_op (operations t).

(** joined by a path of edges other than cut edges, in either direction *)
Inductive linked (g : MultiDiGraph) : Op -> Op -> Prop :=
| linked_here u : linked g u u
| linked_step u v w :
    linked g u v -> Spec.adjacent (Spec.data_edges g) v w = true -> linked g u w.

Definition weakly_connected (g : MultiDiGraph) : Prop :=
  g_nodes g <> [] /\
  forall u v, In u (g_nodes g) -> In v (g_nodes g) -> linked g u v.

(** [l] is in topological order over [es]: no edge into an element comes
    from that element or a later one *)
Fixpoint forward (es : list Edge) (l : list Op) : bool :=
  match l with
  | [] => true
  | v :: suf => Spec.ready es (v :: suf) v && forward es suf
  end.

Definition graph_of (tape : QuantumTape) : MultiDiGraph :=
  or_else (Spec.tape_to_graph tape) empty_graph.

(** what [tape_to_graph] has built after the operations [P] *)
Definition built (P : list Op) (acc : MultiDiGraph * Dict Op) : Prop :=
  g_nodes (fst acc) = P /\
  Forall (fun e => e_pair (e_data e) = None /\
                   In (oid (e_src e)) (map oid P) /\
                   In (oid (e_dst e)) (map oid P)) (g_edges (fst acc)) /\
  forward (g_edges (fst acc)) P = true /\
  (forall w o, dict_get (snd acc) w = Some o -> In o P).

(** an edge added for the operation [op] after the operations [P] *)
Definition edge_into (P : list Op) (op : Op) (e : Edge) : Prop :=
  e_dst e = op /\ In (e_src e) P /\ e_pair (e_data e) = None.

(** ** Invariants of cut resolution *)

(** [l] is a topological order of the graph of [st] over its edges other
    than cut edges; it holds every node and every end point of an edge, all
    of them allocated; cut edges start at objects allocated from [N0] on. *)
Definition ordered (N0 : nat) (l : list Op) (st : GState) : Prop :=
  (forall x, In x (g_nodes (graph st)) -> In (oid x) (map oid l)) /\
  (forall e, In e (g_edges (graph st)) ->
             In (oid (e_src e)) (map oid l) /\ In (oid (e_dst e)) (map oid l)) /\
  forward (Spec.data_edges (graph st)) l = true /\
  (forall x, In x l -> oid x < next_oid st) /\
  (forall e, In e (g_edges (graph st)) ->
             Spec.is_cut_edge e = true -> N0 <= oid (e_src e)) /\
  N0 <= next_oid st.

(** the state of the loops of [remove_wire_cut_node] for the marker [node]:
    the nodes [keep] are still in the graph, the order extends [base], the
    placeholders in the dictionaries are in the order, and every wire of
    [measure_wires] is a wire of [prepare_wires] *)
Definition loop_inv (N0 : nat) (base keep : list nat) (acc : CutLoop) : Prop :=
  (forall k, In k keep -> In k (map oid (g_nodes (graph (l_state acc))))) /\
  (forall w, dict_get (measure_wires acc) w <> None ->
             dict_get (prepare_wires acc) w <> None) /\
  exists l,
    ordered N0 l (l_state acc) /\
    (forall k, In k base -> In k (map oid l)) /\
    (forall w m, In (w, m) (measure_wires acc) ->
                 In (oid m) (map oid l) /\ N0 <= oid m) /\
    (forall w m, In (w, m) (prepare_wires acc) -> In (oid m) (map oid l)).

(** ** The shape of the graph during remove_wire_cut_node *)

(** a placeholder on one wire of the marker [node] *)
Definition marker_placeholder (node o : Op) : Prop :=
  isPlaceholder o = true /\ exists w, wires o = [w] /\ In w (wires node).

(** an attribute-free edge from a predecessor of the marker to a new
    MeasureNode or from a new PrepareNode to a successor of the marker *)
Definition link_edge (preds succs news : list Op) (e : Edge) : Prop :=
  e_data e = no_data /\
  ((In (e_src e) preds /\ In (e_dst e) news /\ isMeasureNode (e_dst e) = true) \/
   (In (e_dst e) succs /\ In (e_src e) news /\ isPrepareNode (e_src e) = true)).

(** the graph is [base] and [bedges] plus the new nodes [news], allocated
    from [n0] on, and the new edges [added] *)
Definition gshape (node : Op) (base : list Op) (bedges : list Edge) (n0 : nat)
  (preds succs news : list Op) (added : list Edge) (st : GState) : Prop :=
  g_nodes (graph st) = base ++ news /\
  g_edges (graph st) = bedges ++ added /\
  next_oid st = n0 + length news /\
  map oid news = seq n0 (length news) /\
  Forall (marker_placeholder node) news /\
  Forall (link_edge preds succs news) added.

(** the dictionaries hold new placeholders of the right class and wire *)
Definition dshape (news : list Op) (acc : CutLoop) : Prop :=
  (forall w m, In (w, m) (measure_wires acc) ->
               In m news /\ isMeasureNode m = true /\ wires m = [w]) /\
  (forall w m, In (w, m) (prepare_wires acc) ->
               In m news /\ isPrepareNode m = true /\ wires m = [w]).

(** the wires that the operations [ops] share with the marker, counted per
    operation *)
Definition shared_wires (node : Op) (ops : list Op) : nat :=
  list_sum (map (fun p => length (filter (fun w => wire_in w (wires node))
                                         (wires p))) ops).

(** every node is allocated and is one object, every edge joins two nodes
    and no edge joins a node to itself *)
Definition well_formed (st : GState) : Prop :=
  (forall x, In x (g_nodes (graph st)) -> oid x < next_oid st) /\
  NoDup (map oid (g_nodes (graph st))) /\
  (forall e, In e (g_edges (graph st)) ->
             op_in (e_src e) (g_nodes (graph st)) = true /\
             op_in (e_dst e) (g_nodes (graph st)) = true) /\
  (forall e, In e (g_edges (graph st)) -> oid (e_src e) <> oid (e_dst e)).

(** the shared-predecessor example as handed to the first
    [remove_wire_cut_node] *)
Definition shared_state : GState := mkState shared_built (fresh_oid shared_tape).

(** [rank] grows along every edge of [g] *)
Definition ranked (rank : nat -> nat) (g : MultiDiGraph) : Prop :=
  forall e, In e (g_edges g) -> rank (oid (e_src e)) < rank (oid (e_dst e)).

(** a graph has no directed cycle when its node objects can be ranked so
    that every edge goes to a higher rank *)
Definition acyclic (g : MultiDiGraph) : Prop := exists rank, ranked rank g.

(** [f] raises [e] on an element of [xs] and returns on every element
    before it *)
Definition first_failure {A B : Type} (f : A -> result B) (xs : list A)
  (e : exn) : Prop :=
  exists j x,
    nth_error xs j = Some x /\ f x = Raise e /\
    forall i y, i < j -> nth_error xs i = Some y -> exists z, f y = Ok z.

(** the state after [remove_wire_cut_node] on the marker of the
    shared-predecessor example *)
Definition shared_resolved : GState :=
  Eval vm_compute in
    or_else (remove_wire_cut_node Cut_10 shared_state) shared_state.

(** * Theorems *)

(** ** The error monad and list comprehensions *)

Lemma bind_ok {A B : Type} (r : result A) (k : A -> result B) (b : B) :
  bind r k = Ok b -> exists x, r = Ok x /\ k x = Ok b.
Proof.
  destruct r as [x | e]; simpl; intro H.
  - exists x; split; [reflexivity | exact H].
  - discriminate H.
Qed.

Lemma mapM_length {A B : Type} (f : A -> result B) :
  forall xs ys, mapM f xs = Ok ys -> length ys = length xs.
Proof.
  induction xs as [| x xs IH]; simpl; intros ys H.
  - injection H as <-. reflexivity.
  - apply bind_ok in H. destruct H as (y & _ & H).
    apply bind_ok in H. destruct H as (ys' & Hys & H).
    injection H as <-. simpl. f_equal. apply IH. exact Hys.
Qed.

Lemma mapM_nth_error {A B : Type} (f : A -> result B) :
  forall xs ys, mapM f xs = Ok ys ->
  forall i x, nth_error xs i = Some x ->
  exists y, f x = Ok y /\ nth_error ys i = Some y.
Proof.
  induction xs as [| x0 xs IH]; simpl; intros ys H i x Hi.
  - destruct i; discriminate Hi.
  - apply bind_ok in H. destruct H as (y & Hy & H).
    apply bind_ok in H. destruct H as (ys' & Hys & H).
    injection H as <-.
    destruct i as [| i]; simpl in *.
    + injection Hi as <-. exists y. split; [exact Hy | reflexivity].
    + apply (IH ys' Hys i x Hi).
Qed.

(** ** Slices along the cumulative sums of the shapes *)

Lemma length_concat_shapes {A : Type} (ls : list (list A)) :
  length (concat ls) = list_sum (map (@length A) ls).
Proof.
  induction ls as [| l ls IH]; simpl.
  - reflexivity.
  - rewrite length_app, IH. reflexivity.
Qed.

Lemma slice_concat {A : Type} :
  forall (ls : list (list A)) i c,
    nth_error ls i = Some c ->
    slice (map (@length A) ls) i (concat ls) = c.
Proof.
  unfold slice.
  induction ls as [| l ls IH]; intros i c Hi.
  - destruct i; discriminate Hi.
  - destruct i as [| i]; simpl in *.
    + injection Hi as <-.
      rewrite firstn_app, Nat.sub_diag, firstn_all. simpl.
      apply app_nil_r.
    + rewrite skipn_app, skipn_all2 by lia.
      replace (length l + list_sum (firstn i (map (@length A) ls)) - length l)
        with (list_sum (firstn i (map (@length A) ls))) by lia.
      simpl. apply IH. exact Hi.
Qed.

Lemma slice_length {A : Type} :
  forall (shapes : list nat) i (l : list A),
    length l = list_sum shapes ->
    i < length shapes ->
    length (slice shapes i l) = nth i shapes 0.
Proof.
  unfold slice.
  induction shapes as [| n shapes IH]; intros i l Hl Hi; simpl in *.
  - lia.
  - destruct i as [| i]; simpl.
    + rewrite length_firstn. lia.
    + replace (skipn (n + list_sum (firstn i shapes)) l)
        with (skipn (list_sum (firstn i shapes)) (skipn n l)).
      * apply IH; [rewrite length_skipn; lia | lia].
      * rewrite skipn_skipn. f_equal. lia.
Qed.

(** ** cut_circuit over arbitrary stages *)

(** A comprehension returns when its body returns on every element; the
    result holds, position by position, what the body returned. *)
Lemma mapM_returns {A B : Type} (f : A -> result B) :
  forall xs, (forall x, In x xs -> exists y, f x = Ok y) ->
             exists ys, mapM f xs = Ok ys /\
                        Forall2 (fun x y => f x = Ok y) xs ys.
Proof.
  induction xs as [| x xs IH]; intro H.
  - exists []. split; [reflexivity | constructor].
  - destruct (H x (or_introl eq_refl)) as (y & Hy).
    destruct IH as (ys & Hys & Hall).
    { intros z Hz. apply H. right. exact Hz. }
    exists (y :: ys). split.
    + cbn [mapM]. rewrite Hy. cbn [bind]. rewrite Hys. reflexivity.
    + constructor; assumption.
Qed.

Lemma Forall2_from_right {A B : Type} (R : A -> B -> Prop) :
  forall l l' y, Forall2 R l l' -> In y l' -> exists x, In x l /\ R x y.
Proof.
  intros l l' y H. induction H as [| x0 y0 l l' HR _ IH]; intro Hy.
  - destruct Hy.
  - destruct Hy as [<- | Hy].
    + exists x0. split; [left; reflexivity | exact HR].
    + destruct (IH Hy) as (x & Hx & HRx). exists x. split; [right |]; assumption.
Qed.

Lemma Forall2_chain {A B C : Type} (R : A -> B -> Prop) (Q : B -> C -> Prop) :
  forall l1 l2 l3, Forall2 R l1 l2 -> Forall2 Q l2 l3 ->
                   Forall2 (fun x z => exists y, R x y /\ Q y z) l1 l3.
Proof.
  intros l1 l2 l3 H. revert l3.
  induction H as [| x y l1 l2 HR _ IH]; intros l3 H'.
  - inversion H'. constructor.
  - inversion H' as [| y' z l2' l3' HQ Hrest]; subst.
    constructor; [exists y; split; assumption | apply IH; exact Hrest].
Qed.

Section PipelineFacts.

Variable tape_to_graph : QuantumTape -> result MultiDiGraph.
Variable find_and_place_cuts : GState -> Method -> Kwargs -> result GState.
Variable fragment_graph :
  MultiDiGraph -> result (list MultiDiGraph * CommunicationGraph).
Variable graph_to_tape : MultiDiGraph -> result QuantumTape.
Variable expand_fragment_tapes : QuantumTape -> result (list QuantumTape).
Variable contract :
  list Z -> list nat -> CommunicationGraph -> result (list Z).

Local Abbreviation run := (cut_circuit tape_to_graph find_and_place_cuts
                         fragment_graph graph_to_tape expand_fragment_tapes).
Local Abbreviation resolved := (resolved_graph tape_to_graph find_and_place_cuts).

(** When every stage returns, [cut_circuit] returns the flattened
    configurations and the partial object over the shapes. *)
Lemma cut_circuit_returns tape method kwargs g fragments cg fragment_tapes
      configurations :
  resolved tape method kwargs = Ok g ->
  fragment_graph g = Ok (fragments, cg) ->
  mapM graph_to_tape fragments = Ok fragment_tapes ->
  mapM expand_fragment_tapes fragment_tapes = Ok configurations ->
  run tape method kwargs
  = Ok (concat configurations,
        mkPartial (map (@length QuantumTape) configurations) cg).
Proof.
  intros Hg Hf Ht Hc. unfold cut_circuit.
  rewrite Hg. simpl. rewrite Hf. simpl.
  rewrite Ht. simpl. rewrite Hc. reflexivity.
Qed.

(** Conversely a returned value comes from stages that all returned. *)
Lemma cut_circuit_inversion tape method kwargs tapes post :
  run tape method kwargs = Ok (tapes, post) ->
  exists g fragments cg fragment_tapes configurations,
    resolved tape method kwargs = Ok g /\
    fragment_graph g = Ok (fragments, cg) /\
    mapM graph_to_tape fragments = Ok fragment_tapes /\
    mapM expand_fragment_tapes fragment_tapes = Ok configurations /\
    tapes = concat configurations /\
    post = mkPartial (map (@length QuantumTape) configurations) cg.
Proof.
  unfold cut_circuit. intro H.
  apply bind_ok in H. destruct H as (g & Hg & H).
  apply bind_ok in H. destruct H as ([fragments cg] & Hf & H).
  apply bind_ok in H. destruct H as (ft & Ht & H).
  apply bind_ok in H. destruct H as (confs & Hc & H).
  injection H as <- <-.
  exists g, fragments, cg, ft, confs. repeat split; assumption.
Qed.

(** When the graph is resolved and fragmented and the two stages after
    that return on every fragment, [cut_circuit] returns; the
    configurations it flattens are, fragment by fragment and in fragment
    order, what [expand_fragment_tapes] returned on the tape of the
    fragment. *)
Lemma cut_circuit_expands_all tape method kwargs g fragments cg :
  resolved tape method kwargs = Ok g ->
  fragment_graph g = Ok (fragments, cg) ->
  (forall f, In f fragments ->
             exists t c, graph_to_tape f = Ok t /\
                         expand_fragment_tapes t = Ok c) ->
  exists configurations,
    Forall2 (fun f c => exists t, graph_to_tape f = Ok t /\
                                  expand_fragment_tapes t = Ok c)
            fragments configurations /\
    run tape method kwargs
    = Ok (concat configurations,
          mkPartial (map (@length QuantumTape) configurations) cg).
Proof.
  intros Hg Hf Hstages.
  destruct (mapM_returns graph_to_tape fragments) as (fts & Ht & Hft).
  { intros f Hin. destruct (Hstages f Hin) as (t & _ & Ht & _).
    exists t. exact Ht. }
  destruct (mapM_returns expand_fragment_tapes fts) as (confs & Hc & Hfc).
  { intros t Hin.
    destruct (Forall2_from_right t Hft Hin) as (f & Hinf & Hgt).
    destruct (Hstages f Hinf) as (t' & c & Ht' & Hex).
    exists c. congruence. }
  exists confs. split.
  - exact (Forall2_chain Hft Hfc).
  - exact (cut_circuit_returns _ _ _ Hg Hf Ht Hc).
Qed.

End PipelineFacts.

Section CutCircuitClaims.

Variable tape_to_graph : QuantumTape -> result MultiDiGraph.
Variable find_and_place_cuts : GState -> Method -> Kwargs -> result GState.
Variable fragment_graph :
  MultiDiGraph -> result (list MultiDiGraph * CommunicationGraph).
Variable graph_to_tape : MultiDiGraph -> result QuantumTape.
Variable expand_fragment_tapes : QuantumTape -> result (list QuantumTape).
Variable contract :
  list Z -> list nat -> CommunicationGraph -> result (list Z).

Local Abbreviation run := (cut_circuit tape_to_graph find_and_place_cuts
                         fragment_graph graph_to_tape expand_fragment_tapes).
Local Abbreviation resolved := (resolved_graph tape_to_graph find_and_place_cuts).

(** C9.  Output contract.  When the graph is resolved and fragmented and
    [graph_to_tape] and [expand_fragment_tapes] return on every fragment,
    [cut_circuit] returns a pair: the flattened sequence of the
    configurations of the fragments, where the configurations are, fragment
    by fragment and in fragment order, what [expand_fragment_tapes] returns
    on the tape [graph_to_tape] returns for the fragment; and a
    post-processing object.  That object holds one count per fragment, the
    number of configurations of that fragment, and the communication graph
    [fragment_graph] returned; the counts add up to the number of emitted
    Programs (the results are aligned one to one with them); and calling it
    on a sequence of results is calling [contract] on the results, those
    counts and that graph. *)
Theorem cut_circuit_output_contract tape method kwargs g fragments cg :
  resolved tape method kwargs = Ok g ->
  fragment_graph g = Ok (fragments, cg) ->
  (forall f, In f fragments ->
             exists t c, graph_to_tape f = Ok t /\
                         expand_fragment_tapes t = Ok c) ->
  exists configurations post,
    Forall2 (fun f c => exists t, graph_to_tape f = Ok t /\
                                  expand_fragment_tapes t = Ok c)
            fragments configurations /\
    run tape method kwargs = Ok (concat configurations, post) /\
    p_shapes post = map (@length QuantumTape) configurations /\
    length (p_shapes post) = length fragments /\
    p_communication_graph post = cg /\
    list_sum (p_shapes post) = length (concat configurations) /\
    forall results,
      call contract post results
      = contract results (map (@length QuantumTape) configurations) cg.
Proof.
  intros Hg Hf Hstages.
  destruct (@cut_circuit_expands_all tape_to_graph find_and_place_cuts
              fragment_graph graph_to_tape expand_fragment_tapes
              tape method kwargs g fragments cg Hg Hf Hstages)
    as (confs & Hall & Hrun).
  exists confs, (mkPartial (map (@length QuantumTape) confs) cg).
  split; [exact Hall |]. split; [exact Hrun |].
  cbn [p_shapes p_communication_graph].
  split; [reflexivity |]. split.
  - rewrite length_map. symmetry. exact (Forall2_length Hall).
  - split; [reflexivity |]. split.
    + symmetry. apply length_concat_shapes.
    + intro results. reflexivity.
Qed.

(** C10.  Fragment-major emission order.  Whenever the stages return, the
    emitted sequence is the concatenation of the configuration sequences
    of the fragments in fragment order; entry [i] of the shapes closed
    into the post-processing object is the length of the configuration
    sequence of fragment [i]; and the cumulative sums of the shapes
    delimit, in the emitted sequence, exactly that configuration sequence
    and, in any results sequence of the same length, a slice of that
    length. *)
Theorem cut_circuit_fragment_major
  tape method kwargs g fragments cg fragment_tapes configurations :
  resolved tape method kwargs = Ok g ->
  fragment_graph g = Ok (fragments, cg) ->
  mapM graph_to_tape fragments = Ok fragment_tapes ->
  mapM expand_fragment_tapes fragment_tapes = Ok configurations ->
  exists post,
    run tape method kwargs = Ok (concat configurations, post) /\
    length (p_shapes post) = length fragments /\
    forall i f, nth_error fragments i = Some f ->
      exists t c,
        graph_to_tape f = Ok t /\ expand_fragment_tapes t = Ok c /\
        nth_error (p_shapes post) i = Some (length c) /\
        slice (p_shapes post) i (concat configurations) = c /\
        forall results : list Z,
          length results = length (concat configurations) ->
          length (slice (p_shapes post) i results) = length c.
Proof.
  intros Hg Hf Ht Hc.
  exists (mkPartial (map (@length QuantumTape) configurations) cg).
  split; [apply (cut_circuit_returns _ _ _ _ _ _ _ _ Hg Hf Ht Hc) |].
  simpl. split.
  - rewrite length_map, (mapM_length _ _ Hc). apply (mapM_length _ _ Ht).
  - intros i f Hi.
    destruct (mapM_nth_error _ _ Ht i Hi) as (t & Hgt & Hti).
    destruct (mapM_nth_error _ _ Hc i Hti) as (c & Hex & Hci).
    exists t, c. split; [exact Hgt |]. split; [exact Hex |].
    assert (Hn : nth_error (map (@length QuantumTape) configurations) i
                 = Some (length c)).
    { rewrite nth_error_map, Hci. reflexivity. }
    split; [exact Hn |]. split.
    + apply slice_concat. exact Hci.
    + intros results Hlen.
      rewrite slice_length.
      * apply (nth_error_nth _ _ 0) in Hn. exact Hn.
      * rewrite Hlen. apply length_concat_shapes.
      * apply nth_error_Some. rewrite Hn. discriminate.
Qed.

Lemma no_method_ignores_kwargs tape kwargs kwargs' :
  run tape None kwargs = run tape None kwargs'.
Proof. reflexivity. Qed.

(** C7, as amended.  [cut_circuit] has no configuration ceiling: when the
    graph is resolved and fragmented and [graph_to_tape] and
    [expand_fragment_tapes] return on every fragment, it returns, however
    many they are, every configuration of every fragment: the emitted
    sequence is the concatenation, in fragment order, of what
    [expand_fragment_tapes] returns for each fragment, as many Programs as
    the configuration counts of the fragments add up to.  Without a method
    the keyword arguments, where a ceiling would have to be passed, do not
    reach any stage. *)
Theorem cut_circuit_no_budget_check tape method kwargs g fragments cg :
  resolved tape method kwargs = Ok g ->
  fragment_graph g = Ok (fragments, cg) ->
  (forall f, In f fragments ->
             exists t c, graph_to_tape f = Ok t /\
                         expand_fragment_tapes t = Ok c) ->
  exists configurations post,
    Forall2 (fun f c => exists t, graph_to_tape f = Ok t /\
                                  expand_fragment_tapes t = Ok c)
            fragments configurations /\
    run tape method kwargs = Ok (concat configurations, post) /\
    (forall f t c p,
        In f fragments -> graph_to_tape f = Ok t ->
        expand_fragment_tapes t = Ok c -> In p c ->
        In p (concat configurations)) /\
    length (concat configurations)
    = list_sum (map (@length QuantumTape) configurations) /\
    (method = None ->
     forall kwargs', run tape None kwargs' = Ok (concat configurations, post)).
Proof.
  intros Hg Hf Hstages.
  destruct (@cut_circuit_expands_all tape_to_graph find_and_place_cuts
              fragment_graph graph_to_tape expand_fragment_tapes
              tape method kwargs g fragments cg Hg Hf Hstages)
    as (confs & Hall & Hrun).
  exists confs, (mkPartial (map (@length QuantumTape) confs) cg).
  split; [exact Hall |]. split; [exact Hrun |]. split; [| split].
  - intros f t c p Hin Ht Hc Hp. apply in_concat. exists c. split; [| exact Hp].
    clear Hrun Hstages Hf. induction Hall as [| f0 c0 fs cs (t0 & Ht0 & Hc0) _ IH].
    + destruct Hin.
    + destruct Hin as [-> | Hin].
      * left. congruence.
      * right. exact (IH Hin).
  - apply length_concat_shapes.
  - intros -> kwargs'. rewrite <- Hrun. reflexivity.
Qed.

End CutCircuitClaims.

(** ** The chain example RX(0); WireCut(0); RY(0) through the pipeline *)

Lemma chain_stages :
  resolved_graph Spec.tape_to_graph no_search chain_tape None [] = Ok chain_graph /\
  (fun g => Ok (Spec.fragment_graph g)) chain_graph
  = Ok (chain_fragments, chain_comm) /\
  mapM Spec.graph_to_tape chain_fragments = Ok chain_fragment_tapes /\
  mapM (fun t => Ok (Spec.expand_fragment_tapes 2 t)) chain_fragment_tapes
  = Ok chain_configurations.
Proof. repeat split; vm_compute; reflexivity. Qed.

Lemma chain_fragments_expand :
  forall f, In f chain_fragments ->
            exists t c, Spec.graph_to_tape f = Ok t /\
                        (fun t => Ok (Spec.expand_fragment_tapes 2 t)) t = Ok c.
Proof.
  intros f Hin. cbv [chain_fragments] in Hin. cbn [In] in Hin.
  repeat (destruct Hin as [<- | Hin];
          [eexists; eexists; split; [vm_compute; reflexivity | reflexivity] |]).
  destruct Hin.
Qed.

Lemma cut_circuit_output_contract_witness :
  exists configurations post,
    Forall2 (fun f c => exists t, Spec.graph_to_tape f = Ok t /\
                                  Ok (Spec.expand_fragment_tapes 2 t) = Ok c)
            chain_fragments configurations /\
    cut_circuit Spec.tape_to_graph no_search
      (fun g => Ok (Spec.fragment_graph g)) Spec.graph_to_tape
      (fun t => Ok (Spec.expand_fragment_tapes 2 t)) chain_tape None []
    = Ok (concat configurations, post) /\
    p_shapes post = map (@length QuantumTape) configurations /\
    length (p_shapes post) = length chain_fragments /\
    p_communication_graph post = chain_comm /\
    list_sum (p_shapes post) = length (concat configurations) /\
    forall results,
      call (Spec.contract 2 delta_pairing) post results
      = Spec.contract 2 delta_pairing results
          (map (@length QuantumTape) configurations) chain_comm.
Proof.
  apply (@cut_circuit_output_contract Spec.tape_to_graph no_search
           (fun g => Ok (Spec.fragment_graph g)) Spec.graph_to_tape
           (fun t => Ok (Spec.expand_fragment_tapes 2 t))
           (Spec.contract 2 delta_pairing)
           chain_tape None [] chain_graph chain_fragments chain_comm).
  - vm_compute. reflexivity.
  - vm_compute. reflexivity.
  - exact chain_fragments_expand.
Defined.

Lemma cut_circuit_fragment_major_witness :
  exists post,
    cut_circuit Spec.tape_to_graph no_search
      (fun g => Ok (Spec.fragment_graph g)) Spec.graph_to_tape
      (fun t => Ok (Spec.expand_fragment_tapes 2 t)) chain_tape None []
    = Ok (concat chain_configurations, post) /\
    length (p_shapes post) = length chain_fragments /\
    forall i f, nth_error chain_fragments i = Some f ->
      exists t c,
        Spec.graph_to_tape f = Ok t /\ Ok (Spec.expand_fragment_tapes 2 t) = Ok c /\
        nth_error (p_shapes post) i = Some (length c) /\
        slice (p_shapes post) i (concat chain_configurations) = c /\
        forall results : list Z,
          length results = length (concat chain_configurations) ->
          length (slice (p_shapes post) i results) = length c.
Proof.
  apply (cut_circuit_fragment_major Spec.tape_to_graph no_search
           (fun g => Ok (Spec.fragment_graph g)) Spec.graph_to_tape
           (fun t => Ok (Spec.expand_fragment_tapes 2 t))
           chain_tape None [] (g := chain_graph) (fragments := chain_fragments)
           (cg := chain_comm) (fragment_tapes := chain_fragment_tapes)
           (configurations := chain_configurations));
    vm_compute; reflexivity.
Defined.

Lemma cut_circuit_no_budget_check_witness :
  exists configurations post,
    Forall2 (fun f c => exists t, Spec.graph_to_tape f = Ok t /\
                                  Ok (Spec.expand_fragment_tapes 2 t) = Ok c)
            chain_fragments configurations /\
    cut_circuit Spec.tape_to_graph no_search
      (fun g => Ok (Spec.fragment_graph g)) Spec.graph_to_tape
      (fun t => Ok (Spec.expand_fragment_tapes 2 t)) chain_tape None
      [("max_configurations"%string, 1%Z)]
    = Ok (concat configurations, post) /\
    (forall f t c p,
        In f chain_fragments -> Spec.graph_to_tape f = Ok t ->
        Ok (Spec.expand_fragment_tapes 2 t) = Ok c -> In p c ->
        In p (concat configurations)) /\
    length (concat configurations)
    = list_sum (map (@length QuantumTape) configurations) /\
    (@None Method = None ->
     forall kwargs',
       cut_circuit Spec.tape_to_graph no_search
         (fun g => Ok (Spec.fragment_graph g)) Spec.graph_to_tape
         (fun t => Ok (Spec.expand_fragment_tapes 2 t)) chain_tape None kwargs'
       = Ok (concat configurations, post)).
Proof.
  apply (@cut_circuit_no_budget_check Spec.tape_to_graph no_search
           (fun g => Ok (Spec.fragment_graph g)) Spec.graph_to_tape
           (fun t => Ok (Spec.expand_fragment_tapes 2 t))
           chain_tape None [("max_configurations"%string, 1%Z)]
           chain_graph chain_fragments chain_comm).
  - vm_compute. reflexivity.
  - vm_compute. reflexivity.
  - exact chain_fragments_expand.
Defined.

(** C7, as stated, fails: no keyword argument acts as a ceiling.  For the
    chain example with a two-letter alphabet the total configuration count
    is 8; with a ceiling of 1 under any keyword [cut_circuit] returns the 8
    Programs. *)
Lemma no_eager_budget_check : ~ exists key, eager_budget_check 2 key.
Proof.
  intros [key H].
  specialize (H chain_tape [(key, 1%Z)] 1%Z 8).
  simpl in H. rewrite String.eqb_refl in H.
  assert (E : total_configurations 2 chain_tape = Ok 8)
    by (vm_compute; reflexivity).
  specialize (H eq_refl E).
  assert (L : (1 < Z.of_nat 8)%Z) by lia.
  specialize (H L).
  change (cut_circuit_with 2 no_search chain_tape None [])
    with (cut_circuit_with 2 no_search chain_tape None [(key, 1%Z)]) in *.
  assert (R : cut_circuit_with 2 no_search chain_tape None [(key, 1%Z)]
              = Ok (concat chain_configurations,
                    mkPartial [2; 2; 2; 2] chain_comm)).
  { apply (cut_circuit_returns Spec.tape_to_graph no_search
             (fun g => Ok (Spec.fragment_graph g)) Spec.graph_to_tape
             (fun t => Ok (Spec.expand_fragment_tapes 2 t))
             chain_tape None [(key, 1%Z)] (g := chain_graph)
             (fragments := chain_fragments)
             (fragment_tapes := chain_fragment_tapes)
             (configurations := chain_configurations));
      vm_compute; reflexivity. }
  rewrite R in H. discriminate H.
Qed.

(** ** remove_wire_cut_node on the examples *)

(** C3 on RX(0); WireCut(0); RY(0), one single-channel cut.  The
    communication graph has one edge, but the resolved graph has six nodes:
    the three of the built graph, less the marker, plus four placeholders
    and not two. *)
Theorem chain_cut_adds_four_nodes :
  Spec.tape_to_graph chain_tape = Ok chain_built /\
  resolved_graph Spec.tape_to_graph no_search chain_tape None [] = Ok chain_graph /\
  count_markers (operations chain_tape) = 1 /\
  length (cg_edges (snd (Spec.fragment_graph chain_graph))) = 1 /\
  length (g_nodes chain_built) = 3 /\
  length (g_nodes chain_graph) = 6 /\
  length (g_nodes chain_graph) <> length (g_nodes chain_built) - 1 + 2 * 1.
Proof. repeat split; try (vm_compute; reflexivity). vm_compute. lia. Qed.

(** C4 on RX(0); WireCut(0); RY(0).  After the one marker is resolved the
    graph holds a MeasureNode and a PrepareNode on channel 0 that are on no
    cut edge, next to the pair that is. *)
Theorem chain_cut_leaves_unpaired_placeholders :
  resolved_graph Spec.tape_to_graph no_search chain_tape None [] = Ok chain_graph /\
  filter isWireCut (g_nodes chain_graph) = [] /\
  unpaired chain_graph = [mkOp 3 MeasureNode [0]; mkOp 4 PrepareNode [0]] /\
  pair_edges_of chain_graph (mkOp 3 MeasureNode [0]) = [] /\
  pair_edges_of chain_graph (mkOp 4 PrepareNode [0]) = [] /\
  map (fun e => e_pair (e_data e)) (filter Spec.is_cut_edge (g_edges chain_graph))
  = [Some (mkOp 5 MeasureNode [0], mkOp 6 PrepareNode [0])].
Proof. repeat split; vm_compute; reflexivity. Qed.

(** C5 on CNOT(0,1); RX(1); WireCut(1,0).  On channel 1 the predecessor of
    the marker is RX(1); the MeasureNode that the cut edge of channel 1
    pairs is fed by CNOT(0,1), and the MeasureNode fed by RX(1) is on no cut
    edge. *)
Theorem shared_cut_pairs_wrong_measure :
  Spec.tape_to_graph shared_tape = Ok shared_built /\
  resolved_graph Spec.tape_to_graph no_search shared_tape None [] = Ok shared_graph /\
  predecessor_on shared_built Cut_10 1 = [RX_1] /\
  paired_measures shared_graph 1 = [mkOp 9 MeasureNode [1]] /\
  feeders shared_graph (mkOp 9 MeasureNode [1]) = [CNOT_01] /\
  feeders shared_graph (mkOp 7 MeasureNode [1]) = [RX_1] /\
  pair_edges_of shared_graph (mkOp 7 MeasureNode [1]) = [].
Proof. repeat split; vm_compute; reflexivity. Qed.

(** ** The configuration counter *)

Lemma configurations_length a p : length (Spec.configurations a p) = a ^ p.
Proof.
  induction p as [| p IH]; simpl.
  - reflexivity.
  - rewrite flat_map_constant_length with (c := a ^ p).
    + rewrite length_seq. reflexivity.
    + intros b _. rewrite length_map. exact IH.
Qed.

Lemma configurations_digits a p :
  forall cfg, In cfg (Spec.configurations a p) ->
              length cfg = p /\ Forall (fun b => b < a) cfg.
Proof.
  induction p as [| p IH]; simpl; intros cfg H.
  - destruct H as [<- | []]. split; [reflexivity | constructor].
  - apply in_flat_map in H. destruct H as (b & Hb & H).
    apply in_map_iff in H. destruct H as (cfg' & <- & Hcfg').
    destruct (IH cfg' Hcfg') as [Hlen Hall].
    apply in_seq in Hb. split.
    + simpl. f_equal. exact Hlen.
    + constructor; [lia | exact Hall].
Qed.

Lemma flat_map_blocks m c :
  forall n s,
    flat_map (fun b => seq ((m + b) * c) c) (seq s n) = seq ((m + s) * c) (n * c).
Proof.
  induction n as [| n IH]; intro s; simpl.
  - reflexivity.
  - rewrite IH, seq_app. do 2 f_equal. lia.
Qed.

(** The counter enumerates the configurations by their mixed-radix value. *)
Lemma encode_configurations a p :
  forall acc,
    map (fun ds => Spec.encode a ds acc) (Spec.configurations a p)
    = seq (acc * a ^ p) (a ^ p).
Proof.
  induction p as [| p IH]; intro acc; simpl.
  - rewrite Nat.mul_1_r. reflexivity.
  - rewrite flat_map_concat_map, concat_map, map_map.
    rewrite <- flat_map_concat_map.
    rewrite (flat_map_ext _ (fun b => seq ((acc * a + b) * a ^ p) (a ^ p))).
    + rewrite flat_map_blocks. f_equal. lia.
    + intro b. rewrite map_map. simpl. apply IH.
Qed.

Lemma resolve_op_concrete b o :
  isPlaceholder o = true -> isPlaceholder (Spec.resolve_op b o) = false.
Proof.
  unfold isPlaceholder, isMeasureNode, isPrepareNode, Spec.resolve_op.
  destruct (kind o); simpl; intro H; try discriminate H; reflexivity.
Qed.

Lemma resolve_concrete :
  forall ops cfg,
    length (Spec.placeholders ops) <= length cfg ->
    Spec.placeholders (Spec.resolve ops cfg) = [].
Proof.
  unfold Spec.placeholders.
  induction ops as [| o ops IH]; simpl; intros cfg H.
  - reflexivity.
  - destruct (isPlaceholder o) eqn:Ho.
    + destruct cfg as [| b cfg]; simpl in H; [lia |].
      simpl. rewrite (resolve_op_concrete b o Ho). apply IH. lia.
    + simpl. rewrite Ho. apply IH. exact H.
Qed.

(** C6.  Configuration count and restartability.  For a fragment Program
    with [p] placeholders and an alphabet of size [a],
    [expand_fragment_tapes] returns [a ^ p] Programs; the Program at position
    [k] is the input resolved by the configuration whose mixed-radix value is
    [k], so the order is fixed; no placeholder is left in any of them; and
    two generations from the same Program are the same sequence. *)
Theorem expand_fragment_tapes_count a tape :
  length (Spec.expand_fragment_tapes a tape)
  = a ^ length (Spec.placeholders (operations tape)) /\
  (forall k, k < a ^ length (Spec.placeholders (operations tape)) ->
     exists cfg,
       length cfg = length (Spec.placeholders (operations tape)) /\
       Forall (fun b => b < a) cfg /\
       Spec.encode a cfg 0 = k /\
       nth_error (Spec.expand_fragment_tapes a tape) k
       = Some (mkTape (Spec.resolve (operations tape) cfg))) /\
  Forall (fun t => Spec.placeholders (operations t) = [])
         (Spec.expand_fragment_tapes a tape) /\
  (forall first second,
     first = Spec.expand_fragment_tapes a tape ->
     second = Spec.expand_fragment_tapes a tape ->
     first = second).
Proof.
  unfold Spec.expand_fragment_tapes.
  set (p := length (Spec.placeholders (operations tape))).
  split; [| split; [| split]].
  - rewrite length_map. apply configurations_length.
  - intros k Hk.
    destruct (nth_error (Spec.configurations a p) k) as [cfg |] eqn:Hcfg.
    + exists cfg.
      destruct (configurations_digits a p cfg (nth_error_In _ _ Hcfg))
        as [Hlen Hall].
      split; [exact Hlen |]. split; [exact Hall |]. split.
      * pose proof (encode_configurations a p 0) as E.
        apply (f_equal (fun l => nth_error l k)) in E.
        rewrite nth_error_map, Hcfg in E. simpl in E.
        rewrite (nth_error_nth' _ 0) in E by (rewrite length_seq; exact Hk).
        rewrite seq_nth in E by exact Hk.
        injection E as E. exact E.
      * rewrite nth_error_map, Hcfg. reflexivity.
    + apply nth_error_None in Hcfg. rewrite configurations_length in Hcfg. lia.
  - apply Forall_forall. intros t Ht.
    apply in_map_iff in Ht. destruct Ht as (cfg & <- & Hcfg).
    simpl. apply resolve_concrete.
    destruct (configurations_digits a p cfg Hcfg) as [Hlen _].
    fold p. lia.
  - intros first second -> ->. reflexivity.
Qed.

(** ** Operations as graph nodes *)

Lemma same_op_eq a b : same_op a b = true <-> oid a = oid b.
Proof. unfold same_op. apply Nat.eqb_eq. Qed.

Lemma same_op_neq a b : same_op a b = false <-> oid a <> oid b.
Proof. unfold same_op. apply Nat.eqb_neq. Qed.

Lemma op_in_spec v l : op_in v l = true <-> In (oid v) (map oid l).
Proof.
  unfold op_in. rewrite existsb_exists, in_map_iff. split.
  - intros (x & Hx & E). apply same_op_eq in E. exists x. auto.
  - intros (x & E & Hx). exists x. split; [exact Hx |].
    apply same_op_eq. auto.
Qed.

Lemma op_in_In v l : In v l -> op_in v l = true.
Proof. intro H. apply op_in_spec. apply in_map. exact H. Qed.

Lemma op_in_false v l : op_in v l = false <-> ~ In (oid v) (map oid l).
Proof.
  rewrite <- op_in_spec. destruct (op_in v l); split; intro H;
    try discriminate; try reflexivity; try (intro; discriminate).
  exfalso. apply H. reflexivity.
Qed.

Lemma existsb_false {A : Type} (f : A -> bool) l :
  existsb f l = false <-> forall x, In x l -> f x = false.
Proof.
  induction l as [| y l IH]; simpl.
  - split; [intros _ x [] | reflexivity].
  - rewrite orb_false_iff, IH. split.
    + intros [Hy Hl] x [<- | Hx]; auto.
    + intro H. split; [apply H; left; reflexivity |].
      intros x Hx. apply H. right. exact Hx.
Qed.

Lemma dict_get_set {V : Type} (d : Dict V) w v w' :
  dict_get (dict_set d w v) w'
  = if Nat.eqb w w' then Some v else dict_get d w'.
Proof.
  induction d as [| [k x] d IH]; simpl.
  - reflexivity.
  - destruct (Nat.eqb k w) eqn:Ekw; simpl.
    + apply Nat.eqb_eq in Ekw. subst k.
      destruct (Nat.eqb w w'); reflexivity.
    + rewrite IH. destruct (Nat.eqb k w') eqn:Ekw'; [| reflexivity].
      apply Nat.eqb_eq in Ekw'. subst w'. rewrite Nat.eqb_sym, Ekw.
      reflexivity.
Qed.

Lemma add_node_present g n : has_node g n = true -> add_node g n = g.
Proof. unfold add_node. intros ->. reflexivity. Qed.

Lemma add_node_absent g n :
  has_node g n = false -> add_node g n = mkGraph (g_nodes g ++ [n]) (g_edges g).
Proof. unfold add_node. intros ->. reflexivity. Qed.

Lemma add_edge_present g u v d :
  has_node g u = true -> has_node g v = true ->
  add_edge g u v d
  = mkGraph (g_nodes g) (g_edges g ++ [mkEdge u v (new_edge_key g u v) d]).
Proof.
  intros Hu Hv. unfold add_edge.
  rewrite (add_node_present g u Hu), (add_node_present g v Hv). reflexivity.
Qed.

(** ** tape_to_graph on a valid Program *)

Lemma forward_snoc old new op :
  forall S,
    (forall x, In x S -> oid x <> oid op) ->
    (forall e, In e old -> oid (e_src e) <> oid op /\ oid (e_dst e) <> oid op) ->
    (forall e, In e new -> e_dst e = op /\ oid (e_src e) <> oid op) ->
    forward old S = true ->
    forward (old ++ new) (S ++ [op]) = true.
Proof.
  intros S HS Hold Hnew.
  induction S as [| v S IH]; simpl; intro H.
  - rewrite andb_true_r. unfold Spec.ready. apply negb_true_iff.
    apply existsb_false. intros e He. apply in_app_or in He.
    destruct He as [He | He].
    + destruct (Hold e He) as [_ Hd].
      apply same_op_neq in Hd. rewrite Hd. reflexivity.
    + destruct (Hnew e He) as [_ Hs].
      apply same_op_neq in Hs. simpl. rewrite Hs.
      apply andb_false_r.
  - apply andb_true_iff in H. destruct H as [Hv HS'].
    apply andb_true_iff. split.
    + unfold Spec.ready in *. apply negb_true_iff in Hv.
      apply negb_true_iff. apply existsb_false.
      intros e He. apply in_app_or in He. destruct He as [He | He].
      * pose proof (proj1 (existsb_false _ _) Hv e He) as Hf.
        cbv beta in Hf. apply andb_false_iff in Hf.
        apply andb_false_iff. destruct Hf as [Hf | Hf]; [left; exact Hf |].
        right. change (v :: S ++ [op]) with ((v :: S) ++ [op]).
        apply op_in_false in Hf. apply op_in_false.
        rewrite map_app, in_app_iff. intros [Hin | [Hin | []]].
        -- apply Hf. exact Hin.
        -- destruct (Hold e He) as [Hs _]. apply Hs. symmetry. exact Hin.
      * destruct (Hnew e He) as [Hd _]. rewrite Hd.
        assert (Hv' : same_op op v = false).
        { apply same_op_neq. intro E. apply (HS v); [left; reflexivity |].
          symmetry. exact E. }
        rewrite Hv'. reflexivity.
    + apply IH; [| exact HS'].
      intros x Hx. apply HS. right. exact Hx.
Qed.

Lemma add_op_wires P op old :
  forall ws g latest new,
    NoDup ws ->
    g_nodes g = P ++ [op] ->
    g_edges g = old ++ new ->
    Forall (edge_into P op) new ->
    (forall w o, dict_get latest w = Some o -> In o P \/ o = op) ->
    (forall w o, In w ws -> dict_get latest w = Some o -> In o P) ->
    exists g' latest' new',
      fold_left (Spec.add_op_wire op) ws (g, latest) = (g', latest') /\
      g_nodes g' = P ++ [op] /\
      g_edges g' = old ++ new' /\
      Forall (edge_into P op) new' /\
      (forall w o, dict_get latest' w = Some o -> In o P \/ o = op).
Proof.
  induction ws as [| w ws IH]; intros g latest new Hnd Hn He Hnew Hl Hws.
  - exists g, latest, new. repeat split; assumption.
  - inversion Hnd as [| w0 ws0 Hw Hnd']; subst w0 ws0.
    assert (Hl' : forall w' o, dict_get (dict_set latest w op) w' = Some o ->
                               In o P \/ o = op).
    { intros w' o. rewrite dict_get_set.
      destruct (Nat.eqb w w'); [| apply Hl].
      intro E. injection E as <-. right. reflexivity. }
    assert (Hws' : forall w' o, In w' ws ->
                     dict_get (dict_set latest w op) w' = Some o -> In o P).
    { intros w' o Hw'. rewrite dict_get_set.
      destruct (Nat.eqb w w') eqn:E.
      - apply Nat.eqb_eq in E. subst w'. contradiction.
      - apply Hws. right. exact Hw'. }
    simpl. destruct (dict_get latest w) as [prev |] eqn:Hget.
    + assert (Hprev : In prev P) by (apply (Hws w prev); [left; reflexivity | exact Hget]).
      rewrite add_edge_present.
      * apply (IH _ _ (new ++ [mkEdge prev op (new_edge_key g prev op) (wire_data w)]));
          try assumption.
        -- simpl. rewrite He, app_assoc. reflexivity.
        -- apply Forall_app. split; [exact Hnew |].
           constructor; [| constructor].
           unfold edge_into. simpl. auto.
      * unfold has_node. rewrite Hn. apply op_in_In. apply in_or_app.
        left. exact Hprev.
      * unfold has_node. rewrite Hn. apply op_in_In. apply in_or_app.
        right. left. reflexivity.
    + apply (IH _ _ new); assumption.
Qed.

Lemma add_op_built P acc op :
  built P acc -> ~ In (oid op) (map oid P) -> valid_op op ->
  exists acc', Spec.add_op acc op = Ok acc' /\ built (P ++ [op]) acc'.
Proof.
  destruct acc as [g latest]. intros (Hn & He & Hf & Hl) Hop [Hne Hnd].
  simpl in Hn, He, Hf, Hl.
  unfold Spec.add_op. destruct (wires op) as [| w ws] eqn:Hw; [contradiction |].
  rewrite <- Hw. rewrite <- Hw in Hnd. simpl fst. simpl snd.
  rewrite add_node_absent
    by (unfold has_node; rewrite Hn; apply op_in_false; exact Hop).
  destruct (@add_op_wires P op (g_edges g) (wires op)
              (mkGraph (g_nodes g ++ [op]) (g_edges g)) latest [])
    as (g' & latest' & new & Hfold & Hn' & He' & Hnew & Hl').
  - exact Hnd.
  - simpl. rewrite Hn. reflexivity.
  - simpl. rewrite app_nil_r. reflexivity.
  - constructor.
  - intros w' o Hget. left. exact (Hl w' o Hget).
  - intros w' o _ Hget. exact (Hl w' o Hget).
  - exists (g', latest'). split; [rewrite Hfold; reflexivity |].
    unfold built. simpl. repeat split.
    + exact Hn'.
    + rewrite He'. apply Forall_app. split.
      * eapply Forall_impl; [| exact He].
        intros e (Hp & Hs & Hd). rewrite map_app.
        repeat split; [exact Hp | |]; apply in_or_app; left; assumption.
      * eapply Forall_impl; [| exact Hnew].
        intros e (Hd & Hs & Hp). rewrite map_app.
        repeat split; [exact Hp | |]; apply in_or_app.
        -- left. apply in_map. exact Hs.
        -- right. rewrite Hd. left. reflexivity.
    + rewrite He'. apply forward_snoc.
      * intros x Hx E. apply Hop. rewrite <- E. apply in_map. exact Hx.
      * intros e Hin. rewrite Forall_forall in He.
        destruct (He e Hin) as (_ & Hs & Hd).
        split; intro E; apply Hop; rewrite <- E; assumption.
      * intros e Hin. rewrite Forall_forall in Hnew.
        destruct (Hnew e Hin) as (Hd & Hs & _).
        split; [exact Hd |]. intro E. apply Hop. rewrite <- E.
        apply in_map. exact Hs.
      * exact Hf.
    + intros w' o Hget. apply in_or_app.
      destruct (Hl' w' o Hget) as [Hin | ->]; [left; exact Hin |].
      right. left. reflexivity.
Qed.

Lemma foldM_add_op_built :
  forall ops P acc,
    built P acc -> NoDup (map oid (P ++ ops)) -> Forall valid_op ops ->
    exists acc', foldM Spec.add_op ops acc = Ok acc' /\ built (P ++ ops) acc'.
Proof.
  induction ops as [| op ops IH]; intros P acc Hb Hnd Hv.
  - exists acc. rewrite app_nil_r. split; [reflexivity | exact Hb].
  - inversion Hv as [| op0 ops0 Hop Hv']; subst op0 ops0.
    assert (Hfresh : ~ In (oid op) (map oid P)).
    { rewrite map_app in Hnd. simpl in Hnd. apply NoDup_remove_2 in Hnd.
      intro Hin. apply Hnd. apply in_or_app. left. exact Hin. }
    destruct (add_op_built Hb Hfresh Hop) as (acc1 & Hstep & Hb1).
    simpl. rewrite Hstep. simpl.
    replace (P ++ op :: ops) with ((P ++ [op]) ++ ops) in *
      by (rewrite <- app_assoc; reflexivity).
    apply IH; assumption.
Qed.

Lemma built_empty : built [] (empty_graph, []).
Proof.
  unfold built. simpl. repeat split.
  - constructor.
  - intros w o H. discriminate H.
Qed.

(** On a valid Program [tape_to_graph] returns; the nodes of the graph are
    the operations in program order, no edge is a cut edge, every edge joins
    two nodes, and the program order is a topological order. *)
Lemma tape_to_graph_valid tape :
  valid_tape tape ->
  exists g latest,
    Spec.tape_to_graph tape = Ok g /\ built (operations tape) (g, latest).
Proof.
  intros [Hnd Hv].
  destruct (foldM_add_op_built (ops := operations tape) built_empty Hnd Hv)
    as ([g latest] & Hfold & Hb).
  exists g, latest. unfold Spec.tape_to_graph. rewrite Hfold.
  split; [reflexivity | exact Hb].
Qed.

(** ** graph_to_tape on a graph whose node order is topological *)

Lemma filter_others v :
  forall l, ~ In (oid v) (map oid l) ->
            filter (fun m => negb (same_op m v)) l = l.
Proof.
  induction l as [| x l IH]; simpl; intro H.
  - reflexivity.
  - assert (E : same_op x v = false).
    { apply same_op_neq. intro E. apply H. left. exact E. }
    rewrite E. simpl. f_equal. apply IH. intro Hin. apply H. right. exact Hin.
Qed.

Lemma linearize_forward es :
  forall l fuel,
    NoDup (map oid l) -> forward es l = true -> length l <= fuel ->
    Spec.linearize fuel es l = Ok l.
Proof.
  induction l as [| v suf IH]; intros fuel Hnd Hf Hlen.
  - destruct fuel; reflexivity.
  - destruct fuel as [| fuel]; [simpl in Hlen; lia |].
    simpl in Hf. apply andb_true_iff in Hf. destruct Hf as [Hv Hsuf].
    inversion Hnd as [| x xs Hnotin Hnd']; subst x xs.
    cbn [Spec.linearize find]. rewrite Hv.
    cbn [filter]. unfold same_op at 1. rewrite Nat.eqb_refl. cbn [negb].
    rewrite (filter_others v suf Hnotin).
    rewrite (IH fuel Hnd' Hsuf) by (simpl in Hlen; lia).
    reflexivity.
Qed.

(** ** Components of a connected graph *)

Lemma filter_length_le {A : Type} (P Q : A -> bool) :
  forall l, (forall x, In x l -> P x = true -> Q x = true) ->
            length (filter P l) <= length (filter Q l).
Proof.
  induction l as [| x l IH]; simpl; intro H.
  - lia.
  - assert (IH' : length (filter P l) <= length (filter Q l)).
    { apply IH. intros y Hy. apply H. right. exact Hy. }
    destruct (P x) eqn:HP.
    + rewrite (H x (or_introl eq_refl) HP). simpl. lia.
    + destruct (Q x); simpl; lia.
Qed.

Lemma filter_same_length {A : Type} (P Q : A -> bool) :
  forall l, (forall x, In x l -> P x = true -> Q x = true) ->
            length (filter P l) = length (filter Q l) ->
            filter P l = filter Q l.
Proof.
  induction l as [| x l IH]; simpl; intros H Hlen.
  - reflexivity.
  - assert (Hl : forall y, In y l -> P y = true -> Q y = true).
    { intros y Hy. apply H. right. exact Hy. }
    pose proof (filter_length_le P Q l Hl) as Hle.
    destruct (P x) eqn:HP.
    + rewrite (H x (or_introl eq_refl) HP) in *. simpl in Hlen.
      f_equal. apply IH; [exact Hl | lia].
    + destruct (Q x); simpl in Hlen.
      * lia.
      * apply IH; [exact Hl | exact Hlen].
Qed.

Lemma filter_full_length {A : Type} (P : A -> bool) l :
  length l <= length (filter P l) -> filter P l = l.
Proof.
  intro H. rewrite <- (filter_true l) at 2.
  apply filter_same_length.
  - reflexivity.
  - rewrite filter_true. pose proof (filter_length_le P (fun _ => true) l).
    rewrite filter_true in H0. specialize (H0 (fun _ _ _ => eq_refl)). lia.
Qed.

Lemma grow_n_succ g :
  forall k s, Spec.grow_n (S k) g s = Spec.grow g (Spec.grow_n k g s).
Proof.
  induction k as [| k IH]; intro s.
  - reflexivity.
  - change (Spec.grow_n (S (S k)) g s) with (Spec.grow_n (S k) g (Spec.grow g s)).
    rewrite IH. reflexivity.
Qed.

Lemma grow_keeps g s v :
  In v (g_nodes g) -> op_in v s = true -> In v (Spec.grow g s).
Proof.
  intros Hv Hs. unfold Spec.grow. apply filter_In. split; [exact Hv |].
  rewrite Hs. reflexivity.
Qed.

Lemma grow_length_le g s :
  length (Spec.grow g s) <= length (Spec.grow g (Spec.grow g s)).
Proof.
  unfold Spec.grow at 1 2. apply filter_length_le.
  intros v Hv HP.
  assert (Hin : In v (Spec.grow g s)).
  { unfold Spec.grow. apply filter_In. split; assumption. }
  rewrite (op_in_In _ _ Hin). reflexivity.
Qed.

Lemma grow_same_length g s :
  length (Spec.grow g s) = length (Spec.grow g (Spec.grow g s)) ->
  Spec.grow g (Spec.grow g s) = Spec.grow g s.
Proof.
  intro H. symmetry. unfold Spec.grow at 1 2. apply filter_same_length.
  - intros v Hv HP.
    assert (Hin : In v (Spec.grow g s)).
    { unfold Spec.grow. apply filter_In. split; assumption. }
    rewrite (op_in_In _ _ Hin). reflexivity.
  - exact H.
Qed.

(** After [k + 1] rounds the search has stopped growing or has reached more
    than [k] nodes. *)
Lemma grow_n_progress g r :
  In r (g_nodes g) ->
  forall k,
    Spec.grow g (Spec.grow_n (S k) g [r]) = Spec.grow_n (S k) g [r] \/
    S k <= length (Spec.grow_n (S k) g [r]).
Proof.
  intros Hr. induction k as [| k IH].
  - right. simpl.
    assert (Hin : In r (Spec.grow g [r])).
    { apply grow_keeps; [exact Hr |]. apply op_in_In. left. reflexivity. }
    destruct (Spec.grow g [r]); [destruct Hin | simpl; lia].
  - rewrite (grow_n_succ g (S k)).
    destruct IH as [IH | IH].
    + left. rewrite IH. exact IH.
    + rewrite (grow_n_succ g k) in *.
      set (s := Spec.grow_n k g [r]) in *.
      pose proof (grow_length_le g s) as Hle.
      destruct (Nat.eq_dec (length (Spec.grow g s))
                           (length (Spec.grow g (Spec.grow g s)))) as [E | E].
      * left. apply grow_same_length in E. rewrite E. exact E.
      * right. lia.
Qed.

Lemma between_oid u v u' v' e :
  oid u = oid u' -> oid v = oid v' -> between u v e = between u' v' e.
Proof. unfold between, same_op. intros -> ->. reflexivity. Qed.

Lemma adjacent_oid es u v u' v' :
  oid u = oid u' -> oid v = oid v' ->
  Spec.adjacent es u v = Spec.adjacent es u' v'.
Proof.
  intros Hu Hv. unfold Spec.adjacent.
  induction es as [| e es IH]; simpl.
  - reflexivity.
  - rewrite IH, (between_oid u v u' v' e Hu Hv), (between_oid v u v' u' e Hv Hu).
    reflexivity.
Qed.

Lemma adjacent_endpoint es u v :
  Spec.adjacent es u v = true ->
  exists e, In e es /\ (oid (e_src e) = oid v \/ oid (e_dst e) = oid v).
Proof.
  unfold Spec.adjacent. intro H. apply existsb_exists in H.
  destruct H as (e & He & H). exists e. split; [exact He |].
  apply orb_true_iff in H. unfold between in H.
  destruct H as [H | H]; apply andb_true_iff in H; destruct H as [H1 H2].
  - right. apply same_op_eq. exact H2.
  - left. apply same_op_eq. exact H1.
Qed.

(** A set the search no longer enlarges holds every node linked to one of
    its members. *)
Lemma closed_holds_linked g s r :
  (forall e, In e (g_edges g) ->
             In (oid (e_src e)) (map oid (g_nodes g)) /\
             In (oid (e_dst e)) (map oid (g_nodes g))) ->
  Spec.grow g s = s ->
  op_in r s = true ->
  forall v, linked g r v -> op_in v s = true.
Proof.
  intros Hwf Hclosed Hr v Hl.
  induction Hl as [u | u v w Hl IH Hadj]; [exact Hr |].
  specialize (IH Hr).
  destruct (adjacent_endpoint _ _ _ Hadj) as (e & He & Hw).
  assert (Hw' : In (oid w) (map oid (g_nodes g))).
  { unfold Spec.data_edges in He. apply filter_In in He.
    destruct He as [He _]. destruct (Hwf e He) as [Hs Hd].
    destruct Hw as [<- | <-]; assumption. }
  apply in_map_iff in Hw'. destruct Hw' as (w' & Ew & Hw').
  apply op_in_spec in IH. apply in_map_iff in IH.
  destruct IH as (v' & Ev & Hv').
  assert (Hin : In w' (Spec.grow g s)).
  { unfold Spec.grow. apply filter_In. split; [exact Hw' |].
    apply orb_true_iff. right. apply existsb_exists.
    exists v'. split; [exact Hv' |].
    rewrite (adjacent_oid _ v' w' v w Ev Ew). exact Hadj. }
  rewrite Hclosed in Hin. apply op_in_spec. rewrite <- Ew.
  apply in_map. exact Hin.
Qed.

Lemma grow_n_keeps g r :
  In r (g_nodes g) -> forall k, op_in r (Spec.grow_n k g [r]) = true.
Proof.
  intros Hr. induction k as [| k IH].
  - apply op_in_In. left. reflexivity.
  - rewrite grow_n_succ. apply op_in_In. apply grow_keeps; assumption.
Qed.

(** In a connected graph the component of a node is the whole graph. *)
Lemma component_connected g r :
  NoDup (map oid (g_nodes g)) ->
  (forall e, In e (g_edges g) ->
             In (oid (e_src e)) (map oid (g_nodes g)) /\
             In (oid (e_dst e)) (map oid (g_nodes g))) ->
  In r (g_nodes g) ->
  (forall v, In v (g_nodes g) -> linked g r v) ->
  Spec.component g r = g_nodes g.
Proof.
  intros Hnd Hwf Hr Hconn. unfold Spec.component.
  destruct (length (g_nodes g)) as [| n] eqn:Hlen.
  - apply length_zero_iff_nil in Hlen. rewrite Hlen in Hr. destruct Hr.
  - destruct (grow_n_progress g r Hr n) as [Hclosed | Hbig].
    + rewrite <- Hclosed. unfold Spec.grow.
      apply forallb_filter_id. apply forallb_forall. intros v Hv.
      pose proof (closed_holds_linked Hwf Hclosed
                    (grow_n_keeps g r Hr (S n)) (Hconn v Hv)) as Hin.
      rewrite Hin. reflexivity.
    + rewrite grow_n_succ in *. unfold Spec.grow in *.
      apply filter_full_length. rewrite Hlen. exact Hbig.
Qed.

Lemma components_seen g :
  forall todo seen,
    (forall v, In v todo -> op_in v seen = true) ->
    Spec.components g todo seen = [].
Proof.
  induction todo as [| v todo IH]; simpl; intros seen H.
  - reflexivity.
  - rewrite (H v (or_introl eq_refl)). apply IH.
    intros x Hx. apply H. right. exact Hx.
Qed.

Lemma components_connected g :
  NoDup (map oid (g_nodes g)) ->
  (forall e, In e (g_edges g) ->
             In (oid (e_src e)) (map oid (g_nodes g)) /\
             In (oid (e_dst e)) (map oid (g_nodes g))) ->
  weakly_connected g ->
  Spec.components g (g_nodes g) [] = [g_nodes g].
Proof.
  intros Hnd Hwf [Hne Hconn].
  assert (Hcomp : forall r, In r (g_nodes g) -> Spec.component g r = g_nodes g).
  { intros r Hr. apply component_connected; try assumption.
    intros v Hv. apply Hconn; assumption. }
  destruct (g_nodes g) as [| r rest] eqn:Hnodes; [contradiction |].
  cbn [Spec.components op_in existsb].
  rewrite Hcomp by (left; reflexivity). f_equal.
  apply components_seen. intros v Hv. apply op_in_In.
  apply in_or_app. left. right. exact Hv.
Qed.

(** ** contract on a single fragment without cut edges *)

Lemma map_nth_seq {A : Type} (d : A) :
  forall l, map (fun k => nth k l d) (seq 0 (length l)) = l.
Proof.
  induction l as [| x l IH]; simpl.
  - reflexivity.
  - f_equal. rewrite <- seq_shift, map_map. exact IH.
Qed.

Lemma digit_of_combine :
  forall xs ds,
    NoDup xs -> length ds = length xs ->
    map (Spec.digit_of (combine xs ds ++ [])) xs = ds.
Proof.
  induction xs as [| x xs IH]; intros ds Hnd Hlen.
  - destruct ds; [reflexivity | discriminate Hlen].
  - destruct ds as [| d ds]; [discriminate Hlen |].
    inversion Hnd as [| a b Hnotin Hnd']; subst a b.
    cbn [combine app map Spec.digit_of]. rewrite Nat.eqb_refl. f_equal.
    transitivity (map (Spec.digit_of (combine xs ds ++ [])) xs).
    + apply map_ext_in. intros y Hy.
      destruct (Nat.eqb x y) eqn:E; [| reflexivity].
      apply Nat.eqb_eq in E. subst y. contradiction.
    + apply IH; [exact Hnd' | simpl in Hlen; lia].
Qed.

Lemma NoDup_map_filter {A B : Type} (f : A -> B) (p : A -> bool) :
  forall l, NoDup (map f l) -> NoDup (map f (filter p l)).
Proof.
  induction l as [| x l IH]; simpl; intro H.
  - constructor.
  - inversion H as [| a b Hnotin Hnd]; subst a b.
    destruct (p x); simpl; [| apply IH; exact Hnd].
    constructor; [| apply IH; exact Hnd].
    intro Hin. apply Hnotin. apply in_map_iff in Hin.
    destruct Hin as (y & E & Hy). apply filter_In in Hy.
    rewrite <- E. apply in_map. tauto.
Qed.

Lemma contract_single a pairing f results :
  NoDup (Spec.axes f) ->
  length results = a ^ length (Spec.axes f) ->
  Spec.contract a pairing results [length results] (mkComm [f] []) = Ok results.
Proof.
  intros Hnd Hlen. unfold Spec.contract.
  cbn [cg_fragments cg_edges Spec.shapes_match list_sum fold_right].
  rewrite Nat.add_0_r, Nat.eqb_refl.
  rewrite <- Hlen at 1. rewrite Nat.eqb_refl.
  cbn [andb]. f_equal.
  assert (Hcut : Spec.cut_axes (mkComm [f] []) = []) by reflexivity.
  assert (Hopen : Spec.open_axes (mkComm [f] []) = Spec.axes f).
  { unfold Spec.open_axes. rewrite Hcut. cbn [cg_fragments flat_map existsb negb].
    rewrite app_nil_r. apply filter_true. }
  rewrite Hcut, Hopen.
  cbn [length Spec.configurations map Spec.split_by].
  rewrite firstn_all.
  transitivity (map (fun k => nth k results 0%Z) (seq 0 (length results)));
    [| apply map_nth_seq].
  pose proof (encode_configurations a (length (Spec.axes f)) 0) as E.
  rewrite Nat.mul_0_l in E. rewrite Hlen, <- E, map_map.
  apply map_ext_in. intros o Ho.
  destruct (configurations_digits _ _ _ Ho) as [Ho_len _].
  unfold Spec.total, Spec.term, Spec.product, Spec.entry.
  cbn [fold_right map cg_fragments cg_edges combine fst snd].
  rewrite (digit_of_combine o Hnd Ho_len). lia.
Qed.

(** ** A Program without markers *)

Lemma foldM_no_markers :
  forall ops st,
    filter isWireCut ops = [] -> foldM resolve_marker ops st = Ok st.
Proof.
  induction ops as [| op ops IH]; simpl; intros st H.
  - reflexivity.
  - unfold resolve_marker at 1. destruct (isWireCut op); [discriminate H |].
    simpl. apply IH. exact H.
Qed.

Lemma data_edges_all g :
  Forall (fun e => e_pair (e_data e) = None) (g_edges g) ->
  Spec.data_edges g = g_edges g.
Proof.
  intro H. unfold Spec.data_edges. apply forallb_filter_id.
  apply forallb_forall. intros e He. rewrite Forall_forall in H.
  unfold Spec.is_cut_edge. rewrite (H e He). reflexivity.
Qed.

Lemma subgraph_all g :
  (forall e, In e (g_edges g) ->
             In (oid (e_src e)) (map oid (g_nodes g)) /\
             In (oid (e_dst e)) (map oid (g_nodes g))) ->
  Spec.subgraph g (g_nodes g) = g.
Proof.
  intro H. unfold Spec.subgraph. destruct g as [ns es]. simpl in *. f_equal.
  apply forallb_filter_id. apply forallb_forall. intros e He.
  destruct (H e He) as [Hs Hd].
  apply andb_true_iff. split; apply op_in_spec; assumption.
Qed.

Lemma no_comm_edges frags :
  forall es, Forall (fun e => e_pair (e_data e) = None) es ->
             flat_map (Spec.comm_edge frags) es = [].
Proof.
  induction es as [| e es IH]; simpl; intro H.
  - reflexivity.
  - inversion H as [| a b He Hes]; subst a b.
    unfold Spec.comm_edge at 1. rewrite He. simpl. apply IH. exact Hes.
Qed.

(** C2, as amended.  For every valid input Program that contains no WireCut
    marker and whose graph is non-empty and weakly connected: the graph
    handed to [fragment_graph] is the graph of the Program,
    [fragment_graph] yields exactly one fragment (that graph) and a
    communication graph without edges, [graph_to_tape] on the fragment
    returns the input Program, whose order is a topological order of the
    fragment, and [contract] with that communication graph returns the
    results of the single fragment unchanged. *)
Theorem no_cut_identity a pairing find_and_place_cuts tape kwargs :
  valid_tape tape ->
  filter isWireCut (operations tape) = [] ->
  weakly_connected (graph_of tape) ->
  exists g,
    resolved_graph Spec.tape_to_graph find_and_place_cuts tape None kwargs = Ok g /\
    g_nodes g = operations tape /\
    Spec.fragment_graph g = ([g], mkComm [g] []) /\
    Spec.graph_to_tape g = Ok tape /\
    forward (Spec.data_edges g) (operations tape) = true /\
    forall results,
      length results = a ^ length (Spec.placeholders (operations tape)) ->
      Spec.contract a pairing results [length results] (mkComm [g] [])
      = Ok results.
Proof.
  intros Hvalid Hnocut Hconn.
  destruct (tape_to_graph_valid Hvalid) as (g & latest & Hg & Hb).
  destruct Hb as (Hnodes & Hedges & Hfwd & _). simpl in Hnodes, Hedges, Hfwd.
  destruct Hvalid as [Hnd _].
  unfold graph_of in Hconn. rewrite Hg in Hconn. simpl in Hconn.
  assert (Hwf : forall e, In e (g_edges g) ->
                  In (oid (e_src e)) (map oid (g_nodes g)) /\
                  In (oid (e_dst e)) (map oid (g_nodes g))).
  { intros e He. rewrite Forall_forall in Hedges. rewrite Hnodes.
    destruct (Hedges e He) as (_ & Hs & Hd). split; assumption. }
  assert (Hdata : Spec.data_edges g = g_edges g).
  { apply data_edges_all. eapply Forall_impl; [| exact Hedges].
    intros e (Hp & _). exact Hp. }
  exists g. split; [| split; [| split; [| split; [| split]]]].
  - unfold resolved_graph. rewrite Hg. simpl.
    rewrite (foldM_no_markers _ _ Hnocut). reflexivity.
  - exact Hnodes.
  - unfold Spec.fragment_graph.
    rewrite components_connected; [| rewrite Hnodes; exact Hnd | exact Hwf | exact Hconn].
    cbn [map]. rewrite (subgraph_all g Hwf).
    rewrite no_comm_edges; [reflexivity |].
    eapply Forall_impl; [| exact Hedges]. intros e (Hp & _). exact Hp.
  - unfold Spec.graph_to_tape. rewrite Hdata, Hnodes.
    rewrite linearize_forward; [destruct tape; reflexivity | exact Hnd | exact Hfwd | lia].
  - rewrite Hdata. exact Hfwd.
  - intros results Hlen. apply contract_single.
    + unfold Spec.axes, Spec.placeholders. apply NoDup_map_filter.
      rewrite Hnodes. exact Hnd.
    + unfold Spec.axes. rewrite length_map, Hnodes. exact Hlen.
Qed.

(** C2, as stated, fails: H(0); H(1) has no marker and two fragments. *)
Lemma apart_tape_two_fragments :
  valid_tape apart_tape /\
  filter isWireCut (operations apart_tape) = [] /\
  exists g,
    resolved_graph Spec.tape_to_graph no_search apart_tape None [] = Ok g /\
    length (fst (Spec.fragment_graph g)) = 2.
Proof.
  split; [| split].
  - split.
    + simpl. repeat constructor; simpl; intuition discriminate.
    + repeat constructor; simpl; intuition discriminate.
  - reflexivity.
  - eexists. split; vm_compute; reflexivity.
Qed.

Ltac find_link n :=
  first
    [ apply linked_here
    | lazymatch n with
      | S ?m =>
          first
            [ apply (@linked_step _ _ (mkOp 0 (Gate "RX") [0]) _);
              [| vm_compute; reflexivity]; find_link m
            | apply (@linked_step _ _ (mkOp 1 (Gate "CNOT") [0; 1]) _);
              [| vm_compute; reflexivity]; find_link m
            | apply (@linked_step _ _ (mkOp 2 (Gate "RY") [1]) _);
              [| vm_compute; reflexivity]; find_link m ]
      end ].

Lemma joined_tape_connected : weakly_connected (graph_of joined_tape).
Proof.
  split.
  - vm_compute. discriminate.
  - intros u v Hu Hv.
    change (g_nodes (graph_of joined_tape))
      with [mkOp 0 (Gate "RX") [0]; mkOp 1 (Gate "CNOT") [0; 1];
            mkOp 2 (Gate "RY") [1]] in Hu, Hv.
    simpl in Hu, Hv.
    destruct Hu as [<- | [<- | [<- | []]]];
      destruct Hv as [<- | [<- | [<- | []]]];
      find_link 2.
Qed.

Lemma joined_tape_valid : valid_tape joined_tape.
Proof.
  split.
  - simpl. repeat constructor; simpl; intuition discriminate.
  - repeat constructor; simpl; intuition discriminate.
Qed.

Lemma no_cut_identity_witness :
  exists g,
    resolved_graph Spec.tape_to_graph no_search joined_tape None [] = Ok g /\
    g_nodes g = operations joined_tape /\
    Spec.fragment_graph g = ([g], mkComm [g] []) /\
    Spec.graph_to_tape g = Ok joined_tape /\
    forward (Spec.data_edges g) (operations joined_tape) = true /\
    forall results,
      length results = 2 ^ length (Spec.placeholders (operations joined_tape)) ->
      Spec.contract 2 delta_pairing results [length results] (mkComm [g] [])
      = Ok results.
Proof.
  apply (@no_cut_identity 2 delta_pairing no_search joined_tape []).
  - exact joined_tape_valid.
  - reflexivity.
  - exact joined_tape_connected.
Defined.

(** ** graph_to_tape on a graph that has a topological order *)

Lemma forward_fewer_edges es es' :
  (forall e, In e es' -> In e es) ->
  forall l, forward es l = true -> forward es' l = true.
Proof.
  intros Hsub. induction l as [| v suf IH]; simpl; intro H.
  - reflexivity.
  - apply andb_true_iff in H. destruct H as [Hv Hsuf].
    apply andb_true_iff. split; [| apply IH; exact Hsuf].
    unfold Spec.ready in *. apply negb_true_iff in Hv. apply negb_true_iff.
    apply existsb_false. intros e He.
    exact (proj1 (existsb_false _ _) Hv e (Hsub e He)).
Qed.

(** Among operations that all occur in a topological order, one is ready. *)
Lemma exists_ready es :
  forall l, forward es l = true ->
  forall R, R <> [] ->
            (forall x, In x R -> In (oid x) (map oid l)) ->
            exists x, In x R /\ Spec.ready es R x = true.
Proof.
  induction l as [| v suf IH]; intros Hf R Hne Hsub.
  - destruct R as [| x R]; [contradiction |].
    destruct (Hsub x (or_introl eq_refl)).
  - simpl in Hf. apply andb_true_iff in Hf. destruct Hf as [Hv Hsuf].
    destruct (op_in v R) eqn:HvR.
    + apply op_in_spec in HvR. apply in_map_iff in HvR.
      destruct HvR as (x & Ex & Hx). exists x. split; [exact Hx |].
      unfold Spec.ready in *. apply negb_true_iff in Hv. apply negb_true_iff.
      apply existsb_false. intros e He.
      pose proof (proj1 (existsb_false _ _) Hv e He) as Hf. cbv beta in Hf.
      apply andb_false_iff in Hf. apply andb_false_iff.
      destruct Hf as [Hf | Hf].
      * left. unfold same_op in *. rewrite Ex. exact Hf.
      * right. apply op_in_false in Hf. apply op_in_false.
        intro Hin. apply Hf. apply in_map_iff in Hin.
        destruct Hin as (y & Ey & Hy). rewrite <- Ey. apply Hsub. exact Hy.
    + apply (IH Hsuf R Hne). intros x Hx.
      destruct (Hsub x Hx) as [E | Hin]; [| exact Hin].
      exfalso. apply op_in_false in HvR. apply HvR. rewrite E.
      apply in_map. exact Hx.
Qed.

Lemma find_exists {A : Type} (f : A -> bool) l :
  (exists x, In x l /\ f x = true) -> exists v, find f l = Some v.
Proof.
  intros (x & Hx & Hfx). destruct (find f l) as [v |] eqn:E.
  - exists v. reflexivity.
  - rewrite (find_none f l E x Hx) in Hfx. discriminate Hfx.
Qed.

Lemma filter_drops_one v :
  forall l, In v l ->
            length (filter (fun m => negb (same_op m v)) l) < length l.
Proof.
  induction l as [| x l IH]; simpl; intro H.
  - destruct H.
  - pose proof (filter_length_le (fun m => negb (same_op m v)) (fun _ => true) l
                  (fun _ _ _ => eq_refl)) as Hle.
    rewrite filter_true in Hle.
    destruct H as [-> | H].
    + unfold same_op at 1. rewrite Nat.eqb_refl. simpl. lia.
    + specialize (IH H). destruct (negb (same_op x v)); simpl; lia.
Qed.

(** The linearization does not get stuck when a topological order exists. *)
Lemma linearize_complete es l :
  forward es l = true ->
  forall fuel R,
    (forall x, In x R -> In (oid x) (map oid l)) ->
    length R <= fuel ->
    exists out, Spec.linearize fuel es R = Ok out.
Proof.
  intro Hf. induction fuel as [| fuel IH]; intros R Hsub Hlen.
  - destruct R; [exists []; reflexivity | simpl in Hlen; lia].
  - destruct R as [| x0 R0] eqn:HR; [exists []; reflexivity |].
    rewrite <- HR in *.
    assert (Hne : R <> []) by (rewrite HR; discriminate).
    destruct (find_exists (Spec.ready es R) R (exists_ready es l Hf Hne Hsub))
      as (v & Hfind).
    pose proof (find_some _ _ Hfind) as [Hv _].
    destruct (IH (filter (fun m => negb (same_op m v)) R)) as (out & Hout).
    + intros x Hx. apply filter_In in Hx. apply Hsub. tauto.
    + pose proof (filter_drops_one v R Hv). lia.
    + exists (v :: out). rewrite HR in *. cbn [Spec.linearize].
      rewrite Hfind. rewrite Hout. reflexivity.
Qed.

(** ** Graph updates *)

Lemma nodes_add_node g n x :
  In x (g_nodes (add_node g n)) -> In x (g_nodes g) \/ x = n.
Proof.
  unfold add_node. destruct (has_node g n); simpl; intro H.
  - left. exact H.
  - apply in_app_or in H. destruct H as [H | [<- | []]]; auto.
Qed.

Lemma nodes_add_node_mono g n x :
  In x (g_nodes g) -> In x (g_nodes (add_node g n)).
Proof.
  unfold add_node. destruct (has_node g n); simpl; intro H.
  - exact H.
  - apply in_or_app. left. exact H.
Qed.

Lemma edges_add_node g n : g_edges (add_node g n) = g_edges g.
Proof. unfold add_node. destruct (has_node g n); reflexivity. Qed.

Lemma nodes_add_edge g u v d x :
  In x (g_nodes (add_edge g u v d)) -> In x (g_nodes g) \/ x = u \/ x = v.
Proof.
  unfold add_edge. simpl. intro H.
  apply nodes_add_node in H. destruct H as [H | ->]; [| auto].
  apply nodes_add_node in H. destruct H as [H | ->]; auto.
Qed.

Lemma nodes_add_edge_mono g u v d x :
  In x (g_nodes g) -> In x (g_nodes (add_edge g u v d)).
Proof.
  unfold add_edge. simpl. intro H. do 2 apply nodes_add_node_mono. exact H.
Qed.

Lemma edges_add_edge g u v d :
  g_edges (add_edge g u v d)
  = g_edges g ++ [mkEdge u v (new_edge_key g u v) d].
Proof. unfold add_edge. simpl. rewrite !edges_add_node. reflexivity. Qed.

Lemma data_edges_add_edge g u v d :
  Spec.data_edges (add_edge g u v d)
  = Spec.data_edges g
    ++ (if Spec.is_cut_edge (mkEdge u v (new_edge_key g u v) d) then []
        else [mkEdge u v (new_edge_key g u v) d]).
Proof.
  unfold Spec.data_edges. rewrite edges_add_edge, filter_app. simpl.
  destruct (Spec.is_cut_edge _); reflexivity.
Qed.

Lemma data_edges_add_node g n :
  Spec.data_edges (add_node g n) = Spec.data_edges g.
Proof. unfold Spec.data_edges. rewrite edges_add_node. reflexivity. Qed.

Lemma forward_keeps old new op :
  (forall e, In e new -> e_src e = op) ->
  forall S, (forall x, In x S -> oid x <> oid op) ->
            forward old S = true -> forward (old ++ new) S = true.
Proof.
  intros Hnew. induction S as [| v S IH]; simpl; intros HS H.
  - reflexivity.
  - apply andb_true_iff in H. destruct H as [Hv HS'].
    apply andb_true_iff. split.
    + unfold Spec.ready in *. apply negb_true_iff in Hv.
      apply negb_true_iff. apply existsb_false.
      intros e He. apply in_app_or in He. destruct He as [He | He].
      * exact (proj1 (existsb_false _ _) Hv e He).
      * apply andb_false_iff. right. rewrite (Hnew e He).
        apply op_in_false. intro Hin. apply in_map_iff in Hin.
        destruct Hin as (x & Ex & Hx). apply (HS x Hx). exact Ex.
    + apply IH; [| exact HS'].
      intros x Hx. apply HS. right. exact Hx.
Qed.

Lemma forward_cons_source old new op l :
  (forall x, In x l -> oid x <> oid op) ->
  (forall e, In e old -> oid (e_dst e) <> oid op) ->
  (forall e, In e new -> e_src e = op /\ oid (e_dst e) <> oid op) ->
  forward old l = true ->
  forward (old ++ new) (op :: l) = true.
Proof.
  intros Hl Hold Hnew Hf. simpl. apply andb_true_iff. split.
  - unfold Spec.ready. apply negb_true_iff. apply existsb_false.
    intros e He. apply andb_false_iff. left. apply same_op_neq.
    apply in_app_or in He. destruct He as [He | He].
    + apply Hold. exact He.
    + apply (Hnew e He).
  - apply (@forward_keeps old new op); [| exact Hl | exact Hf].
    intros e He. apply (Hnew e He).
Qed.

Lemma forward_no_self_loop es :
  forall l e,
    forward es l = true -> In e es ->
    In (oid (e_dst e)) (map oid l) ->
    oid (e_src e) <> oid (e_dst e).
Proof.
  induction l as [| v suf IH]; simpl; intros e Hf He Hin E.
  - destruct Hin.
  - apply andb_true_iff in Hf. destruct Hf as [Hv Hsuf].
    destruct (Nat.eq_dec (oid v) (oid (e_dst e))) as [Ev | Nv].
    + unfold Spec.ready in Hv. apply negb_true_iff in Hv.
      pose proof (proj1 (existsb_false _ _) Hv e He) as Hfalse.
      cbv beta in Hfalse. unfold same_op at 1 in Hfalse.
      rewrite <- Ev, Nat.eqb_refl in Hfalse. simpl in Hfalse.
      unfold same_op in Hfalse. rewrite E, <- Ev, Nat.eqb_refl in Hfalse.
      discriminate Hfalse.
    + destruct Hin as [Hin | Hin]; [contradiction |].
      exact (IH e Hsuf He Hin E).
Qed.

(** ** The order through the steps of remove_wire_cut_node *)

Lemma ordered_allocated N0 l st k :
  ordered N0 l st -> In k (map oid l) -> k < next_oid st.
Proof.
  intros (_ & _ & _ & H4 & _) Hk. apply in_map_iff in Hk.
  destruct Hk as (x & <- & Hx). apply H4. exact Hx.
Qed.

Lemma ordered_data_edge N0 l st e :
  ordered N0 l st -> In e (Spec.data_edges (graph st)) ->
  oid (e_src e) < next_oid st /\ oid (e_dst e) < next_oid st.
Proof.
  intros Ho He. unfold Spec.data_edges in He. apply filter_In in He.
  destruct He as [He _].
  pose proof Ho as (H1 & H2 & H3 & H4 & H5 & H6).
  destruct (H2 e He) as [Hs Hd].
  split; eapply ordered_allocated; eassumption.
Qed.

(** a new node without edges goes to the end of the order *)
Lemma ordered_free_node N0 l st op :
  ordered N0 l st -> oid op = next_oid st ->
  ordered N0 (l ++ [op])
    (mkState (add_node (graph st) op) (S (next_oid st))).
Proof.
  intros Ho Hop. pose proof Ho as (H1 & H2 & H3 & H4 & H5 & H6).
  unfold ordered. cbn [graph next_oid].
  rewrite edges_add_node, data_edges_add_node, map_app.
  split; [| split; [| split; [| split; [| split]]]].
  - intros x Hx. apply in_or_app. apply nodes_add_node in Hx.
    destruct Hx as [Hx | ->]; [left; apply H1; exact Hx |].
    right. left. reflexivity.
  - intros e He. destruct (H2 e He).
    split; apply in_or_app; left; assumption.
  - rewrite <- (app_nil_r (Spec.data_edges (graph st))).
    apply forward_snoc; [| | intros e [] | exact H3].
    + intros x Hx. specialize (H4 x Hx). lia.
    + intros e He.
      assert (oid (e_src e) < next_oid st /\ oid (e_dst e) < next_oid st)
        by (eapply ordered_data_edge; eassumption).
      lia.
  - intros x Hx. apply in_app_or in Hx.
    destruct Hx as [Hx | [<- | []]]; [specialize (H4 x Hx) |]; lia.
  - exact H5.
  - lia.
Qed.

(** a new node fed by [p] goes to the end of the order *)
Lemma ordered_sink N0 l st p op :
  ordered N0 l st -> In (oid p) (map oid l) -> oid op = next_oid st ->
  ordered N0 (l ++ [op])
    (mkState (add_edge (add_node (graph st) op) p op no_data)
             (S (next_oid st))).
Proof.
  intros Ho Hp Hop. pose proof Ho as (H1 & H2 & H3 & H4 & H5 & H6).
  unfold ordered. cbn [graph next_oid].
  rewrite edges_add_edge, data_edges_add_edge, edges_add_node,
    data_edges_add_node, map_app.
  change (Spec.is_cut_edge
            (mkEdge p op (new_edge_key (add_node (graph st) op) p op) no_data))
    with false. cbv iota.
  split; [| split; [| split; [| split; [| split]]]].
  - intros x Hx. apply in_or_app. apply nodes_add_edge in Hx.
    destruct Hx as [Hx | [-> | ->]].
    + apply nodes_add_node in Hx.
      destruct Hx as [Hx | ->]; [left; apply H1; exact Hx |].
      right. left. reflexivity.
    + left. exact Hp.
    + right. left. reflexivity.
  - intros e He. apply in_app_or in He. destruct He as [He | [<- | []]].
    + destruct (H2 e He). split; apply in_or_app; left; assumption.
    + simpl. split; apply in_or_app; [left; exact Hp |].
      right. left. reflexivity.
  - apply forward_snoc; [| | | exact H3].
    + intros x Hx. specialize (H4 x Hx). lia.
    + intros e He.
      assert (oid (e_src e) < next_oid st /\ oid (e_dst e) < next_oid st)
        by (eapply ordered_data_edge; eassumption).
      lia.
    + intros e [<- | []]. simpl. split; [reflexivity |].
      assert (oid p < next_oid st) by (eapply ordered_allocated; eassumption).
      lia.
  - intros x Hx. apply in_app_or in Hx.
    destruct Hx as [Hx | [<- | []]]; [specialize (H4 x Hx) |]; lia.
  - intros e He Hcut. apply in_app_or in He.
    destruct He as [He | [<- | []]]; [exact (H5 e He Hcut) |].
    discriminate Hcut.
  - lia.
Qed.

(** a new node feeding [s] goes to the front of the order *)
Lemma ordered_source N0 l st s op :
  ordered N0 l st -> In (oid s) (map oid l) -> oid op = next_oid st ->
  ordered N0 (op :: l)
    (mkState (add_edge (add_node (graph st) op) op s no_data)
             (S (next_oid st))).
Proof.
  intros Ho Hs Hop. pose proof Ho as (H1 & H2 & H3 & H4 & H5 & H6).
  unfold ordered. cbn [graph next_oid].
  rewrite edges_add_edge, data_edges_add_edge, edges_add_node,
    data_edges_add_node.
  change (Spec.is_cut_edge
            (mkEdge op s (new_edge_key (add_node (graph st) op) op s) no_data))
    with false. cbv iota. cbn [map].
  split; [| split; [| split; [| split; [| split]]]].
  - intros x Hx. apply nodes_add_edge in Hx.
    destruct Hx as [Hx | [-> | ->]].
    + apply nodes_add_node in Hx.
      destruct Hx as [Hx | ->]; [right; apply H1; exact Hx |].
      left. reflexivity.
    + left. reflexivity.
    + right. exact Hs.
  - intros e He. apply in_app_or in He. destruct He as [He | [<- | []]].
    + destruct (H2 e He). split; right; assumption.
    + simpl. split; [left; reflexivity | right; exact Hs].
  - apply forward_cons_source; [| | | exact H3].
    + intros x Hx. specialize (H4 x Hx). lia.
    + intros e He.
      assert (oid (e_src e) < next_oid st /\ oid (e_dst e) < next_oid st)
        by (eapply ordered_data_edge; eassumption).
      lia.
    + intros e [<- | []]. simpl. split; [reflexivity |].
      assert (oid s < next_oid st) by (eapply ordered_allocated; eassumption).
      lia.
  - intros x [<- | Hx]; [| specialize (H4 x Hx)]; lia.
  - intros e He Hcut. apply in_app_or in He.
    destruct He as [He | [<- | []]]; [exact (H5 e He Hcut) |].
    discriminate Hcut.
  - lia.
Qed.

(** a cut edge between two placeholders of the order leaves it as it is *)
Lemma ordered_pair N0 l st m p :
  ordered N0 l st -> In (oid m) (map oid l) -> In (oid p) (map oid l) ->
  N0 <= oid m ->
  ordered N0 l (on_graph (fun g => add_edge g m p (pair_data m p)) st).
Proof.
  intros Ho Hm Hp HN. pose proof Ho as (H1 & H2 & H3 & H4 & H5 & H6).
  unfold ordered, on_graph. cbn [graph next_oid].
  rewrite edges_add_edge, data_edges_add_edge.
  change (Spec.is_cut_edge
            (mkEdge m p (new_edge_key (graph st) m p) (pair_data m p)))
    with true. cbv iota. rewrite app_nil_r.
  split; [| split; [| split; [| split; [| split]]]].
  - intros x Hx. apply nodes_add_edge in Hx.
    destruct Hx as [Hx | [-> | ->]]; [apply H1; exact Hx | exact Hm | exact Hp].
  - intros e He. apply in_app_or in He. destruct He as [He | [<- | []]].
    + exact (H2 e He).
    + simpl. split; assumption.
  - exact H3.
  - exact H4.
  - intros e He Hcut. apply in_app_or in He.
    destruct He as [He | [<- | []]]; [exact (H5 e He Hcut) |].
    simpl. exact HN.
  - exact H6.
Qed.

(** ** The loops of remove_wire_cut_node *)

Lemma fold_left_invariant {A B : Type} (P : A -> Prop) (f : A -> B -> A) :
  forall xs acc,
    (forall a x, In x xs -> P a -> P (f a x)) ->
    P acc -> P (fold_left f xs acc).
Proof.
  induction xs as [| x xs IH]; simpl; intros acc Hstep Hacc.
  - exact Hacc.
  - apply IH.
    + intros a y Hy. apply Hstep. right. exact Hy.
    + apply Hstep; [left; reflexivity | exact Hacc].
Qed.

Lemma dict_set_In {V : Type} (d : Dict V) w v w' v' :
  In (w', v') (dict_set d w v) -> (w' = w /\ v' = v) \/ In (w', v') d.
Proof.
  induction d as [| [k x] d IH]; simpl.
  - intros [E | []]. injection E as <- <-. left. split; reflexivity.
  - destruct (Nat.eqb k w) eqn:Ek; simpl.
    + apply Nat.eqb_eq in Ek. subst k.
      intros [E | H]; [injection E as <- <-; left; split; reflexivity |].
      right. right. exact H.
    + intros [E | H]; [right; left; exact E |].
      destruct (IH H) as [H' | H']; [left; exact H' | right; right; exact H'].
Qed.

Lemma dict_get_In {V : Type} (d : Dict V) w v :
  dict_get d w = Some v -> In (w, v) d.
Proof.
  induction d as [| [k x] d IH]; simpl; intro H.
  - discriminate H.
  - destruct (Nat.eqb k w) eqn:Ek.
    + apply Nat.eqb_eq in Ek. subst k. injection H as <-. left. reflexivity.
    + right. apply IH. exact H.
Qed.

Lemma In_dict_get {V : Type} (d : Dict V) w v :
  In (w, v) d -> dict_get d w <> None.
Proof.
  induction d as [| [k x] d IH]; simpl; intro H.
  - destruct H.
  - destruct (Nat.eqb k w) eqn:Ek; [discriminate |].
    destruct H as [E | H]; [| apply IH; exact H].
    injection E as -> _. rewrite Nat.eqb_refl in Ek. discriminate Ek.
Qed.

Lemma default_pair_inv N0 base keep acc wire :
  loop_inv N0 base keep acc -> loop_inv N0 base keep (default_pair acc wire).
Proof.
  intros (Hkeep & HK & l & Ho & Hbase & Hmw & Hpw).
  pose proof Ho as (_ & _ & _ & _ & _ & HN).
  set (meas := mkOp (next_oid (l_state acc)) MeasureNode [wire]).
  set (prep := mkOp (S (next_oid (l_state acc))) PrepareNode [wire]).
  pose proof (@ordered_free_node N0 l (l_state acc) meas Ho eq_refl) as Ho1.
  pose proof (@ordered_free_node N0 _ _ prep Ho1 eq_refl) as Ho2.
  cbn [graph next_oid] in Ho2.
  unfold loop_inv, default_pair, new_op, on_graph.
  cbn [l_state measure_wires prepare_wires graph next_oid].
  fold meas. fold prep.
  split; [| split].
  - intros k Hk. specialize (Hkeep k Hk). apply in_map_iff in Hkeep.
    destruct Hkeep as (x & <- & Hx). apply in_map.
    do 2 apply nodes_add_node_mono. exact Hx.
  - intros w. rewrite !dict_get_set.
    destruct (Nat.eqb wire w); [discriminate | apply HK].
  - exists ((l ++ [meas]) ++ [prep]). split; [exact Ho2 |].
    rewrite !map_app. split; [| split].
    + intros k Hk. apply in_or_app. left. apply in_or_app. left.
      apply Hbase. exact Hk.
    + intros w m Hin. apply dict_set_In in Hin.
      destruct Hin as [[_ ->] | Hin].
      * split; [| exact HN]. apply in_or_app. left. apply in_or_app.
        right. left. reflexivity.
      * destruct (Hmw w m Hin) as [H1 H2]. split; [| exact H2].
        apply in_or_app. left. apply in_or_app. left. exact H1.
    + intros w m Hin. apply dict_set_In in Hin.
      destruct Hin as [[_ ->] | Hin].
      * apply in_or_app. right. left. reflexivity.
      * apply in_or_app. left. apply in_or_app. left.
        exact (Hpw w m Hin).
Qed.

Lemma link_predecessor_inv N0 base keep node p acc wire :
  In (oid p) base ->
  (forall w, wire_in w (wires node) = true ->
             dict_get (prepare_wires acc) w <> None) ->
  loop_inv N0 base keep acc ->
  loop_inv N0 base keep (link_predecessor node p acc wire) /\
  prepare_wires (link_predecessor node p acc wire) = prepare_wires acc.
Proof.
  intros Hp Hcov Hinv. unfold link_predecessor.
  destruct (wire_in wire (wires node)) eqn:Hw; [| split; [exact Hinv | reflexivity]].
  split; [| reflexivity].
  destruct Hinv as (Hkeep & HK & l & Ho & Hbase & Hmw & Hpw).
  pose proof Ho as (_ & _ & _ & _ & _ & HN).
  set (op := mkOp (next_oid (l_state acc)) MeasureNode [wire]).
  pose proof (@ordered_sink N0 l (l_state acc) p op Ho (Hbase _ Hp) eq_refl)
    as Ho1.
  unfold loop_inv, new_op, on_graph.
  cbn [l_state measure_wires prepare_wires graph next_oid]. fold op.
  split; [| split].
  - intros k Hk. specialize (Hkeep k Hk). apply in_map_iff in Hkeep.
    destruct Hkeep as (x & <- & Hx). apply in_map.
    apply nodes_add_edge_mono, nodes_add_node_mono. exact Hx.
  - intros w. rewrite dict_get_set.
    destruct (Nat.eqb wire w) eqn:E; [| apply HK].
    intros _. apply Nat.eqb_eq in E. subst w. apply Hcov. exact Hw.
  - exists (l ++ [op]). split; [exact Ho1 |].
    rewrite map_app. split; [| split].
    + intros k Hk. apply in_or_app. left. apply Hbase. exact Hk.
    + intros w m Hin. apply dict_set_In in Hin.
      destruct Hin as [[_ ->] | Hin].
      * split; [| exact HN]. apply in_or_app. right. left. reflexivity.
      * destruct (Hmw w m Hin) as [H1 H2]. split; [| exact H2].
        apply in_or_app. left. exact H1.
    + intros w m Hin. apply in_or_app. left. exact (Hpw w m Hin).
Qed.

Lemma link_successor_inv N0 base keep node s acc wire :
  In (oid s) base ->
  loop_inv N0 base keep acc ->
  loop_inv N0 base keep (link_successor node s acc wire).
Proof.
  intros Hs Hinv. unfold link_successor.
  destruct (wire_in wire (wires node)) eqn:Hw; [| exact Hinv].
  destruct Hinv as (Hkeep & HK & l & Ho & Hbase & Hmw & Hpw).
  set (op := mkOp (next_oid (l_state acc)) PrepareNode [wire]).
  pose proof (@ordered_source N0 l (l_state acc) s op Ho (Hbase _ Hs) eq_refl)
    as Ho1.
  unfold loop_inv, new_op, on_graph.
  cbn [l_state measure_wires prepare_wires graph next_oid]. fold op.
  split; [| split].
  - intros k Hk. specialize (Hkeep k Hk). apply in_map_iff in Hkeep.
    destruct Hkeep as (x & <- & Hx). apply in_map.
    apply nodes_add_edge_mono, nodes_add_node_mono. exact Hx.
  - intros w Hmw'. rewrite dict_get_set.
    destruct (Nat.eqb wire w); [discriminate | apply HK; exact Hmw'].
  - exists (op :: l). split; [exact Ho1 |].
    cbn [map]. split; [| split].
    + intros k Hk. right. apply Hbase. exact Hk.
    + intros w m Hin. destruct (Hmw w m Hin) as [H1 H2].
      split; [right; exact H1 | exact H2].
    + intros w m Hin. apply dict_set_In in Hin.
      destruct Hin as [[_ ->] | Hin]; [left; reflexivity |].
      right. exact (Hpw w m Hin).
Qed.

Lemma wire_in_spec w ws : wire_in w ws = true <-> In w ws.
Proof.
  unfold wire_in. rewrite existsb_exists. split.
  - intros (x & Hx & E). apply Nat.eqb_eq in E. subst x. exact Hx.
  - intro H. exists w. split; [exact H | apply Nat.eqb_refl].
Qed.

Lemma default_pairs_cover :
  forall ws acc w,
    In w ws \/ dict_get (prepare_wires acc) w <> None ->
    dict_get (prepare_wires (fold_left default_pair ws acc)) w <> None.
Proof.
  induction ws as [| w0 ws IH]; simpl; intros acc w H.
  - destruct H as [[] | H]. exact H.
  - apply IH. destruct H as [[-> | H] | H].
    + right. unfold default_pair, new_op. cbn [prepare_wires].
      rewrite dict_get_set, Nat.eqb_refl. discriminate.
    + left. exact H.
    + right. unfold default_pair, new_op. cbn [prepare_wires].
      rewrite dict_get_set. destruct (Nat.eqb w0 w); [discriminate | exact H].
Qed.

Lemma distinct_ops_In :
  forall l seen x, In x (distinct_ops l seen) -> In x l.
Proof.
  induction l as [| y l IH]; simpl; intros seen x H.
  - exact H.
  - destruct (op_in y seen).
    + right. exact (IH _ _ H).
    + destruct H as [-> | H]; [left; reflexivity | right; exact (IH _ _ H)].
Qed.

Lemma link_pairs_ok N0 l pw :
  (forall w p, In (w, p) pw -> In (oid p) (map oid l)) ->
  forall entries st,
    ordered N0 l st ->
    (forall w m, In (w, m) entries ->
                 dict_get pw w <> None /\ In (oid m) (map oid l) /\ N0 <= oid m) ->
    exists st',
      foldM (link_pair pw) entries st = Ok st' /\
      ordered N0 l st' /\
      (forall x, In x (g_nodes (graph st)) -> In x (g_nodes (graph st'))).
Proof.
  intros Hpw. induction entries as [| [w m] entries IH]; intros st Ho Hent.
  - exists st. split; [reflexivity |]. split; [exact Ho | auto].
  - destruct (Hent w m (or_introl eq_refl)) as (Hget & Hm & HN).
    destruct (dict_get pw w) as [p |] eqn:Hp; [| contradiction].
    pose proof (@ordered_pair N0 l st m p Ho Hm
                  (Hpw w p (dict_get_In _ _ Hp)) HN) as Ho1.
    destruct (IH _ Ho1) as (st' & Hfold & Ho' & Hmono).
    + intros w' m' Hin. apply Hent. right. exact Hin.
    + exists st'. cbn [foldM link_pair]. rewrite Hp. cbn [bind].
      split; [exact Hfold |]. split; [exact Ho' |].
      intros x Hx. apply Hmono. unfold on_graph. cbn [graph].
      apply nodes_add_edge_mono. exact Hx.
Qed.

Lemma ordered_remove_node N0 l g next n :
  ordered N0 l (mkState g next) ->
  ordered N0 l
    (mkState (mkGraph (filter (fun m => negb (same_op m n)) (g_nodes g))
                      (filter (fun e => negb (incident n e)) (g_edges g)))
             next).
Proof.
  intros (H1 & H2 & H3 & H4 & H5 & H6). unfold ordered in *.
  cbn [graph next_oid g_nodes g_edges] in *.
  split; [| split; [| split; [| split; [| split]]]].
  - intros x Hx. apply filter_In in Hx. apply H1. tauto.
  - intros e He. apply filter_In in He. apply H2. tauto.
  - apply (@forward_fewer_edges (Spec.data_edges g)); [| exact H3].
    unfold Spec.data_edges. cbn [g_edges]. intros e He.
    apply filter_In in He. destruct He as [He Hd].
    apply filter_In in He. apply filter_In. tauto.
  - exact H4.
  - intros e He. apply filter_In in He. apply H5. tauto.
  - exact H6.
Qed.

(** On a node of an ordered graph that was not allocated by the resolver,
    [remove_wire_cut_node] returns; the graph stays ordered and keeps its
    other nodes. *)
Lemma remove_wire_cut_node_ok N0 l st node keep :
  ordered N0 l st ->
  In (oid node) (map oid (g_nodes (graph st))) ->
  oid node < N0 ->
  (forall k, In k keep ->
             In k (map oid (g_nodes (graph st))) /\ k <> oid node) ->
  exists st' l',
    remove_wire_cut_node node st = Ok st' /\
    ordered N0 l' st' /\
    (forall k, In k keep -> In k (map oid (g_nodes (graph st')))).
Proof.
  intros Ho Hnode Hlt Hkeep.
  pose proof Ho as (H1 & H2 & H3 & H4 & H5 & H6).
  assert (Hhas : has_node (graph st) node = true)
    by (apply op_in_spec; exact Hnode).
  assert (Hloop : has_self_loop (graph st) node = false).
  { unfold has_self_loop. apply existsb_false. intros e He.
    unfold between. destruct (same_op (e_src e) node) eqn:Es; [| reflexivity].
    destruct (same_op (e_dst e) node) eqn:Ed; [| reflexivity].
    exfalso. apply same_op_eq in Es. apply same_op_eq in Ed.
    destruct (Spec.is_cut_edge e) eqn:Ec.
    - specialize (H5 e He Ec). lia.
    - apply (@forward_no_self_loop (Spec.data_edges (graph st)) l e H3).
      + unfold Spec.data_edges. apply filter_In. rewrite Ec. tauto.
      + apply (H2 e He).
      + congruence. }
  unfold remove_wire_cut_node, predecessors, successors, remove_node.
  rewrite Hhas, Hloop. cbn [bind].
  set (g1 := mkGraph (filter (fun m => negb (same_op m node)) (g_nodes (graph st)))
                     (filter (fun e => negb (incident node e)) (g_edges (graph st)))).
  set (preds := distinct_ops
                  (map e_src (filter (fun e => same_op (e_dst e) node)
                                     (g_edges (graph st)))) []).
  set (succs := distinct_ops
                  (map e_dst (filter (fun e => same_op (e_src e) node)
                                     (g_edges (graph st)))) []).
  assert (Hpreds : forall p, In p preds -> In (oid p) (map oid l)).
  { intros p Hp. apply distinct_ops_In in Hp. apply in_map_iff in Hp.
    destruct Hp as (e & <- & He). apply filter_In in He. apply (H2 e). tauto. }
  assert (Hsuccs : forall s, In s succs -> In (oid s) (map oid l)).
  { intros s Hs. apply distinct_ops_In in Hs. apply in_map_iff in Hs.
    destruct Hs as (e & <- & He). apply filter_In in He. apply (H2 e). tauto. }
  set (acc0 := mkLoop (mkState g1 (next_oid st)) [] []).
  assert (Hinv0 : loop_inv N0 (map oid l) keep acc0).
  { unfold loop_inv, acc0. cbn [l_state measure_wires prepare_wires graph].
    split; [| split].
    - intros k Hk. destruct (Hkeep k Hk) as [Hin Hne].
      apply in_map_iff in Hin. destruct Hin as (x & <- & Hx).
      apply in_map. unfold g1. cbn [g_nodes]. apply filter_In.
      split; [exact Hx |]. apply negb_true_iff. apply same_op_neq. exact Hne.
    - intros w H. exact H.
    - exists l. split.
      + apply ordered_remove_node. destruct st. exact Ho.
      + split; [auto |]. split; intros w m [].
  }
  set (acc1 := fold_left default_pair (wires node) acc0).
  assert (Hinv1 : loop_inv N0 (map oid l) keep acc1).
  { apply fold_left_invariant; [| exact Hinv0].
    intros a w _. apply default_pair_inv. }
  assert (Hcov1 : forall w, wire_in w (wires node) = true ->
                            dict_get (prepare_wires acc1) w <> None).
  { intros w Hw. apply default_pairs_cover. left. apply wire_in_spec. exact Hw. }
  set (acc2 := fold_left
                 (fun acc p => fold_left (link_predecessor node p) (wires p) acc)
                 preds acc1).
  assert (Hinv2 : loop_inv N0 (map oid l) keep acc2 /\
                  prepare_wires acc2 = prepare_wires acc1).
  { apply (fold_left_invariant
             (fun a => loop_inv N0 (map oid l) keep a /\
                       prepare_wires a = prepare_wires acc1));
      [| split; [exact Hinv1 | reflexivity]].
    intros a p Hp Ha.
    apply (fold_left_invariant
             (fun a => loop_inv N0 (map oid l) keep a /\
                       prepare_wires a = prepare_wires acc1)); [| exact Ha].
    intros b w _ [Hb Eb].
    destruct (@link_predecessor_inv N0 (map oid l) keep node p b w
                (Hpreds p Hp)) as [Hb' Eb'].
    - rewrite Eb. exact Hcov1.
    - exact Hb.
    - split; [exact Hb' | rewrite Eb'; exact Eb]. }
  destruct Hinv2 as [Hinv2 _].
  set (acc3 := fold_left
                 (fun acc s => fold_left (link_successor node s) (wires s) acc)
                 succs acc2).
  assert (Hinv3 : loop_inv N0 (map oid l) keep acc3).
  { apply fold_left_invariant; [| exact Hinv2].
    intros a s Hs Ha. apply fold_left_invariant; [| exact Ha].
    intros b w _ Hb. apply link_successor_inv; [apply Hsuccs; exact Hs | exact Hb]. }
  destruct Hinv3 as (Hkeep3 & HK3 & l3 & Ho3 & _ & Hmw3 & Hpw3).
  destruct (@link_pairs_ok N0 l3 (prepare_wires acc3) Hpw3
              (measure_wires acc3) (l_state acc3) Ho3)
    as (st' & Hfold & Ho' & Hmono).
  - intros w m Hin. split; [| exact (Hmw3 w m Hin)].
    apply HK3. exact (In_dict_get _ _ _ Hin).
  - exists st', l3. split; [exact Hfold |]. split; [exact Ho' |].
    intros k Hk. specialize (Hkeep3 k Hk). apply in_map_iff in Hkeep3.
    destruct Hkeep3 as (x & <- & Hx). apply in_map. apply Hmono. exact Hx.
Qed.

(** ** The whole pipeline on a valid Program *)

Lemma resolve_markers_ok N0 :
  forall ops st l,
    ordered N0 l st ->
    (forall op, In op ops ->
                In (oid op) (map oid (g_nodes (graph st))) /\ oid op < N0) ->
    NoDup (map oid ops) ->
    exists st' l', foldM resolve_marker ops st = Ok st' /\ ordered N0 l' st'.
Proof.
  induction ops as [| op ops IH]; intros st l Ho Hops Hnd.
  - exists st, l. split; [reflexivity | exact Ho].
  - inversion Hnd as [| a b Hnotin Hnd']; subst a b.
    cbn [foldM]. unfold resolve_marker at 1.
    destruct (isWireCut op).
    + destruct (Hops op (or_introl eq_refl)) as [Hin Hlt].
      destruct (@remove_wire_cut_node_ok N0 l st op (map oid ops) Ho Hin Hlt)
        as (st1 & l1 & Hrm & Ho1 & Hkeep).
      * intros k Hk. split.
        -- apply in_map_iff in Hk. destruct Hk as (x & <- & Hx).
           apply (Hops x). right. exact Hx.
        -- intros ->. contradiction.
      * rewrite Hrm. cbn [bind]. apply (IH st1 l1 Ho1); [| exact Hnd'].
        intros x Hx. split.
        -- apply Hkeep. apply in_map. exact Hx.
        -- apply (Hops x). right. exact Hx.
    + cbn [bind]. apply (IH st l Ho); [| exact Hnd'].
      intros x Hx. apply Hops. right. exact Hx.
Qed.

Lemma oid_below_fresh tape x :
  In x (operations tape) -> oid x < fresh_oid tape.
Proof.
  intro H. unfold fresh_oid.
  assert (Hle : list_max (map oid (operations tape))
                <= list_max (map oid (operations tape))) by lia.
  apply list_max_le in Hle. rewrite Forall_forall in Hle.
  specialize (Hle (oid x) (in_map oid _ _ H)). lia.
Qed.

Lemma built_ordered tape g latest :
  built (operations tape) (g, latest) ->
  ordered (fresh_oid tape) (operations tape) (mkState g (fresh_oid tape)).
Proof.
  intros (Hn & He & Hf & _). cbn [fst snd] in *.
  assert (Hdata : Spec.data_edges g = g_edges g).
  { apply data_edges_all. eapply Forall_impl; [| exact He].
    intros e (Hp & _). exact Hp. }
  rewrite Forall_forall in He.
  unfold ordered. cbn [graph next_oid].
  split; [| split; [| split; [| split; [| split]]]].
  - intros x Hx. rewrite Hn in Hx. apply in_map. exact Hx.
  - intros e Hin. destruct (He e Hin) as (_ & Hs & Hd). split; assumption.
  - rewrite Hdata. exact Hf.
  - intros x Hx. apply oid_below_fresh. exact Hx.
  - intros e Hin Hcut. destruct (He e Hin) as (Hp & _).
    unfold Spec.is_cut_edge in Hcut. rewrite Hp in Hcut. discriminate Hcut.
  - lia.
Qed.

(** On a valid Program and without a method the cut markers are resolved
    without an exception and the resolved graph has a topological order. *)
Lemma resolved_graph_valid find_and_place_cuts tape kwargs :
  valid_tape tape ->
  exists g l,
    resolved_graph Spec.tape_to_graph find_and_place_cuts tape None kwargs = Ok g /\
    (forall x, In x (g_nodes g) -> In (oid x) (map oid l)) /\
    forward (Spec.data_edges g) l = true.
Proof.
  intro Hvalid.
  destruct (tape_to_graph_valid Hvalid) as (g & latest & Hg & Hb).
  pose proof (built_ordered tape Hb) as Ho.
  destruct Hb as (Hn & _). cbn [fst] in Hn.
  destruct Hvalid as [Hnd _].
  destruct (@resolve_markers_ok (fresh_oid tape) (operations tape) _ _ Ho)
    as (st' & l' & Hfold & Ho').
  - intros op Hop. cbn [graph]. rewrite Hn.
    split; [apply in_map; exact Hop | apply oid_below_fresh; exact Hop].
  - exact Hnd.
  - exists (graph st'), l'. unfold resolved_graph.
    rewrite Hg. cbn [bind]. rewrite Hfold. cbn [bind].
    destruct Ho' as (H1 & _ & H3 & _). repeat split; assumption.
Qed.

Lemma grow_sub g s x : In x (Spec.grow g s) -> In x (g_nodes g).
Proof. unfold Spec.grow. intro H. apply filter_In in H. tauto. Qed.

Lemma components_sub g :
  forall todo seen,
    (forall v, In v todo -> In v (g_nodes g)) ->
    forall c x, In c (Spec.components g todo seen) -> In x c -> In x (g_nodes g).
Proof.
  induction todo as [| v todo IH]; simpl; intros seen Hsub c x Hc Hx.
  - destruct Hc.
  - assert (Hsub' : forall u, In u todo -> In u (g_nodes g))
      by (intros u Hu; apply Hsub; right; exact Hu).
    destruct (op_in v seen); [exact (IH _ Hsub' c x Hc Hx) |].
    destruct Hc as [<- | Hc]; [| exact (IH _ Hsub' c x Hc Hx)].
    unfold Spec.component in Hx.
    destruct (length (g_nodes g)) as [| n] eqn:Hlen.
    + apply length_zero_iff_nil in Hlen.
      specialize (Hsub v (or_introl eq_refl)). rewrite Hlen in Hsub.
      destruct Hsub.
    + rewrite grow_n_succ in Hx. exact (grow_sub _ _ _ Hx).
Qed.

Lemma mapM_total {A B : Type} (f : A -> result B) :
  forall xs, (forall x, In x xs -> exists y, f x = Ok y) ->
             exists ys, mapM f xs = Ok ys.
Proof.
  induction xs as [| x xs IH]; simpl; intro H.
  - exists []. reflexivity.
  - destruct (H x (or_introl eq_refl)) as (y & Hy).
    destruct IH as (ys & Hys); [intros z Hz; apply H; right; exact Hz |].
    exists (y :: ys). rewrite Hy. simpl. rewrite Hys. reflexivity.
Qed.

(** The stages as the spec describes them return on every valid Program:
    without a method, [cut_circuit] returns. *)
Theorem cut_circuit_returns_on_valid a find_and_place_cuts tape kwargs :
  valid_tape tape ->
  exists tapes post,
    cut_circuit_with a find_and_place_cuts tape None kwargs = Ok (tapes, post).
Proof.
  intro Hvalid.
  destruct (resolved_graph_valid find_and_place_cuts kwargs Hvalid)
    as (g & l & Hg & Hnodes & Hfwd).
  destruct (Spec.fragment_graph g) as [fragments cg] eqn:Hfrag.
  assert (Hft : exists fts, mapM Spec.graph_to_tape fragments = Ok fts).
  { apply mapM_total. intros f Hf.
    unfold Spec.fragment_graph in Hfrag. injection Hfrag as <- _.
    apply in_map_iff in Hf. destruct Hf as (c & <- & Hc).
    assert (Hc' : forall x, In x c -> In x (g_nodes g)).
    { intros x Hx.
      apply (@components_sub g (g_nodes g) [] (fun v H => H) c x Hc Hx). }
    unfold Spec.graph_to_tape.
    destruct (@linearize_complete
                (Spec.data_edges (Spec.subgraph g c)) l) with
      (fuel := length (g_nodes (Spec.subgraph g c)))
      (R := g_nodes (Spec.subgraph g c)) as (out & Hout).
    - apply (@forward_fewer_edges (Spec.data_edges g)); [| exact Hfwd].
      unfold Spec.data_edges, Spec.subgraph. cbn [g_edges].
      intros e He. apply filter_In in He. destruct He as [He Hd].
      apply filter_In in He. apply filter_In. tauto.
    - intros x Hx. apply Hnodes. apply Hc'. exact Hx.
    - lia.
    - exists (mkTape out). rewrite Hout. reflexivity. }
  destruct Hft as (fts & Hft).
  assert (Hex : mapM (fun t => Ok (Spec.expand_fragment_tapes a t)) fts
                = Ok (map (Spec.expand_fragment_tapes a) fts)).
  { clear Hft. induction fts as [| t fts IH]; simpl; [reflexivity |].
    rewrite IH. reflexivity. }
  exists (concat (map (Spec.expand_fragment_tapes a) fts)).
  exists (mkPartial
            (map (@length QuantumTape) (map (Spec.expand_fragment_tapes a) fts))
            cg).
  unfold cut_circuit_with.
  apply (@cut_circuit_returns Spec.tape_to_graph find_and_place_cuts
           (fun g => Ok (Spec.fragment_graph g)) Spec.graph_to_tape
           (fun t => Ok (Spec.expand_fragment_tapes a t))
           tape None kwargs g fragments cg fts
           (map (Spec.expand_fragment_tapes a) fts) Hg).
  - rewrite Hfrag. reflexivity.
  - exact Hft.
  - exact Hex.
Qed.

(** * Further properties of remove_wire_cut_node and cut_circuit *)

(** ** The dictionaries of remove_wire_cut_node *)

Lemma link_pairs_return pw :
  forall entries st,
    (forall w m, In (w, m) entries -> dict_get pw w <> None) ->
    exists st', foldM (link_pair pw) entries st = Ok st'.
Proof.
  induction entries as [| [w m] entries IH]; intros st H.
  - exists st. reflexivity.
  - cbn [foldM link_pair].
    destruct (dict_get pw w) as [p |] eqn:Hp.
    + cbn [bind]. apply IH. intros w' m' Hin. apply (H w' m'). right. exact Hin.
    + exfalso. apply (H w m (or_introl eq_refl)). exact Hp.
Qed.

Lemma default_pair_keys acc wire w :
  (dict_get (measure_wires acc) w <> None ->
   dict_get (prepare_wires acc) w <> None) ->
  dict_get (measure_wires (default_pair acc wire)) w <> None ->
  dict_get (prepare_wires (default_pair acc wire)) w <> None.
Proof.
  unfold default_pair, new_op. cbn [measure_wires prepare_wires].
  rewrite !dict_get_set. destruct (Nat.eqb wire w); [discriminate | auto].
Qed.

Lemma link_predecessor_keys node p acc wire :
  (forall w, wire_in w (wires node) = true ->
             dict_get (prepare_wires acc) w <> None) ->
  (forall w, dict_get (measure_wires acc) w <> None ->
             dict_get (prepare_wires acc) w <> None) ->
  prepare_wires (link_predecessor node p acc wire) = prepare_wires acc /\
  forall w, dict_get (measure_wires (link_predecessor node p acc wire)) w <> None ->
            dict_get (prepare_wires (link_predecessor node p acc wire)) w <> None.
Proof.
  intros Hcov HK. unfold link_predecessor.
  destruct (wire_in wire (wires node)) eqn:Hw; [| split; [reflexivity | exact HK]].
  unfold new_op. cbn [measure_wires prepare_wires]. split; [reflexivity |].
  intros w. rewrite dict_get_set.
  destruct (Nat.eqb wire w) eqn:E; [| apply HK].
  apply Nat.eqb_eq in E. subst w. intros _. apply Hcov. exact Hw.
Qed.

Lemma link_successor_keys node s acc wire :
  (forall w, dict_get (measure_wires acc) w <> None ->
             dict_get (prepare_wires acc) w <> None) ->
  forall w, dict_get (measure_wires (link_successor node s acc wire)) w <> None ->
            dict_get (prepare_wires (link_successor node s acc wire)) w <> None.
Proof.
  intros HK. unfold link_successor.
  destruct (wire_in wire (wires node)) eqn:Hw; [| exact HK].
  unfold new_op. cbn [measure_wires prepare_wires].
  intros w Hm. rewrite dict_get_set.
  destruct (Nat.eqb wire w); [discriminate | apply HK; exact Hm].
Qed.

Lemma resolve_loops_keys node preds succs acc0 :
  (forall w, dict_get (measure_wires acc0) w <> None ->
             dict_get (prepare_wires acc0) w <> None) ->
  let acc1 := fold_left default_pair (wires node) acc0 in
  let acc2 := fold_left
                (fun acc p => fold_left (link_predecessor node p) (wires p) acc)
                preds acc1 in
  let acc3 := fold_left
                (fun acc s => fold_left (link_successor node s) (wires s) acc)
                succs acc2 in
  forall w, dict_get (measure_wires acc3) w <> None ->
            dict_get (prepare_wires acc3) w <> None.
Proof.
  intros H0 acc1 acc2 acc3.
  assert (H1 : forall w, dict_get (measure_wires acc1) w <> None ->
                         dict_get (prepare_wires acc1) w <> None).
  { unfold acc1.
    apply (fold_left_invariant
             (fun a => forall w, dict_get (measure_wires a) w <> None ->
                                 dict_get (prepare_wires a) w <> None));
      [| exact H0].
    intros a x _ Ha w. apply default_pair_keys. apply Ha. }
  assert (Hcov : forall w, wire_in w (wires node) = true ->
                           dict_get (prepare_wires acc1) w <> None).
  { intros w Hw. apply default_pairs_cover. left. apply wire_in_spec. exact Hw. }
  assert (H2 : prepare_wires acc2 = prepare_wires acc1 /\
               forall w, dict_get (measure_wires acc2) w <> None ->
                         dict_get (prepare_wires acc2) w <> None).
  { unfold acc2.
    apply (fold_left_invariant
             (fun a => prepare_wires a = prepare_wires acc1 /\
                       forall w, dict_get (measure_wires a) w <> None ->
                                 dict_get (prepare_wires a) w <> None));
      [| split; [reflexivity | exact H1]].
    intros a p _ Ha.
    apply (fold_left_invariant
             (fun a => prepare_wires a = prepare_wires acc1 /\
                       forall w, dict_get (measure_wires a) w <> None ->
                                 dict_get (prepare_wires a) w <> None));
      [| exact Ha].
    intros b x _ [Eb Hb].
    destruct (@link_predecessor_keys node p b x) as [E' H'].
    - rewrite Eb. exact Hcov.
    - exact Hb.
    - split; [rewrite E'; exact Eb | exact H']. }
  destruct H2 as [_ H2]. unfold acc3.
  apply (fold_left_invariant
           (fun a => forall w, dict_get (measure_wires a) w <> None ->
                               dict_get (prepare_wires a) w <> None));
    [| exact H2].
  intros a s _ Ha.
  apply (fold_left_invariant
           (fun a => forall w, dict_get (measure_wires a) w <> None ->
                               dict_get (prepare_wires a) w <> None));
    [| exact Ha].
  intros b x _ Hb. apply link_successor_keys. exact Hb.
Qed.

(** X1.  The outcomes of [remove_wire_cut_node].  A node that is not in the
    graph gives [NetworkXError]; a node of the graph without an edge to
    itself is always resolved; and the lookup [prepare_wires[wire]] of the
    last loop never fails, whatever the graph. *)
Theorem remove_wire_cut_node_outcome node st :
  (has_node (graph st) node = false ->
   remove_wire_cut_node node st = Raise NetworkXError) /\
  (has_node (graph st) node = true ->
   has_self_loop (graph st) node = false ->
   exists st', remove_wire_cut_node node st = Ok st') /\
  remove_wire_cut_node node st <> Raise KeyError.
Proof.
  assert (Hret : has_node (graph st) node = true ->
                 has_self_loop (graph st) node = false ->
                 exists st', remove_wire_cut_node node st = Ok st').
  { intros Hhas Hloop.
    unfold remove_wire_cut_node, predecessors, successors, remove_node.
    rewrite Hhas, Hloop. cbn [bind].
    apply link_pairs_return. intros w m Hin.
    apply resolve_loops_keys.
    - intros w' H. exact H.
    - exact (In_dict_get _ _ _ Hin). }
  split; [| split].
  - intro Hhas. unfold remove_wire_cut_node, predecessors. rewrite Hhas.
    reflexivity.
  - exact Hret.
  - destruct (has_node (graph st) node) eqn:Hhas.
    + destruct (has_self_loop (graph st) node) eqn:Hloop.
      * unfold remove_wire_cut_node, predecessors, successors, remove_node.
        rewrite Hhas, Hloop. cbn [bind]. discriminate.
      * destruct (Hret eq_refl eq_refl) as (st' & ->). discriminate.
    + unfold remove_wire_cut_node, predecessors. rewrite Hhas. discriminate.
Qed.

(** ** The graph through the loops of remove_wire_cut_node *)

Section Resolution.

Variable node : Op.
Variable base : list Op.
Variable bedges : list Edge.
Variable n0 : nat.
Variables preds succs : list Op.

Hypothesis base_allocated : forall x, In x base -> oid x < n0.
Hypothesis preds_in_base : forall p, In p preds -> op_in p base = true.
Hypothesis succs_in_base : forall s, In s succs -> op_in s base = true.

Local Abbreviation gshape' := (gshape node base bedges n0 preds succs).

Lemma gshape_fresh news added st op :
  gshape' news added st -> oid op = next_oid st ->
  has_node (graph st) op = false.
Proof.
  intros (Hn & _ & Hnext & Hseq & _) Hop. unfold has_node.
  rewrite Hn. apply op_in_false. rewrite map_app, in_app_iff.
  intros [Hin | Hin].
  - apply in_map_iff in Hin. destruct Hin as (x & E & Hx).
    specialize (base_allocated x Hx). lia.
  - rewrite Hseq in Hin. apply in_seq in Hin. lia.
Qed.

Lemma link_edge_more news news' e :
  (forall x, In x news -> In x news') ->
  link_edge preds succs news e -> link_edge preds succs news' e.
Proof.
  intros Hsub (Hd & [(Hs & Hin & Hk) | (Hs & Hin & Hk)]);
    (split; [exact Hd |]); [left | right]; auto.
Qed.

Lemma gshape_add_node news added st op :
  gshape' news added st -> oid op = next_oid st ->
  marker_placeholder node op ->
  gshape' (news ++ [op]) added
    (mkState (add_node (graph st) op) (S (next_oid st))).
Proof.
  intros Hg Hop Hmp. pose proof (@gshape_fresh news added st op Hg Hop) as Hfresh.
  destruct Hg as (Hn & He & Hnext & Hseq & Hnews & Hadded).
  unfold gshape. cbn [graph next_oid].
  rewrite (add_node_absent _ _ Hfresh). cbn [g_nodes g_edges].
  rewrite length_app, map_app, seq_app. cbn [length map seq].
  split; [| split; [| split; [| split; [| split]]]].
  - rewrite Hn, app_assoc. reflexivity.
  - exact He.
  - lia.
  - rewrite Hseq. f_equal. f_equal. lia.
  - apply Forall_app. split; [exact Hnews |]. constructor; [exact Hmp | constructor].
  - eapply Forall_impl; [| exact Hadded].
    intros e. apply link_edge_more. intros x Hx. apply in_or_app. left. exact Hx.
Qed.

Lemma gshape_has_base news added st p :
  gshape' news added st -> op_in p base = true -> has_node (graph st) p = true.
Proof.
  intros (Hn & _) Hp. unfold has_node. rewrite Hn. unfold op_in in *.
  rewrite existsb_app, Hp. reflexivity.
Qed.

Lemma gshape_has_new news added st op :
  gshape' news added st -> In op news -> has_node (graph st) op = true.
Proof.
  intros (Hn & _) Hop. unfold has_node. rewrite Hn. apply op_in_In.
  apply in_or_app. right. exact Hop.
Qed.

Lemma gshape_link_predecessor news added st p op :
  gshape' news added st -> In p preds -> In op news ->
  isMeasureNode op = true ->
  gshape' news
    (added ++ [mkEdge p op (new_edge_key (graph st) p op) no_data])
    (mkState (add_edge (graph st) p op no_data) (next_oid st)).
Proof.
  intros Hg Hp Hop Hk.
  pose proof (@gshape_has_base news added st p Hg (preds_in_base p Hp)) as Hhp.
  pose proof (@gshape_has_new news added st op Hg Hop) as Hho.
  destruct Hg as (Hn & He & Hnext & Hseq & Hnews & Hadded).
  unfold gshape. cbn [graph next_oid].
  rewrite (add_edge_present _ _ _ _ Hhp Hho). cbn [g_nodes g_edges].
  split; [exact Hn |]. split; [rewrite He, app_assoc; reflexivity |].
  split; [exact Hnext |]. split; [exact Hseq |]. split; [exact Hnews |].
  apply Forall_app. split; [exact Hadded |].
  constructor; [| constructor]. split; [reflexivity |]. left. auto.
Qed.

Lemma gshape_link_successor news added st s op :
  gshape' news added st -> In s succs -> In op news ->
  isPrepareNode op = true ->
  gshape' news
    (added ++ [mkEdge op s (new_edge_key (graph st) op s) no_data])
    (mkState (add_edge (graph st) op s no_data) (next_oid st)).
Proof.
  intros Hg Hs Hop Hk.
  pose proof (@gshape_has_base news added st s Hg (succs_in_base s Hs)) as Hhs.
  pose proof (@gshape_has_new news added st op Hg Hop) as Hho.
  destruct Hg as (Hn & He & Hnext & Hseq & Hnews & Hadded).
  unfold gshape. cbn [graph next_oid].
  rewrite (add_edge_present _ _ _ _ Hho Hhs). cbn [g_nodes g_edges].
  split; [exact Hn |]. split; [rewrite He, app_assoc; reflexivity |].
  split; [exact Hnext |]. split; [exact Hseq |]. split; [exact Hnews |].
  apply Forall_app. split; [exact Hadded |].
  constructor; [| constructor]. split; [reflexivity |]. right. auto.
Qed.

Lemma dshape_more news news' acc :
  (forall x, In x news -> In x news') -> dshape news acc -> dshape news' acc.
Proof.
  intros Hsub [Hm Hp]. split; intros w m Hin.
  - destruct (Hm w m Hin) as (H1 & H2 & H3). auto.
  - destruct (Hp w m Hin) as (H1 & H2 & H3). auto.
Qed.

(** lines 85-93 *)
Lemma default_pair_shape news added acc w :
  In w (wires node) ->
  gshape' news added (l_state acc) -> dshape news acc ->
  exists news',
    gshape' (news ++ news') added (l_state (default_pair acc w)) /\
    dshape (news ++ news') (default_pair acc w) /\
    length news' = 2.
Proof.
  intros Hw Hg [Hm Hp].
  set (meas := mkOp (next_oid (l_state acc)) MeasureNode [w]).
  set (prep := mkOp (S (next_oid (l_state acc))) PrepareNode [w]).
  assert (Hg1 := @gshape_add_node news added (l_state acc) meas Hg eq_refl).
  assert (Hg2 := fun H => @gshape_add_node _ added _ prep (Hg1 H) eq_refl).
  exists [meas; prep].
  unfold default_pair, new_op, on_graph.
  cbn [l_state measure_wires prepare_wires graph next_oid]. fold meas prep.
  split; [| split; [| reflexivity]].
  - replace (news ++ [meas; prep]) with ((news ++ [meas]) ++ [prep])
      by (rewrite <- app_assoc; reflexivity).
    apply Hg2.
    + split; [reflexivity |]. exists w. split; [reflexivity | exact Hw].
    + split; [reflexivity |]. exists w. split; [reflexivity | exact Hw].
  - split; intros w' m Hin; apply dict_set_In in Hin.
    + destruct Hin as [[-> ->] | Hin].
      * split; [| split; reflexivity]. apply in_or_app. right. left. reflexivity.
      * destruct (Hm w' m Hin) as (H1 & H2 & H3).
        split; [apply in_or_app; left; exact H1 | auto].
    + destruct Hin as [[-> ->] | Hin].
      * split; [| split; reflexivity].
        apply in_or_app. right. right. left. reflexivity.
      * destruct (Hp w' m Hin) as (H1 & H2 & H3).
        split; [apply in_or_app; left; exact H1 | auto].
Qed.

Lemma default_pairs_shape added :
  forall ws news acc,
    (forall w, In w ws -> In w (wires node)) ->
    gshape' news added (l_state acc) -> dshape news acc ->
    exists news',
      gshape' (news ++ news') added (l_state (fold_left default_pair ws acc)) /\
      dshape (news ++ news') (fold_left default_pair ws acc) /\
      length news' = 2 * length ws.
Proof.
  induction ws as [| w ws IH]; intros news acc Hws Hg Hd.
  - exists []. rewrite app_nil_r. auto.
  - destruct (@default_pair_shape news added acc w
                (Hws w (or_introl eq_refl)) Hg Hd) as (n1 & Hg1 & Hd1 & Hl1).
    destruct (IH (news ++ n1) (default_pair acc w)
                (fun x Hx => Hws x (or_intror Hx)) Hg1 Hd1)
      as (n2 & Hg2 & Hd2 & Hl2).
    exists (n1 ++ n2). rewrite app_assoc. cbn [fold_left].
    split; [exact Hg2 |]. split; [exact Hd2 |].
    rewrite length_app. cbn [length]. lia.
Qed.

(** lines 96-101 *)
Lemma link_predecessor_shape p news added acc w :
  In p preds ->
  gshape' news added (l_state acc) -> dshape news acc ->
  exists news' added',
    gshape' (news ++ news') (added ++ added')
            (l_state (link_predecessor node p acc w)) /\
    dshape (news ++ news') (link_predecessor node p acc w) /\
    length news' = (if wire_in w (wires node) then 1 else 0) /\
    prepare_wires (link_predecessor node p acc w) = prepare_wires acc.
Proof.
  intros Hp Hg Hd. unfold link_predecessor.
  destruct (wire_in w (wires node)) eqn:Hw.
  - set (op := mkOp (next_oid (l_state acc)) MeasureNode [w]).
    assert (Hmp : marker_placeholder node op).
    { split; [reflexivity |]. exists w. split; [reflexivity |].
      apply wire_in_spec. exact Hw. }
    pose proof (@gshape_add_node news added (l_state acc) op Hg eq_refl Hmp)
      as Hg1.
    assert (Hin : In op (news ++ [op]))
      by (apply in_or_app; right; left; reflexivity).
    pose proof (@gshape_link_predecessor _ _ _ p op Hg1 Hp Hin eq_refl) as Hg2.
    cbn [graph next_oid] in Hg2.
    exists [op].
    exists [mkEdge p op (new_edge_key (add_node (graph (l_state acc)) op) p op)
                   no_data].
    unfold new_op, on_graph.
    cbn [l_state measure_wires prepare_wires graph next_oid]. fold op.
    split; [exact Hg2 |]. split; [| split; reflexivity].
    destruct Hd as [Hm Hpw]. split; intros w' m Hmem.
    + apply dict_set_In in Hmem. destruct Hmem as [[-> ->] | Hmem].
      * split; [exact Hin | split; reflexivity].
      * destruct (Hm w' m Hmem) as (H1 & H2 & H3).
        split; [apply in_or_app; left; exact H1 | auto].
    + destruct (Hpw w' m Hmem) as (H1 & H2 & H3).
      split; [apply in_or_app; left; exact H1 | auto].
  - exists [], []. rewrite !app_nil_r. auto.
Qed.

(** lines 104-109 *)
Lemma link_successor_shape s news added acc w :
  In s succs ->
  gshape' news added (l_state acc) -> dshape news acc ->
  exists news' added',
    gshape' (news ++ news') (added ++ added')
            (l_state (link_successor node s acc w)) /\
    dshape (news ++ news') (link_successor node s acc w) /\
    length news' = (if wire_in w (wires node) then 1 else 0) /\
    measure_wires (link_successor node s acc w) = measure_wires acc.
Proof.
  intros Hs Hg Hd. unfold link_successor.
  destruct (wire_in w (wires node)) eqn:Hw.
  - set (op := mkOp (next_oid (l_state acc)) PrepareNode [w]).
    assert (Hmp : marker_placeholder node op).
    { split; [reflexivity |]. exists w. split; [reflexivity |].
      apply wire_in_spec. exact Hw. }
    pose proof (@gshape_add_node news added (l_state acc) op Hg eq_refl Hmp)
      as Hg1.
    assert (Hin : In op (news ++ [op]))
      by (apply in_or_app; right; left; reflexivity).
    pose proof (@gshape_link_successor _ _ _ s op Hg1 Hs Hin eq_refl) as Hg2.
    cbn [graph next_oid] in Hg2.
    exists [op].
    exists [mkEdge op s (new_edge_key (add_node (graph (l_state acc)) op) op s)
                   no_data].
    unfold new_op, on_graph.
    cbn [l_state measure_wires prepare_wires graph next_oid]. fold op.
    split; [exact Hg2 |]. split; [| split; reflexivity].
    destruct Hd as [Hm Hpw]. split; intros w' m Hmem.
    + destruct (Hm w' m Hmem) as (H1 & H2 & H3).
      split; [apply in_or_app; left; exact H1 | auto].
    + apply dict_set_In in Hmem. destruct Hmem as [[-> ->] | Hmem].
      * split; [exact Hin | split; reflexivity].
      * destruct (Hpw w' m Hmem) as (H1 & H2 & H3).
        split; [apply in_or_app; left; exact H1 | auto].
  - exists [], []. rewrite !app_nil_r. auto.
Qed.

Lemma shared_count_cons w ws :
  length (filter (fun w => wire_in w (wires node)) (w :: ws))
  = (if wire_in w (wires node) then 1 else 0)
    + length (filter (fun w => wire_in w (wires node)) ws).
Proof. simpl. destruct (wire_in w (wires node)); reflexivity. Qed.

Lemma link_predecessor_wires_shape p :
  In p preds ->
  forall ws news added acc,
    gshape' news added (l_state acc) -> dshape news acc ->
    exists news' added',
      gshape' (news ++ news') (added ++ added')
              (l_state (fold_left (link_predecessor node p) ws acc)) /\
      dshape (news ++ news') (fold_left (link_predecessor node p) ws acc) /\
      length news' = length (filter (fun w => wire_in w (wires node)) ws) /\
      prepare_wires (fold_left (link_predecessor node p) ws acc)
      = prepare_wires acc.
Proof.
  intros Hp. induction ws as [| w ws IH]; intros news added acc Hg Hd.
  - exists [], []. rewrite !app_nil_r. auto.
  - destruct (@link_predecessor_shape p news added acc w Hp Hg Hd)
      as (n1 & a1 & Hg1 & Hd1 & Hl1 & Hp1).
    destruct (IH _ _ _ Hg1 Hd1) as (n2 & a2 & Hg2 & Hd2 & Hl2 & Hp2).
    exists (n1 ++ n2), (a1 ++ a2). rewrite !app_assoc. cbn [fold_left].
    split; [exact Hg2 |]. split; [exact Hd2 |]. split.
    + rewrite length_app, shared_count_cons. lia.
    + rewrite Hp2. exact Hp1.
Qed.

Lemma link_successor_wires_shape s :
  In s succs ->
  forall ws news added acc,
    gshape' news added (l_state acc) -> dshape news acc ->
    exists news' added',
      gshape' (news ++ news') (added ++ added')
              (l_state (fold_left (link_successor node s) ws acc)) /\
      dshape (news ++ news') (fold_left (link_successor node s) ws acc) /\
      length news' = length (filter (fun w => wire_in w (wires node)) ws) /\
      measure_wires (fold_left (link_successor node s) ws acc)
      = measure_wires acc.
Proof.
  intros Hs. induction ws as [| w ws IH]; intros news added acc Hg Hd.
  - exists [], []. rewrite !app_nil_r. auto.
  - destruct (@link_successor_shape s news added acc w Hs Hg Hd)
      as (n1 & a1 & Hg1 & Hd1 & Hl1 & Hp1).
    destruct (IH _ _ _ Hg1 Hd1) as (n2 & a2 & Hg2 & Hd2 & Hl2 & Hp2).
    exists (n1 ++ n2), (a1 ++ a2). rewrite !app_assoc. cbn [fold_left].
    split; [exact Hg2 |]. split; [exact Hd2 |]. split.
    + rewrite length_app, shared_count_cons. lia.
    + rewrite Hp2. exact Hp1.
Qed.

Lemma shared_wires_cons p ps :
  shared_wires node (p :: ps)
  = length (filter (fun w => wire_in w (wires node)) (wires p))
    + shared_wires node ps.
Proof. reflexivity. Qed.

(** lines 95-101, over a part [ps] of the predecessors *)
Lemma predecessors_shape :
  forall ps news added acc,
    (forall p, In p ps -> In p preds) ->
    gshape' news added (l_state acc) -> dshape news acc ->
    exists news' added',
      gshape' (news ++ news') (added ++ added')
        (l_state (fold_left
                    (fun acc p => fold_left (link_predecessor node p) (wires p) acc)
                    ps acc)) /\
      dshape (news ++ news')
        (fold_left
           (fun acc p => fold_left (link_predecessor node p) (wires p) acc)
           ps acc) /\
      length news' = shared_wires node ps /\
      prepare_wires
        (fold_left
           (fun acc p => fold_left (link_predecessor node p) (wires p) acc)
           ps acc)
      = prepare_wires acc.
Proof.
  induction ps as [| p ps IH]; intros news added acc Hps Hg Hd.
  - exists [], []. rewrite !app_nil_r. auto.
  - destruct (@link_predecessor_wires_shape p (Hps p (or_introl eq_refl))
                (wires p) news added acc Hg Hd)
      as (n1 & a1 & Hg1 & Hd1 & Hl1 & Hp1).
    destruct (IH _ _ _ (fun x Hx => Hps x (or_intror Hx)) Hg1 Hd1)
      as (n2 & a2 & Hg2 & Hd2 & Hl2 & Hp2).
    exists (n1 ++ n2), (a1 ++ a2). rewrite !app_assoc. cbn [fold_left].
    split; [exact Hg2 |]. split; [exact Hd2 |]. split.
    + rewrite length_app, shared_wires_cons. lia.
    + rewrite Hp2. exact Hp1.
Qed.

(** lines 103-109, over a part [ss] of the successors *)
Lemma successors_shape :
  forall ss news added acc,
    (forall s, In s ss -> In s succs) ->
    gshape' news added (l_state acc) -> dshape news acc ->
    exists news' added',
      gshape' (news ++ news') (added ++ added')
        (l_state (fold_left
                    (fun acc s => fold_left (link_successor node s) (wires s) acc)
                    ss acc)) /\
      dshape (news ++ news')
        (fold_left
           (fun acc s => fold_left (link_successor node s) (wires s) acc)
           ss acc) /\
      length news' = shared_wires node ss /\
      measure_wires
        (fold_left
           (fun acc s => fold_left (link_successor node s) (wires s) acc)
           ss acc)
      = measure_wires acc.
Proof.
  induction ss as [| s ss IH]; intros news added acc Hss Hg Hd.
  - exists [], []. rewrite !app_nil_r. auto.
  - destruct (@link_successor_wires_shape s (Hss s (or_introl eq_refl))
                (wires s) news added acc Hg Hd)
      as (n1 & a1 & Hg1 & Hd1 & Hl1 & Hp1).
    destruct (IH _ _ _ (fun x Hx => Hss x (or_intror Hx)) Hg1 Hd1)
      as (n2 & a2 & Hg2 & Hd2 & Hl2 & Hp2).
    exists (n1 ++ n2), (a1 ++ a2). rewrite !app_assoc. cbn [fold_left].
    split; [exact Hg2 |]. split; [exact Hd2 |]. split.
    + rewrite length_app, shared_wires_cons. lia.
    + rewrite Hp2. exact Hp1.
Qed.

End Resolution.

(** ** The keys of measure_wires *)

Lemma dict_keys_get {V : Type} (d : Dict V) w :
  dict_get d w <> None <-> In w (map fst d).
Proof.
  induction d as [| [k x] d IH]; simpl.
  - split; [intro H; exfalso; apply H; reflexivity | intros []].
  - destruct (Nat.eqb k w) eqn:E.
    + apply Nat.eqb_eq in E. split; [left; exact E | discriminate].
    + apply Nat.eqb_neq in E. rewrite IH. split; [right; assumption |].
      intros [H | H]; [contradiction | exact H].
Qed.

Lemma dict_set_keys_present {V : Type} (d : Dict V) w v :
  In w (map fst d) -> map fst (dict_set d w v) = map fst d.
Proof.
  induction d as [| [k x] d IH]; simpl; intro H.
  - destruct H.
  - destruct (Nat.eqb k w) eqn:E; simpl; [reflexivity |].
    apply Nat.eqb_neq in E. f_equal. apply IH.
    destruct H as [H | H]; [contradiction | exact H].
Qed.

Lemma dict_set_keys_absent {V : Type} (d : Dict V) w v :
  ~ In w (map fst d) -> map fst (dict_set d w v) = map fst d ++ [w].
Proof.
  induction d as [| [k x] d IH]; simpl; intro H.
  - reflexivity.
  - destruct (Nat.eqb k w) eqn:E; simpl.
    + apply Nat.eqb_eq in E. exfalso. apply H. left. exact E.
    + f_equal. apply IH. intro Hin. apply H. right. exact Hin.
Qed.

Lemma default_pair_measure_keys acc w :
  let keys := map fst (measure_wires acc) in
  (In w keys /\ map fst (measure_wires (default_pair acc w)) = keys) \/
  (~ In w keys /\ map fst (measure_wires (default_pair acc w)) = keys ++ [w]).
Proof.
  unfold default_pair, new_op. cbn [measure_wires].
  destruct (in_dec Nat.eq_dec w (map fst (measure_wires acc))) as [H | H].
  - left. split; [exact H | apply dict_set_keys_present; exact H].
  - right. split; [exact H | apply dict_set_keys_absent; exact H].
Qed.

(** lines 85-93: the keys of [measure_wires] are the wires of the marker,
    each once *)
Lemma default_pairs_measure_keys node acc0 :
  measure_wires acc0 = [] ->
  let keys := map fst (measure_wires (fold_left default_pair (wires node) acc0)) in
  NoDup keys /\ forall w, In w keys <-> In w (wires node).
Proof.
  intros H0.
  assert (Hgen : forall ws acc,
             NoDup (map fst (measure_wires acc)) ->
             NoDup (map fst (measure_wires (fold_left default_pair ws acc))) /\
             forall w, In w (map fst (measure_wires (fold_left default_pair ws acc)))
                       <-> In w (map fst (measure_wires acc)) \/ In w ws).
  { induction ws as [| w0 ws IH]; intros acc Hnd; cbn [fold_left].
    - split; [exact Hnd |]. intro w. simpl. tauto.
    - assert (Hnd' : NoDup (map fst (measure_wires (default_pair acc w0)))).
      { destruct (default_pair_measure_keys acc w0) as [[_ ->] | [Hn ->]];
          [exact Hnd |].
        apply NoDup_app; [exact Hnd | repeat constructor; intros [] |].
        intros a Ha [<- | []]. contradiction. }
      destruct (IH _ Hnd') as [H1 H2]. split; [exact H1 |].
      intro w. rewrite H2.
      destruct (default_pair_measure_keys acc w0) as [[Hin ->] | [Hn ->]].
      + split; [intros [H | H]; auto; right; right; exact H |].
        intros [H | [<- | H]]; auto.
      + rewrite in_app_iff. simpl. tauto. }
  destruct (Hgen (wires node) acc0) as [H1 H2].
  - rewrite H0. constructor.
  - split; [exact H1 |]. intro w. rewrite H2, H0. simpl. tauto.
Qed.

Lemma link_predecessor_measure_keys node p acc w :
  (forall x, In x (wires node) -> In x (map fst (measure_wires acc))) ->
  map fst (measure_wires (link_predecessor node p acc w))
  = map fst (measure_wires acc).
Proof.
  intro Hcov. unfold link_predecessor.
  destruct (wire_in w (wires node)) eqn:Hw; [| reflexivity].
  unfold new_op. cbn [measure_wires]. apply dict_set_keys_present.
  apply Hcov. apply wire_in_spec. exact Hw.
Qed.

Lemma predecessors_measure_keys node ps acc :
  (forall x, In x (wires node) -> In x (map fst (measure_wires acc))) ->
  map fst (measure_wires
             (fold_left
                (fun acc p => fold_left (link_predecessor node p) (wires p) acc)
                ps acc))
  = map fst (measure_wires acc).
Proof.
  intro Hcov.
  apply (fold_left_invariant
           (fun a => map fst (measure_wires a) = map fst (measure_wires acc)));
    [| reflexivity].
  intros a p _ Ha.
  apply (fold_left_invariant
           (fun a => map fst (measure_wires a) = map fst (measure_wires acc)));
    [| exact Ha].
  intros b w _ Hb. rewrite link_predecessor_measure_keys; [exact Hb |].
  rewrite Hb. exact Hcov.
Qed.

(** lines 111-114 on a graph that holds the placeholders of both
    dictionaries *)
Lemma link_pairs_shape pw base news :
  (forall w p, In (w, p) pw ->
               In p news /\ isPrepareNode p = true /\ wires p = [w]) ->
  forall entries st E,
    g_nodes (graph st) = base ++ news ->
    g_edges (graph st) = E ->
    (forall w m, In (w, m) entries ->
                 dict_get pw w <> None /\
                 In m news /\ isMeasureNode m = true /\ wires m = [w]) ->
    exists st' pairs,
      foldM (link_pair pw) entries st = Ok st' /\
      g_nodes (graph st') = base ++ news /\
      g_edges (graph st') = E ++ pairs /\
      next_oid st' = next_oid st /\
      Forall2 (fun w e =>
                 e_data e = pair_data (e_src e) (e_dst e) /\
                 In (e_src e) news /\ In (e_dst e) news /\
                 isMeasureNode (e_src e) = true /\
                 isPrepareNode (e_dst e) = true /\
                 wires (e_src e) = [w] /\ wires (e_dst e) = [w])
              (map fst entries) pairs.
Proof.
  intros Hpw. induction entries as [| [w m] entries IH]; intros st E Hn He Hent.
  - exists st, []. rewrite app_nil_r. cbn [foldM map].
    repeat split; auto.
  - destruct (Hent w m (or_introl eq_refl)) as (Hget & Hm & Hkm & Hwm).
    destruct (dict_get pw w) as [p |] eqn:Hp; [| contradiction].
    destruct (Hpw w p (dict_get_In _ _ Hp)) as (Hpn & Hkp & Hwp).
    set (e := mkEdge m p (new_edge_key (graph st) m p) (pair_data m p)).
    destruct (IH (on_graph (fun g => add_edge g m p (pair_data m p)) st)
                 (E ++ [e])) as (st' & pairs & Hfold & Hn' & He' & Hnext & Hall).
    + unfold on_graph. cbn [graph].
      rewrite add_edge_present; [exact Hn | |];
        unfold has_node; rewrite Hn; apply op_in_In; apply in_or_app;
        right; assumption.
    + unfold on_graph. cbn [graph].
      rewrite add_edge_present; [cbn [g_edges]; rewrite He; reflexivity | |];
        unfold has_node; rewrite Hn; apply op_in_In; apply in_or_app;
        right; assumption.
    + intros w' m' Hin. apply Hent. right. exact Hin.
    + exists st', (e :: pairs). cbn [foldM link_pair]. rewrite Hp. cbn [bind].
      split; [exact Hfold |]. split; [exact Hn' |].
      split; [rewrite He', <- app_assoc; reflexivity |].
      split; [exact Hnext |].
      cbn [map fst]. constructor; [| exact Hall].
      unfold e. cbn [e_data e_src e_dst]. repeat split; assumption.
Qed.

(** ** The result of remove_wire_cut_node on a well-formed graph *)

Lemma op_in_filter_other p n l :
  op_in p l = true -> oid p <> oid n ->
  op_in p (filter (fun m => negb (same_op m n)) l) = true.
Proof.
  intros Hp Hne. apply op_in_spec in Hp. apply in_map_iff in Hp.
  destruct Hp as (x & E & Hx). apply op_in_spec. rewrite <- E.
  apply in_map. apply filter_In. split; [exact Hx |].
  apply negb_true_iff. apply same_op_neq. congruence.
Qed.

Lemma oid_injective l a b :
  NoDup (map oid l) -> In a l -> In b l -> oid a = oid b -> a = b.
Proof.
  induction l as [| y l IH]; simpl; intros Hnd Ha Hb E.
  - destruct Ha.
  - inversion Hnd as [| u v Hnotin Hnd']; subst u v.
    destruct Ha as [-> | Ha], Hb as [-> | Hb].
    + reflexivity.
    + exfalso. apply Hnotin. rewrite E. apply in_map. exact Hb.
    + exfalso. apply Hnotin. rewrite <- E. apply in_map. exact Ha.
    + apply IH; assumption.
Qed.

Lemma well_formed_no_self_loop st node :
  well_formed st -> has_self_loop (graph st) node = false.
Proof.
  intros (_ & _ & _ & Hloops). unfold has_self_loop.
  apply existsb_false. intros e He. unfold between.
  destruct (same_op (e_src e) node) eqn:Es; [| reflexivity].
  destruct (same_op (e_dst e) node) eqn:Ed; [| reflexivity].
  exfalso. apply same_op_eq in Es. apply same_op_eq in Ed.
  apply (Hloops e He). congruence.
Qed.

Lemma remove_wire_cut_node_shape node st :
  well_formed st -> has_node (graph st) node = true ->
  exists st' preds succs news links pairs keys,
    predecessors (graph st) node = Ok preds /\
    successors (graph st) node = Ok succs /\
    remove_wire_cut_node node st = Ok st' /\
    g_nodes (graph st')
    = filter (fun m => negb (same_op m node)) (g_nodes (graph st)) ++ news /\
    g_edges (graph st')
    = filter (fun e => negb (incident node e)) (g_edges (graph st))
      ++ links ++ pairs /\
    next_oid st' = next_oid st + length news /\
    map oid news = seq (next_oid st) (length news) /\
    length news
    = 2 * length (wires node) + shared_wires node preds
      + shared_wires node succs /\
    Forall (marker_placeholder node) news /\
    Forall (link_edge preds succs news) links /\
    (forall p, In p preds \/ In p succs ->
               op_in p (filter (fun m => negb (same_op m node))
                               (g_nodes (graph st))) = true) /\
    NoDup keys /\
    (forall w, In w keys <-> In w (wires node)) /\
    Forall2 (fun w e =>
               e_data e = pair_data (e_src e) (e_dst e) /\
               In (e_src e) news /\ In (e_dst e) news /\
               isMeasureNode (e_src e) = true /\
               isPrepareNode (e_dst e) = true /\
               wires (e_src e) = [w] /\ wires (e_dst e) = [w])
            keys pairs.
Proof.
  intros Hwf Hhas.
  pose proof (well_formed_no_self_loop node Hwf) as Hloop.
  destruct Hwf as (Hfresh & Hnd & Hends & Hloops).
  set (n0 := next_oid st).
  set (base := filter (fun m => negb (same_op m node)) (g_nodes (graph st))).
  set (bedges := filter (fun e => negb (incident node e)) (g_edges (graph st))).
  set (preds := distinct_ops
                  (map e_src (filter (fun e => same_op (e_dst e) node)
                                     (g_edges (graph st)))) []).
  set (succs := distinct_ops
                  (map e_dst (filter (fun e => same_op (e_src e) node)
                                     (g_edges (graph st)))) []).
  assert (Hbase : forall x, In x base -> oid x < n0).
  { intros x Hx. apply filter_In in Hx. apply Hfresh. tauto. }
  assert (Hpreds : forall p, In p preds -> op_in p base = true).
  { intros p Hp. apply distinct_ops_In in Hp. apply in_map_iff in Hp.
    destruct Hp as (e & <- & He). apply filter_In in He.
    destruct He as [He Hd]. apply same_op_eq in Hd.
    apply op_in_filter_other; [apply (Hends e He) |].
    rewrite <- Hd. apply (Hloops e He). }
  assert (Hsuccs : forall s, In s succs -> op_in s base = true).
  { intros s Hs. apply distinct_ops_In in Hs. apply in_map_iff in Hs.
    destruct Hs as (e & <- & He). apply filter_In in He.
    destruct He as [He Hd]. apply same_op_eq in Hd.
    apply op_in_filter_other; [apply (Hends e He) |].
    rewrite <- Hd. intro E. apply (Hloops e He). symmetry. exact E. }
  set (acc0 := mkLoop (mkState (mkGraph base bedges) n0) [] []).
  set (acc1 := fold_left default_pair (wires node) acc0).
  set (acc2 := fold_left
                 (fun acc p => fold_left (link_predecessor node p) (wires p) acc)
                 preds acc1).
  set (acc3 := fold_left
                 (fun acc s => fold_left (link_successor node s) (wires s) acc)
                 succs acc2).
  assert (Hg0 : gshape node base bedges n0 preds succs [] [] (l_state acc0)).
  { unfold gshape, acc0. cbn [l_state graph next_oid g_nodes g_edges length map seq].
    rewrite !app_nil_r. repeat split; auto. }
  assert (Hd0 : dshape [] acc0) by (split; intros w m []).
  destruct (@default_pairs_shape node base bedges n0 preds succs Hbase []
              (wires node) [] acc0 (fun w H => H) Hg0 Hd0)
    as (n1 & Hg1 & Hd1 & Hl1).
  fold acc1 in Hg1, Hd1.
  destruct (@predecessors_shape node base bedges n0 preds succs Hbase Hpreds
              preds _ _ acc1 (fun p H => H) Hg1 Hd1)
    as (n2 & a2 & Hg2 & Hd2 & Hl2 & _).
  fold acc2 in Hg2, Hd2.
  destruct (@successors_shape node base bedges n0 preds succs Hbase Hsuccs
              succs _ _ acc2 (fun s H => H) Hg2 Hd2)
    as (n3 & a3 & Hg3 & Hd3 & Hl3 & Hmw3).
  fold acc3 in Hg3, Hd3, Hmw3.
  set (news := (([] ++ n1) ++ n2) ++ n3) in *.
  set (links := ([] ++ a2) ++ a3) in *.
  destruct Hg3 as (Hn3 & He3 & Hnext3 & Hseq3 & Hnews3 & Hlinks3).
  destruct Hd3 as [Hdm Hdp].
  assert (Hkeys1 := default_pairs_measure_keys node acc0 eq_refl).
  cbv zeta in Hkeys1. fold acc1 in Hkeys1. destruct Hkeys1 as [Hk1 Hk2].
  assert (Hkeys3 : map fst (measure_wires acc3) = map fst (measure_wires acc1)).
  { rewrite Hmw3. unfold acc2. apply predecessors_measure_keys.
    intros x Hx. apply Hk2. exact Hx. }
  destruct (@link_pairs_shape (prepare_wires acc3) base news Hdp
              (measure_wires acc3) (l_state acc3) (bedges ++ links) Hn3 He3)
    as (st' & pairs & Hfold & Hn' & He' & Hnext' & Hall).
  { intros w m Hin. split; [| exact (Hdm w m Hin)].
    apply (resolve_loops_keys node preds succs acc0 (fun w' H => H)).
    exact (In_dict_get _ _ _ Hin). }
  exists st', preds, succs, news, links, pairs, (map fst (measure_wires acc3)).
  unfold remove_wire_cut_node, predecessors, successors, remove_node.
  rewrite Hhas, Hloop. cbn [bind].
  split; [reflexivity |]. split; [reflexivity |].
  split; [exact Hfold |]. split; [exact Hn' |].
  split; [rewrite He', app_assoc; reflexivity |].
  split; [rewrite Hnext'; exact Hnext3 |]. split; [exact Hseq3 |].
  split.
  { unfold news. rewrite !length_app. cbn [length]. lia. }
  split; [exact Hnews3 |]. split; [exact Hlinks3 |].
  split; [intros p [Hp | Hp]; [apply Hpreds | apply Hsuccs]; exact Hp |].
  rewrite Hkeys3. split; [exact Hk1 |]. split; [exact Hk2 |].
  rewrite <- Hkeys3. exact Hall.
Qed.

Lemma Forall2_In_r {A B : Type} (R : A -> B -> Prop) :
  forall l l' y, Forall2 R l l' -> In y l' -> exists x, In x l /\ R x y.
Proof.
  intros l l' y H. induction H as [| x0 y0 l l' HR _ IH]; intro Hy.
  - destruct Hy.
  - destruct Hy as [<- | Hy].
    + exists x0. split; [left; reflexivity | exact HR].
    + destruct (IH Hy) as (x & Hx & Hxy). exists x. split; [right |]; assumption.
Qed.

Lemma measure_not_prepare o :
  isMeasureNode o = true -> isPrepareNode o = true -> False.
Proof.
  unfold isMeasureNode, isPrepareNode. destruct (kind o); discriminate.
Qed.

Lemma op_in_app_l v l l' : op_in v l = true -> op_in v (l ++ l') = true.
Proof. unfold op_in. rewrite existsb_app. intros ->. reflexivity. Qed.

Lemma op_in_app_r v l l' : In v l' -> op_in v (l ++ l') = true.
Proof. intro H. apply op_in_In. apply in_or_app. right. exact H. Qed.

Lemma op_in_bound v l n :
  (forall x, In x l -> oid x < n) -> op_in v l = true -> oid v < n.
Proof.
  intros H Hv. apply op_in_spec in Hv. apply in_map_iff in Hv.
  destruct Hv as (x & E & Hx). rewrite <- E. apply H. exact Hx.
Qed.

Lemma new_oid_bounds news n0 x :
  map oid news = seq n0 (length news) -> In x news ->
  n0 <= oid x < n0 + length news.
Proof.
  intros Hseq Hx. apply (in_map oid) in Hx. rewrite Hseq in Hx.
  apply in_seq in Hx. exact Hx.
Qed.

(** [remove_wire_cut_node] keeps a graph well formed. *)
Lemma remove_wire_cut_node_keeps_well_formed node st st' :
  well_formed st -> has_node (graph st) node = true ->
  remove_wire_cut_node node st = Ok st' ->
  well_formed st'.
Proof.
  intros Hwf Hhas Hrun.
  destruct (remove_wire_cut_node_shape node Hwf Hhas)
    as (st1 & preds & succs & news & links & pairs & keys & _ & _ & Hok
        & Hn & He & Hnext & Hseq & _ & Hnews & Hlinks & Hps & _ & _ & Hpairs).
  rewrite Hrun in Hok. injection Hok as <-.
  destruct Hwf as (Hfresh & Hnd & Hends & Hloops).
  set (base := filter (fun m => negb (same_op m node)) (g_nodes (graph st))) in *.
  assert (Hbase : forall x, In x base -> oid x < next_oid st).
  { intros x Hx. apply filter_In in Hx. apply Hfresh. tauto. }
  unfold well_formed. rewrite Hn, He, Hnext.
  split; [| split; [| split]].
  - intros x Hx. apply in_app_or in Hx. destruct Hx as [Hx | Hx].
    + specialize (Hbase x Hx). lia.
    + pose proof (@new_oid_bounds news (next_oid st) x Hseq Hx). lia.
  - rewrite map_app. apply NoDup_app.
    + apply NoDup_map_filter. exact Hnd.
    + rewrite Hseq. apply seq_NoDup.
    + intros a Ha Hb. apply in_map_iff in Ha. destruct Ha as (x & <- & Hx).
      specialize (Hbase x Hx). rewrite Hseq in Hb. apply in_seq in Hb. lia.
  - intros e Hin. apply in_app_or in Hin. destruct Hin as [Hin | Hin].
    + apply filter_In in Hin. destruct Hin as [Hin Hinc].
      apply negb_true_iff in Hinc. unfold incident in Hinc.
      apply orb_false_iff in Hinc. destruct Hinc as [Hs Hd].
      apply same_op_neq in Hs. apply same_op_neq in Hd.
      destruct (Hends e Hin) as [H1 H2].
      split; apply op_in_app_l; apply op_in_filter_other; assumption.
    + apply in_app_or in Hin. destruct Hin as [Hin | Hin].
      * rewrite Forall_forall in Hlinks.
        destruct (Hlinks e Hin) as (_ & [(H1 & H2 & _) | (H1 & H2 & _)]).
        -- split; [apply op_in_app_l; apply Hps; left; exact H1 |].
           apply op_in_app_r. exact H2.
        -- split; [apply op_in_app_r; exact H2 |].
           apply op_in_app_l. apply Hps. right. exact H1.
      * destruct (Forall2_In_r e Hpairs Hin) as (w & _ & _ & H1 & H2 & _).
        split; apply op_in_app_r; assumption.
  - intros e Hin. apply in_app_or in Hin. destruct Hin as [Hin | Hin].
    + apply filter_In in Hin. apply Hloops. tauto.
    + apply in_app_or in Hin. destruct Hin as [Hin | Hin].
      * rewrite Forall_forall in Hlinks.
        destruct (Hlinks e Hin) as (_ & [(H1 & H2 & _) | (H1 & H2 & _)]).
        -- pose proof (@op_in_bound (e_src e) base (next_oid st) Hbase
                         (Hps _ (or_introl H1))).
           pose proof (@new_oid_bounds news (next_oid st) (e_dst e) Hseq H2).
           lia.
        -- pose proof (@op_in_bound (e_dst e) base (next_oid st) Hbase
                         (Hps _ (or_intror H1))).
           pose proof (@new_oid_bounds news (next_oid st) (e_src e) Hseq H2).
           lia.
      * destruct (Forall2_In_r e Hpairs Hin)
          as (w & _ & _ & H1 & H2 & Hm & Hp & _).
        intro E.
        assert (Heq : e_src e = e_dst e).
        { apply (@oid_injective news); try assumption.
          rewrite Hseq. apply seq_NoDup. }
        rewrite Heq in Hm. exact (@measure_not_prepare (e_dst e) Hm Hp).
Qed.

Lemma filter_removes_one n :
  forall l, NoDup (map oid l) -> op_in n l = true ->
            length (filter (fun m => negb (same_op m n)) l) + 1 = length l.
Proof.
  induction l as [| x l IH]; simpl; intros Hnd Hin.
  - discriminate Hin.
  - inversion Hnd as [| a b Hnotin Hnd']; subst a b.
    destruct (same_op x n) eqn:E; simpl.
    + apply same_op_eq in E. rewrite filter_others; [lia |].
      rewrite <- E. exact Hnotin.
    + rewrite <- (IH Hnd'); [lia |].
      apply orb_true_iff in Hin. destruct Hin as [Hin | Hin]; [| exact Hin].
      apply same_op_eq in Hin. apply same_op_neq in E. congruence.
Qed.

Lemma built_well_formed tape g latest :
  built (operations tape) (g, latest) ->
  NoDup (map oid (operations tape)) ->
  well_formed (mkState g (fresh_oid tape)).
Proof.
  intros (Hn & He & Hf & _) Hnd. cbn [fst snd] in *.
  rewrite Forall_forall in He.
  unfold well_formed. cbn [graph next_oid]. rewrite Hn.
  split; [| split; [| split]].
  - intros x Hx. apply oid_below_fresh. exact Hx.
  - exact Hnd.
  - intros e Hin. destruct (He e Hin) as (_ & Hs & Hd).
    split; apply op_in_spec; assumption.
  - intros e Hin. destruct (He e Hin) as (_ & _ & Hd).
    exact (@forward_no_self_loop (g_edges g) (operations tape) e Hf Hin Hd).
Qed.

Lemma shared_tape_valid : valid_tape shared_tape.
Proof.
  split.
  - simpl. repeat constructor; simpl; intuition discriminate.
  - repeat constructor; simpl; intuition discriminate.
Qed.

Lemma shared_state_well_formed : well_formed shared_state.
Proof.
  destruct (tape_to_graph_valid shared_tape_valid) as (g & latest & Hg & Hb).
  assert (E : Spec.tape_to_graph shared_tape = Ok shared_built)
    by (vm_compute; reflexivity).
  rewrite E in Hg. injection Hg as <-.
  exact (built_well_formed shared_tape Hb (proj1 shared_tape_valid)).
Qed.

(** X2.  Node count.  On a well-formed graph, resolving a marker removes
    one node and adds two placeholders per wire of the marker plus one for
    every wire that a predecessor or a successor shares with the marker;
    the allocator advances by the number of placeholders. *)
Theorem remove_wire_cut_node_node_count node st :
  well_formed st -> has_node (graph st) node = true ->
  exists st' preds succs,
    predecessors (graph st) node = Ok preds /\
    successors (graph st) node = Ok succs /\
    remove_wire_cut_node node st = Ok st' /\
    length (g_nodes (graph st')) + 1
    = length (g_nodes (graph st)) + 2 * length (wires node)
      + shared_wires node preds + shared_wires node succs /\
    next_oid st'
    = next_oid st + 2 * length (wires node)
      + shared_wires node preds + shared_wires node succs.
Proof.
  intros Hwf Hhas.
  destruct (remove_wire_cut_node_shape node Hwf Hhas)
    as (st' & preds & succs & news & links & pairs & keys & Hp & Hs & Hok
        & Hn & _ & Hnext & _ & Hlen & _).
  exists st', preds, succs.
  split; [exact Hp |]. split; [exact Hs |]. split; [exact Hok |].
  destruct Hwf as (_ & Hnd & _).
  pose proof (filter_removes_one node (g_nodes (graph st)) Hnd Hhas) as Hone.
  rewrite Hn, length_app. lia.
Qed.

(** X3.  The marker goes, the rest stays.  After [remove_wire_cut_node] the
    marker is no node of the graph and no edge touches it; the other nodes
    and the edges that did not touch the marker are kept, in their order,
    before everything that is added. *)
Theorem remove_wire_cut_node_removes_marker node st :
  well_formed st -> has_node (graph st) node = true ->
  exists st' news added,
    remove_wire_cut_node node st = Ok st' /\
    has_node (graph st') node = false /\
    (forall e, In e (g_edges (graph st')) -> incident node e = false) /\
    g_nodes (graph st')
    = filter (fun m => negb (same_op m node)) (g_nodes (graph st)) ++ news /\
    g_edges (graph st')
    = filter (fun e => negb (incident node e)) (g_edges (graph st)) ++ added.
Proof.
  intros Hwf Hhas.
  destruct (remove_wire_cut_node_shape node Hwf Hhas)
    as (st' & preds & succs & news & links & pairs & keys & _ & _ & Hok
        & Hn & He & _ & Hseq & _ & _ & Hlinks & Hps & _ & _ & Hpairs).
  destruct Hwf as (Hfresh & _).
  assert (Hnode : oid node < next_oid st)
    by (apply (@op_in_bound node (g_nodes (graph st))); assumption).
  assert (Hbase : forall x,
             op_in x (filter (fun m => negb (same_op m node))
                             (g_nodes (graph st))) = true ->
             same_op x node = false).
  { intros x Hx. apply op_in_spec in Hx. apply in_map_iff in Hx.
    destruct Hx as (y & E & Hy). apply filter_In in Hy. destruct Hy as [_ Hy].
    apply negb_true_iff in Hy. unfold same_op in *. rewrite <- E. exact Hy. }
  assert (Hnew : forall x, In x news -> same_op x node = false).
  { intros x Hx. apply same_op_neq.
    pose proof (@new_oid_bounds news (next_oid st) x Hseq Hx). lia. }
  exists st', news, (links ++ pairs).
  split; [exact Hok |]. split; [| split; [| split; assumption]].
  - unfold has_node. rewrite Hn. apply op_in_false. rewrite map_app, in_app_iff.
    intros [Hin | Hin].
    + apply in_map_iff in Hin. destruct Hin as (x & E & Hx).
      apply filter_In in Hx. destruct Hx as [_ Hx].
      apply negb_true_iff in Hx. apply same_op_neq in Hx. congruence.
    + rewrite Hseq in Hin. apply in_seq in Hin. lia.
  - intros e Hin. rewrite He in Hin. apply in_app_or in Hin.
    destruct Hin as [Hin | Hin].
    + apply filter_In in Hin. destruct Hin as [_ Hin].
      apply negb_true_iff in Hin. exact Hin.
    + unfold incident. apply orb_false_iff.
      apply in_app_or in Hin. destruct Hin as [Hin | Hin].
      * rewrite Forall_forall in Hlinks.
        destruct (Hlinks e Hin) as (_ & [(H1 & H2 & _) | (H1 & H2 & _)]).
        -- split; [apply Hbase; apply Hps; left; exact H1 | apply Hnew; exact H2].
        -- split; [apply Hnew; exact H2 | apply Hbase; apply Hps; right; exact H1].
      * destruct (Forall2_In_r e Hpairs Hin) as (w & _ & _ & H1 & H2 & _).
        split; apply Hnew; assumption.
Qed.

(** X4.  What is added.  Every node that [remove_wire_cut_node] adds is a
    MeasureNode or a PrepareNode on exactly one wire, a wire of the marker,
    and is a newly allocated object. *)
Theorem remove_wire_cut_node_adds_placeholders node st :
  well_formed st -> has_node (graph st) node = true ->
  exists st',
    remove_wire_cut_node node st = Ok st' /\
    forall x, In x (g_nodes (graph st')) ->
      In x (g_nodes (graph st)) \/
      (isPlaceholder x = true /\
       (exists w, wires x = [w] /\ In w (wires node)) /\
       next_oid st <= oid x < next_oid st').
Proof.
  intros Hwf Hhas.
  destruct (remove_wire_cut_node_shape node Hwf Hhas)
    as (st' & preds & succs & news & links & pairs & keys & _ & _ & Hok
        & Hn & _ & Hnext & Hseq & _ & Hnews & _).
  exists st'. split; [exact Hok |].
  intros x Hx. rewrite Hn in Hx. apply in_app_or in Hx.
  destruct Hx as [Hx | Hx].
  - left. apply filter_In in Hx. tauto.
  - right. rewrite Forall_forall in Hnews. destruct (Hnews x Hx) as [Hk Hw].
    split; [exact Hk |]. split; [exact Hw |].
    rewrite Hnext. exact (@new_oid_bounds news (next_oid st) x Hseq Hx).
Qed.

Lemma predecessors_In g n preds p :
  predecessors g n = Ok preds -> In p preds ->
  exists e, In e (g_edges g) /\ e_src e = p /\ same_op (e_dst e) n = true.
Proof.
  unfold predecessors. destruct (has_node g n); [| discriminate].
  intros H Hp. injection H as <-. apply distinct_ops_In in Hp.
  apply in_map_iff in Hp. destruct Hp as (e & E & He).
  apply filter_In in He. exists e. tauto.
Qed.

Lemma successors_In g n succs s :
  successors g n = Ok succs -> In s succs ->
  exists e, In e (g_edges g) /\ e_dst e = s /\ same_op (e_src e) n = true.
Proof.
  unfold successors. destruct (has_node g n); [| discriminate].
  intros H Hs. injection H as <-. apply distinct_ops_In in Hs.
  apply in_map_iff in Hs. destruct Hs as (e & E & He).
  apply filter_In in He. exists e. tauto.
Qed.

(** X5.  Cut edges.  On a well-formed graph [remove_wire_cut_node] adds,
    after the attribute-free edges, exactly one pair-annotated edge per
    distinct wire of the marker; the edge goes from a MeasureNode on that
    wire to a PrepareNode on that wire, both created by this call and both
    nodes of the result, and its annotation is the pair of its own end
    points. *)
Theorem remove_wire_cut_node_cut_edges node st :
  well_formed st -> has_node (graph st) node = true ->
  exists st' links pairs keys,
    remove_wire_cut_node node st = Ok st' /\
    g_edges (graph st')
    = filter (fun e => negb (incident node e)) (g_edges (graph st))
      ++ links ++ pairs /\
    Forall (fun e => e_data e = no_data) links /\
    NoDup keys /\ (forall w, In w keys <-> In w (wires node)) /\
    Forall2 (fun w e =>
               e_data e = pair_data (e_src e) (e_dst e) /\
               isMeasureNode (e_src e) = true /\
               isPrepareNode (e_dst e) = true /\
               wires (e_src e) = [w] /\ wires (e_dst e) = [w] /\
               has_node (graph st') (e_src e) = true /\
               has_node (graph st') (e_dst e) = true /\
               next_oid st <= oid (e_src e) /\ next_oid st <= oid (e_dst e))
            keys pairs.
Proof.
  intros Hwf Hhas.
  destruct (remove_wire_cut_node_shape node Hwf Hhas)
    as (st' & preds & succs & news & links & pairs & keys & _ & _ & Hok
        & Hn & He & _ & Hseq & _ & _ & Hlinks & _ & Hnd & Hkeys & Hpairs).
  exists st', links, pairs, keys.
  split; [exact Hok |]. split; [exact He |].
  split; [| split; [exact Hnd | split; [exact Hkeys |]]].
  - eapply Forall_impl; [| exact Hlinks]. intros e [Hd _]. exact Hd.
  - eapply Forall2_impl; [| exact Hpairs].
    intros w e (Hd & Hs & Ht & Hm & Hp & Hws & Hwd).
    pose proof (@new_oid_bounds news (next_oid st) _ Hseq Hs) as Bs.
    pose proof (@new_oid_bounds news (next_oid st) _ Hseq Ht) as Bt.
    unfold has_node. rewrite Hn.
    repeat (split; [first [assumption | lia
                          | apply op_in_app_r; assumption] |]).
    lia.
Qed.

(** X6.  Link edges.  Every attribute-free edge that [remove_wire_cut_node]
    adds goes from a predecessor of the marker to a MeasureNode created by
    this call, or from a PrepareNode created by this call to a successor of
    the marker; the predecessor or successor is still a node of the result. *)
Theorem remove_wire_cut_node_link_edges node st :
  well_formed st -> has_node (graph st) node = true ->
  exists st' preds succs links pairs,
    predecessors (graph st) node = Ok preds /\
    successors (graph st) node = Ok succs /\
    remove_wire_cut_node node st = Ok st' /\
    g_edges (graph st')
    = filter (fun e => negb (incident node e)) (g_edges (graph st))
      ++ links ++ pairs /\
    Forall (fun e => e_pair (e_data e) <> None) pairs /\
    Forall (fun e =>
              e_data e = no_data /\
              ((In (e_src e) preds /\ has_node (graph st') (e_src e) = true /\
                isMeasureNode (e_dst e) = true /\ next_oid st <= oid (e_dst e) /\
                has_node (graph st') (e_dst e) = true) \/
               (In (e_dst e) succs /\ has_node (graph st') (e_dst e) = true /\
                isPrepareNode (e_src e) = true /\ next_oid st <= oid (e_src e) /\
                has_node (graph st') (e_src e) = true)))
           links.
Proof.
  intros Hwf Hhas.
  destruct (remove_wire_cut_node_shape node Hwf Hhas)
    as (st' & preds & succs & news & links & pairs & keys & Hp & Hs & Hok
        & Hn & He & _ & Hseq & _ & _ & Hlinks & Hps & _ & _ & Hpairs).
  exists st', preds, succs, links, pairs.
  split; [exact Hp |]. split; [exact Hs |]. split; [exact Hok |].
  split; [exact He |]. split.
  - apply Forall_forall. intros e Hin.
    destruct (Forall2_In_r e Hpairs Hin) as (w & _ & Hd & _).
    rewrite Hd. discriminate.
  - eapply Forall_impl; [| exact Hlinks].
    intros e (Hd & [(H1 & H2 & H3) | (H1 & H2 & H3)]); (split; [exact Hd |]).
    + left. pose proof (@new_oid_bounds news (next_oid st) _ Hseq H2) as B.
      unfold has_node. rewrite Hn.
      split; [exact H1 |]. split; [apply op_in_app_l; apply Hps; left; exact H1 |].
      split; [exact H3 |]. split; [lia |].
      apply op_in_app_r. exact H2.
    + right. pose proof (@new_oid_bounds news (next_oid st) _ Hseq H2) as B.
      unfold has_node. rewrite Hn.
      split; [exact H1 |]. split; [apply op_in_app_l; apply Hps; right; exact H1 |].
      split; [exact H3 |]. split; [lia |].
      apply op_in_app_r. exact H2.
Qed.

(** X7.  Well-formedness is kept.  On a well-formed graph (every node an
    allocated, distinct object; every edge between two nodes; no edge from
    a node to itself) [remove_wire_cut_node] returns a well-formed graph:
    in particular no added edge dangles and the call can be repeated for
    the next marker. *)
Theorem remove_wire_cut_node_well_formed node st :
  well_formed st -> has_node (graph st) node = true ->
  exists st', remove_wire_cut_node node st = Ok st' /\ well_formed st'.
Proof.
  intros Hwf Hhas.
  destruct (remove_wire_cut_node_shape node Hwf Hhas)
    as (st' & _ & _ & _ & _ & _ & _ & _ & _ & Hok & _).
  exists st'. split; [exact Hok |].
  exact (@remove_wire_cut_node_keeps_well_formed node st st' Hwf Hhas Hok).
Qed.

(** New MeasureNodes are ranked just above the marker, new PrepareNodes
    above them, and the old nodes keep their order. *)
Lemma remove_wire_cut_node_keeps_acyclic node st st' :
  well_formed st -> has_node (graph st) node = true ->
  acyclic (graph st) ->
  remove_wire_cut_node node st = Ok st' -> acyclic (graph st').
Proof.
  intros Hwf Hhas [rank Hrank] Hret.
  destruct (remove_wire_cut_node_shape node Hwf Hhas)
    as (st1 & preds & succs & news & links & pairs & keys & Hp & Hs & Hok
        & Hn & He & _ & Hseq & _ & _ & Hlinks & Hps & _ & _ & Hpairs).
  rewrite Hret in Hok. injection Hok as <-.
  destruct Hwf as (Hfresh & _ & Hends & _).
  set (n0 := next_oid st) in *.
  set (r := rank (oid node)).
  set (is_meas := fun k => existsb (fun m => (oid m =? k) && isMeasureNode m) news).
  exists (fun k => if k <? n0 then 3 * rank k
                   else if is_meas k then 3 * r + 1 else 3 * r + 2).
  assert (Hnd : NoDup (map oid news)) by (rewrite Hseq; apply seq_NoDup).
  assert (Hold : forall x, op_in x (g_nodes (graph st)) = true ->
                           (oid x <? n0) = true).
  { intros x Hx. apply Nat.ltb_lt.
    exact (@op_in_bound x (g_nodes (graph st)) n0 Hfresh Hx). }
  assert (Hbase : forall x,
             op_in x (filter (fun m => negb (same_op m node))
                             (g_nodes (graph st))) = true ->
             (oid x <? n0) = true).
  { intros x Hx. apply Hold. apply op_in_spec. apply op_in_spec in Hx.
    apply in_map_iff in Hx. destruct Hx as (y & E & Hy).
    apply filter_In in Hy. rewrite <- E. apply in_map. tauto. }
  assert (Hnew : forall x, In x news -> (oid x <? n0) = false).
  { intros x Hx. apply Nat.ltb_ge.
    pose proof (@new_oid_bounds news n0 x Hseq Hx). lia. }
  assert (Hmeas : forall x, In x news -> isMeasureNode x = true ->
                            is_meas (oid x) = true).
  { intros x Hx Hm. apply existsb_exists. exists x. split; [exact Hx |].
    rewrite Nat.eqb_refl, Hm. reflexivity. }
  assert (Hprep : forall x, In x news -> isPrepareNode x = true ->
                            is_meas (oid x) = false).
  { intros x Hx Hm. destruct (is_meas (oid x)) eqn:E; [| reflexivity].
    apply existsb_exists in E. destruct E as (m & Hin & E).
    apply andb_true_iff in E. destruct E as [E Hk].
    apply Nat.eqb_eq in E.
    rewrite (@oid_injective news m x Hnd Hin Hx E) in Hk.
    destruct (@measure_not_prepare x Hk Hm). }
  assert (Hpred : forall p, In p preds -> rank (oid p) < r).
  { intros p Hin. destruct (@predecessors_In _ _ _ _ Hp Hin) as (e & Hine & <- & Hd).
    apply same_op_eq in Hd. unfold r. rewrite <- Hd. apply Hrank. exact Hine. }
  assert (Hsucc : forall s, In s succs -> r < rank (oid s)).
  { intros s Hin. destruct (@successors_In _ _ _ _ Hs Hin) as (e & Hine & <- & Hd).
    apply same_op_eq in Hd. unfold r. rewrite <- Hd. apply Hrank. exact Hine. }
  intros e Hin. rewrite He in Hin. apply in_app_or in Hin.
  destruct Hin as [Hin | Hin].
  - apply filter_In in Hin. destruct Hin as [Hin _].
    destruct (Hends e Hin) as [H1 H2].
    rewrite (Hold _ H1), (Hold _ H2). specialize (Hrank e Hin). lia.
  - apply in_app_or in Hin. destruct Hin as [Hin | Hin].
    + rewrite Forall_forall in Hlinks.
      destruct (Hlinks e Hin) as (_ & [(H1 & H2 & H3) | (H1 & H2 & H3)]).
      * rewrite (Hbase _ (Hps _ (or_introl H1))), (Hnew _ H2), (Hmeas _ H2 H3).
        specialize (Hpred _ H1). lia.
      * rewrite (Hbase _ (Hps _ (or_intror H1))), (Hnew _ H2), (Hprep _ H2 H3).
        specialize (Hsucc _ H1). lia.
    + destruct (Forall2_In_r e Hpairs Hin) as (w & _ & _ & H1 & H2 & H3 & H4 & _).
      rewrite (Hnew _ H1), (Hnew _ H2), (Hmeas _ H1 H3), (Hprep _ H2 H4). lia.
Qed.

(** X8.  No cycle is created.  If the nodes of a well-formed graph can be
    ranked so that every edge goes to a higher rank, so can the nodes of
    the graph [remove_wire_cut_node] returns, with the cut edges counted
    as edges. *)
Theorem remove_wire_cut_node_acyclic node st :
  well_formed st -> has_node (graph st) node = true ->
  acyclic (graph st) ->
  exists st', remove_wire_cut_node node st = Ok st' /\ acyclic (graph st').
Proof.
  intros Hwf Hhas Hac.
  destruct (remove_wire_cut_node_shape node Hwf Hhas)
    as (st' & _ & _ & _ & _ & _ & _ & _ & _ & Hok & _).
  exists st'. split; [exact Hok |].
  exact (@remove_wire_cut_node_keeps_acyclic node st st' Hwf Hhas Hac Hok).
Qed.

(** X9.  Placeholders against cut edges.  For a marker on distinct wires
    the call adds one cut edge per wire, but two placeholders per wire and
    one more for every wire a predecessor or a successor shares with the
    marker: when some neighbour shares a wire, more placeholders are added
    than the cut edges have end points. *)
Theorem remove_wire_cut_node_placeholder_count node st :
  well_formed st -> has_node (graph st) node = true ->
  NoDup (wires node) ->
  exists st' preds succs news links pairs,
    predecessors (graph st) node = Ok preds /\
    successors (graph st) node = Ok succs /\
    remove_wire_cut_node node st = Ok st' /\
    g_nodes (graph st')
    = filter (fun m => negb (same_op m node)) (g_nodes (graph st)) ++ news /\
    g_edges (graph st')
    = filter (fun e => negb (incident node e)) (g_edges (graph st))
      ++ links ++ pairs /\
    Forall (fun e => e_pair (e_data e) = None) links /\
    Forall (fun e => e_pair (e_data e) <> None) pairs /\
    length pairs = length (wires node) /\
    length news
    = 2 * length pairs + shared_wires node preds + shared_wires node succs.
Proof.
  intros Hwf Hhas Hw.
  destruct (remove_wire_cut_node_shape node Hwf Hhas)
    as (st' & preds & succs & news & links & pairs & keys & Hp & Hs & Hok
        & Hn & He & _ & _ & Hlen & _ & Hlinks & _ & Hnd & Hkeys & Hpairs).
  exists st', preds, succs, news, links, pairs.
  assert (Hcount : length pairs = length (wires node)).
  { rewrite <- (Forall2_length Hpairs). apply Nat.le_antisymm.
    - apply NoDup_incl_length; [exact Hnd |]. intros w. apply Hkeys.
    - apply NoDup_incl_length; [exact Hw |]. intros w. apply Hkeys. }
  split; [exact Hp |]. split; [exact Hs |]. split; [exact Hok |].
  split; [exact Hn |]. split; [exact He |].
  split; [| split; [| split; [exact Hcount | lia]]].
  - eapply Forall_impl; [| exact Hlinks]. intros e [Hd _]. rewrite Hd. reflexivity.
  - apply Forall_forall. intros e Hin.
    destruct (Forall2_In_r e Hpairs Hin) as (w & _ & Hd & _).
    rewrite Hd. discriminate.
Qed.

(** ** The loop of cut_circuit over the markers of the tape *)

Lemma remove_wire_cut_node_step node st :
  well_formed st -> has_node (graph st) node = true ->
  exists st',
    remove_wire_cut_node node st = Ok st' /\
    well_formed st' /\
    (acyclic (graph st) -> acyclic (graph st')) /\
    next_oid st <= next_oid st' /\
    has_node (graph st') node = false /\
    (forall x, In x (g_nodes (graph st')) ->
               In x (g_nodes (graph st)) \/
               (isPlaceholder x = true /\ next_oid st <= oid x)) /\
    (forall x, In x (g_nodes (graph st)) -> oid x <> oid node ->
               In x (g_nodes (graph st'))).
Proof.
  intros Hwf Hhas.
  destruct (remove_wire_cut_node_shape node Hwf Hhas)
    as (st' & preds & succs & news & links & pairs & keys & _ & _ & Hok
        & Hn & _ & Hnext & Hseq & _ & Hnews & _).
  exists st'. split; [exact Hok |].
  split; [exact (@remove_wire_cut_node_keeps_well_formed node st st' Hwf Hhas Hok) |].
  split; [intro Hac;
          exact (@remove_wire_cut_node_keeps_acyclic node st st' Hwf Hhas Hac Hok) |].
  split; [lia |].
  destruct Hwf as (Hfresh & _).
  assert (Hnode : oid node < next_oid st)
    by (apply (@op_in_bound node (g_nodes (graph st))); assumption).
  split; [| split].
  - unfold has_node. rewrite Hn. apply op_in_false. rewrite map_app, in_app_iff.
    intros [Hin | Hin].
    + apply in_map_iff in Hin. destruct Hin as (x & E & Hx).
      apply filter_In in Hx. destruct Hx as [_ Hx].
      apply negb_true_iff in Hx. apply same_op_neq in Hx. congruence.
    + rewrite Hseq in Hin. apply in_seq in Hin. lia.
  - intros x Hx. rewrite Hn in Hx. apply in_app_or in Hx.
    destruct Hx as [Hx | Hx].
    + left. apply filter_In in Hx. tauto.
    + right. rewrite Forall_forall in Hnews. destruct (Hnews x Hx) as [Hk _].
      split; [exact Hk |].
      pose proof (@new_oid_bounds news (next_oid st) x Hseq Hx). lia.
  - intros x Hx Hne. rewrite Hn. apply in_or_app. left.
    apply filter_In. split; [exact Hx |].
    apply negb_true_iff. apply same_op_neq. exact Hne.
Qed.

Lemma has_node_In g v :
  has_node g v = true -> exists x, In x (g_nodes g) /\ oid x = oid v.
Proof.
  unfold has_node. intro H. apply op_in_spec in H. apply in_map_iff in H.
  destruct H as (x & E & Hx). exists x. split; assumption.
Qed.

Lemma In_has_node g x v :
  In x (g_nodes g) -> oid x = oid v -> has_node g v = true.
Proof.
  intros Hx E. unfold has_node. apply op_in_spec. rewrite <- E.
  apply in_map. exact Hx.
Qed.

Lemma resolve_markers_nodes :
  forall ops st,
    well_formed st -> NoDup (map oid ops) ->
    (forall op, In op ops -> has_node (graph st) op = true) ->
    exists st',
      foldM resolve_marker ops st = Ok st' /\
      well_formed st' /\
      (acyclic (graph st) -> acyclic (graph st')) /\
      next_oid st <= next_oid st' /\
      (forall op, In op ops -> isWireCut op = true ->
                  has_node (graph st') op = false) /\
      (forall x, In x (g_nodes (graph st')) ->
                 In x (g_nodes (graph st)) \/
                 (isPlaceholder x = true /\ next_oid st <= oid x)) /\
      (forall x, In x (g_nodes (graph st)) ->
                 (forall op, In op ops -> isWireCut op = true -> oid op <> oid x) ->
                 In x (g_nodes (graph st'))).
Proof.
  induction ops as [| op ops IH]; intros st Hwf Hnd Hops.
  - exists st. split; [reflexivity |]. split; [exact Hwf |].
    split; [tauto |]. split; [lia |]. split; [intros op [] |].
    split; [intros x Hx; left; exact Hx | intros x Hx _; exact Hx].
  - inversion Hnd as [| a b Hnotin Hnd']; subst a b.
    cbn [foldM]. unfold resolve_marker at 1.
    destruct (isWireCut op) eqn:Hcut.
    + destruct (remove_wire_cut_node_step op Hwf (Hops op (or_introl eq_refl)))
        as (st1 & Hok & Hwf1 & Hac1 & Hle1 & Hgone & Hfrom1 & Hkeep1).
      rewrite Hok. cbn [bind].
      assert (Hops1 : forall o, In o ops -> has_node (graph st1) o = true).
      { intros o Ho.
        destruct (@has_node_In (graph st) o (Hops o (or_intror Ho))) as (x & Hx & E).
        apply (@In_has_node (graph st1) x o); [| exact E].
        apply Hkeep1; [exact Hx |]. rewrite E. intro E'.
        apply Hnotin. rewrite <- E'. apply in_map. exact Ho. }
      destruct (IH st1 Hwf1 Hnd' Hops1)
        as (st' & Hfold & Hwf' & Hac' & Hle' & Hgone' & Hfrom' & Hkeep').
      exists st'. split; [exact Hfold |]. split; [exact Hwf' |].
      split; [tauto |]. split; [lia |].
      assert (Hop : oid op < next_oid st).
      { destruct Hwf as (Hfresh & _).
        apply (@op_in_bound op (g_nodes (graph st))); [exact Hfresh |].
        apply (Hops op). left. reflexivity. }
      split; [| split].
      * intros o [<- | Ho] Hc; [| exact (Hgone' o Ho Hc)].
        unfold has_node. apply op_in_false. intro Hin.
        apply in_map_iff in Hin. destruct Hin as (x & E & Hx).
        destruct (Hfrom' x Hx) as [Hx1 | [_ Hx1]]; [| lia].
        rewrite (@In_has_node (graph st1) x op Hx1 E) in Hgone. discriminate Hgone.
      * intros x Hx. destruct (Hfrom' x Hx) as [Hx1 | [Hk Hx1]].
        -- destruct (Hfrom1 x Hx1) as [Hx0 | Hx0]; [left | right]; assumption.
        -- right. split; [exact Hk | lia].
      * intros x Hx Hno. apply Hkeep'.
        -- apply Hkeep1; [exact Hx |]. intro E.
           apply (Hno op (or_introl eq_refl) Hcut). symmetry. exact E.
        -- intros o Ho. apply Hno. right. exact Ho.
    + cbn [bind].
      destruct (IH st Hwf Hnd' (fun o Ho => Hops o (or_intror Ho)))
        as (st' & Hfold & Hwf' & Hac' & Hle' & Hgone' & Hfrom' & Hkeep').
      exists st'. split; [exact Hfold |]. split; [exact Hwf' |].
      split; [exact Hac' |]. split; [exact Hle' |].
      split; [| split; [exact Hfrom' |]].
      * intros o [<- | Ho] Hc; [congruence | exact (Hgone' o Ho Hc)].
      * intros x Hx Hno. apply Hkeep'; [exact Hx |].
        intros o Ho. apply Hno. right. exact Ho.
Qed.

Lemma mapM_raise_iff {A B : Type} (f : A -> result B) (e : exn) :
  forall xs, mapM f xs = Raise e <-> first_failure f xs e.
Proof.
  induction xs as [| x xs IH].
  - split.
    + discriminate.
    + intros (j & y & Hj & _). destruct j; discriminate Hj.
  - cbn [mapM]. destruct (f x) as [y | e'] eqn:Hfx; cbn [bind].
    + split.
      * intro H.
        assert (Hm : mapM f xs = Raise e)
          by (destruct (mapM f xs); [discriminate H | exact H]).
        apply IH in Hm. destruct Hm as (j & u & Hj & Hu & Hbefore).
        exists (S j), u. split; [exact Hj |]. split; [exact Hu |].
        intros [| i] v Hlt Hi.
        -- injection Hi as <-. exists y. exact Hfx.
        -- apply (Hbefore i v); [lia | exact Hi].
      * intros (j & u & Hj & Hu & Hbefore). destruct j as [| j].
        -- injection Hj as <-. congruence.
        -- assert (Hm : mapM f xs = Raise e).
           { apply IH. exists j, u. split; [exact Hj |]. split; [exact Hu |].
             intros i v Hlt Hi. apply (Hbefore (S i) v); [lia | exact Hi]. }
           rewrite Hm. reflexivity.
    + split.
      * intro H. injection H as ->. exists 0, x.
        split; [reflexivity |]. split; [exact Hfx |]. intros i v Hlt. lia.
      * intros (j & u & Hj & Hu & Hbefore). destruct j as [| j].
        -- injection Hj as <-. congruence.
        -- destruct (Hbefore 0 x) as (z & Hz); [lia | reflexivity |]. congruence.
Qed.

Section CutCircuitLoop.

Variable tape_to_graph : QuantumTape -> result MultiDiGraph.
Variable find_and_place_cuts : GState -> Method -> Kwargs -> result GState.
Variable fragment_graph :
  MultiDiGraph -> result (list MultiDiGraph * CommunicationGraph).
Variable graph_to_tape : MultiDiGraph -> result QuantumTape.
Variable expand_fragment_tapes : QuantumTape -> result (list QuantumTape).

Local Abbreviation run := (cut_circuit tape_to_graph find_and_place_cuts
                         fragment_graph graph_to_tape expand_fragment_tapes).
Local Abbreviation resolved := (resolved_graph tape_to_graph find_and_place_cuts).

(** X10.  Every marker of the tape is resolved.  When [tape_to_graph]
    returns a well-formed graph that holds the operations of the tape, all
    distinct objects, the loop of [cut_circuit] returns; the graph handed
    on holds no WireCut of the tape, it keeps every other node of the
    graph, and every node it has beyond those is a MeasureNode or a
    PrepareNode created by the loop. *)
Theorem cut_circuit_resolves_markers tape kwargs g :
  tape_to_graph tape = Ok g ->
  well_formed (mkState g (fresh_oid tape)) ->
  NoDup (map oid (operations tape)) ->
  (forall op, In op (operations tape) -> has_node g op = true) ->
  exists g',
    resolved tape None kwargs = Ok g' /\
    (forall op, In op (operations tape) -> isWireCut op = true ->
                has_node g' op = false) /\
    (forall x, In x (g_nodes g) ->
               (forall op, In op (operations tape) -> isWireCut op = true ->
                           oid op <> oid x) ->
               In x (g_nodes g')) /\
    (forall x, In x (g_nodes g') ->
               In x (g_nodes g) \/
               (isPlaceholder x = true /\ fresh_oid tape <= oid x)).
Proof.
  intros Hg Hwf Hnd Hops.
  destruct (resolve_markers_nodes (operations tape) Hwf Hnd Hops)
    as (st' & Hfold & _ & _ & _ & Hgone & Hfrom & Hkeep).
  exists (graph st'). unfold resolved_graph. rewrite Hg. cbn [bind].
  rewrite Hfold. cbn [bind].
  split; [reflexivity |]. split; [exact Hgone |]. split; [exact Hkeep | exact Hfrom].
Qed.

(** X11.  The graph handed to [fragment_graph] has no cycle.  When
    [tape_to_graph] returns a well-formed graph without a directed cycle
    that holds the operations of the tape, all distinct objects, the graph
    after the loop over the markers is well-formed and has no directed
    cycle, the cut edges counted as edges. *)
Theorem cut_circuit_resolved_graph_acyclic tape kwargs g :
  tape_to_graph tape = Ok g ->
  well_formed (mkState g (fresh_oid tape)) ->
  NoDup (map oid (operations tape)) ->
  (forall op, In op (operations tape) -> has_node g op = true) ->
  acyclic g ->
  exists g',
    resolved tape None kwargs = Ok g' /\
    acyclic g' /\
    NoDup (map oid (g_nodes g')) /\
    (forall e, In e (g_edges g') ->
               has_node g' (e_src e) = true /\ has_node g' (e_dst e) = true).
Proof.
  intros Hg Hwf Hnd Hops Hac.
  destruct (resolve_markers_nodes (operations tape) Hwf Hnd Hops)
    as (st' & Hfold & Hwf' & Hac' & _).
  exists (graph st'). unfold resolved_graph. rewrite Hg. cbn [bind].
  rewrite Hfold. cbn [bind].
  split; [reflexivity |]. split; [exact (Hac' Hac) |].
  destruct Hwf' as (_ & Hnd' & Hends & _). split; [exact Hnd' | exact Hends].
Qed.

(** X12.  A tape without markers.  When no operation of the tape is a
    WireCut, the loop of [cut_circuit] leaves the graph as [tape_to_graph]
    built it: with a method, [find_and_place_cuts] receives exactly that
    graph; without one, [fragment_graph] does. *)
Theorem cut_circuit_without_markers tape method kwargs :
  filter isWireCut (operations tape) = [] ->
  resolved tape method kwargs
  = (do g <- tape_to_graph tape;
     match method with
     | Some m => do st <- find_and_place_cuts (mkState g (fresh_oid tape)) m kwargs;
                 Ok (graph st)
     | None => Ok g
     end) /\
  run tape None kwargs
  = (do g <- tape_to_graph tape;
     do '(fragments, communication_graph) <- fragment_graph g;
     do fragment_tapes <- mapM graph_to_tape fragments;
     do configurations <- mapM expand_fragment_tapes fragment_tapes;
     Ok (concat configurations,
         mkPartial (map (@length QuantumTape) configurations)
                   communication_graph)).
Proof.
  intro Hno.
  assert (Hres : forall method',
             resolved tape method' kwargs
             = (do g <- tape_to_graph tape;
                match method' with
                | Some m =>
                    do st <- find_and_place_cuts (mkState g (fresh_oid tape)) m kwargs;
                    Ok (graph st)
                | None => Ok g
                end)).
  { intro method'. unfold resolved_graph.
    destruct (tape_to_graph tape) as [g | e]; cbn [bind]; [| reflexivity].
    rewrite (foldM_no_markers _ _ Hno). cbn [bind].
    destruct method'; reflexivity. }
  split; [apply Hres |].
  unfold cut_circuit. rewrite (Hres None).
  destruct (tape_to_graph tape) as [g | e]; reflexivity.
Qed.

(** X13.  Whatever [cut_circuit] returns obeys the output contract.  If
    [cut_circuit] returns a pair of tapes and a post-processing object,
    every stage returned; the tapes are the concatenation of the
    configurations of the fragments in fragment order; the object holds one
    count per fragment, the counts add up to the number of tapes, and its
    communication graph is the one [fragment_graph] returned. *)
Theorem cut_circuit_returned_value tape method kwargs tapes post :
  run tape method kwargs = Ok (tapes, post) ->
  exists g fragments fragment_tapes configurations,
    resolved tape method kwargs = Ok g /\
    fragment_graph g = Ok (fragments, p_communication_graph post) /\
    mapM graph_to_tape fragments = Ok fragment_tapes /\
    mapM expand_fragment_tapes fragment_tapes = Ok configurations /\
    tapes = concat configurations /\
    p_shapes post = map (@length QuantumTape) configurations /\
    length (p_shapes post) = length fragments /\
    list_sum (p_shapes post) = length tapes.
Proof.
  intro H.
  destruct (cut_circuit_inversion _ _ _ _ _ _ _ _ H)
    as (g & fragments & cg & ft & confs & Hg & Hf & Ht & Hc & -> & ->).
  exists g, fragments, ft, confs. cbn [p_shapes p_communication_graph].
  split; [exact Hg |]. split; [exact Hf |]. split; [exact Ht |].
  split; [exact Hc |]. split; [reflexivity |]. split; [reflexivity |]. split.
  - rewrite length_map, (mapM_length _ _ Hc). apply (mapM_length _ _ Ht).
  - symmetry. apply length_concat_shapes.
Qed.

(** X14.  Which exception escapes.  Once the graph is fragmented,
    [cut_circuit] raises [e] exactly when [graph_to_tape] raises [e] on a
    fragment and returned on all fragments before it, or [graph_to_tape]
    returned on every fragment and [expand_fragment_tapes] raises [e] on a
    fragment tape and returned on all before it: every fragment is
    converted before the first one is expanded. *)
Theorem cut_circuit_first_failure tape method kwargs g fragments cg e :
  resolved tape method kwargs = Ok g ->
  fragment_graph g = Ok (fragments, cg) ->
  (run tape method kwargs = Raise e <->
   first_failure graph_to_tape fragments e \/
   exists fragment_tapes,
     mapM graph_to_tape fragments = Ok fragment_tapes /\
     first_failure expand_fragment_tapes fragment_tapes e).
Proof.
  intros Hg Hf. unfold cut_circuit. rewrite Hg. cbn [bind]. rewrite Hf. cbn [bind].
  destruct (mapM graph_to_tape fragments) as [ft | e1] eqn:Ht; cbn [bind].
  - destruct (mapM expand_fragment_tapes ft) as [confs | e2] eqn:Hc; cbn [bind].
    + split; [discriminate |].
      intros [Hff | (ft' & Hft & Hff)].
      * apply mapM_raise_iff in Hff. congruence.
      * injection Hft as <-. apply mapM_raise_iff in Hff. congruence.
    + split.
      * intro H. injection H as ->. right. exists ft.
        split; [reflexivity |]. apply mapM_raise_iff. exact Hc.
      * intros [Hff | (ft' & Hft & Hff)].
        -- apply mapM_raise_iff in Hff. congruence.
        -- injection Hft as <-. apply mapM_raise_iff in Hff. congruence.
  - split.
    + intro H. injection H as ->. left. apply mapM_raise_iff. exact Ht.
    + intros [Hff | (ft' & Hft & Hff)].
      * apply mapM_raise_iff in Hff. congruence.
      * discriminate Hft.
Qed.

End CutCircuitLoop.

(** ** The properties on the examples

    The marker of CNOT(0,1); RX(1); WireCut(1,0) in the graph of that
    tape, and the chain and joined tapes through the pipeline. *)

Lemma shared_state_acyclic : acyclic (graph shared_state).
Proof.
  exists (fun k => k). intros e He. cbv in He.
  repeat (destruct He as [<- | He]; [cbv; lia |]). destruct He.
Qed.

Lemma shared_tape_nodes :
  forall op, In op (operations shared_tape) -> has_node shared_built op = true.
Proof.
  intros op Hin. simpl in Hin.
  repeat (destruct Hin as [<- | Hin]; [reflexivity |]). destruct Hin.
Qed.

Lemma remove_wire_cut_node_node_count_witness :
  exists st' preds succs,
    predecessors (graph shared_state) Cut_10 = Ok preds /\
    successors (graph shared_state) Cut_10 = Ok succs /\
    remove_wire_cut_node Cut_10 shared_state = Ok st' /\
    length (g_nodes (graph st')) + 1
    = length (g_nodes (graph shared_state)) + 2 * length (wires Cut_10)
      + shared_wires Cut_10 preds + shared_wires Cut_10 succs /\
    next_oid st'
    = next_oid shared_state + 2 * length (wires Cut_10)
      + shared_wires Cut_10 preds + shared_wires Cut_10 succs.
Proof.
  apply (@remove_wire_cut_node_node_count Cut_10 shared_state).
  - exact shared_state_well_formed.
  - reflexivity.
Defined.

Lemma remove_wire_cut_node_removes_marker_witness :
  exists st' news added,
    remove_wire_cut_node Cut_10 shared_state = Ok st' /\
    has_node (graph st') Cut_10 = false /\
    (forall e, In e (g_edges (graph st')) -> incident Cut_10 e = false) /\
    g_nodes (graph st')
    = filter (fun m => negb (same_op m Cut_10)) (g_nodes (graph shared_state))
      ++ news /\
    g_edges (graph st')
    = filter (fun e => negb (incident Cut_10 e)) (g_edges (graph shared_state))
      ++ added.
Proof.
  apply (@remove_wire_cut_node_removes_marker Cut_10 shared_state).
  - exact shared_state_well_formed.
  - reflexivity.
Defined.

Lemma remove_wire_cut_node_adds_placeholders_witness :
  exists st',
    remove_wire_cut_node Cut_10 shared_state = Ok st' /\
    forall x, In x (g_nodes (graph st')) ->
      In x (g_nodes (graph shared_state)) \/
      (isPlaceholder x = true /\
       (exists w, wires x = [w] /\ In w (wires Cut_10)) /\
       next_oid shared_state <= oid x < next_oid st').
Proof.
  apply (@remove_wire_cut_node_adds_placeholders Cut_10 shared_state).
  - exact shared_state_well_formed.
  - reflexivity.
Defined.

Lemma remove_wire_cut_node_cut_edges_witness :
  exists st' links pairs keys,
    remove_wire_cut_node Cut_10 shared_state = Ok st' /\
    g_edges (graph st')
    = filter (fun e => negb (incident Cut_10 e)) (g_edges (graph shared_state))
      ++ links ++ pairs /\
    Forall (fun e => e_data e = no_data) links /\
    NoDup keys /\ (forall w, In w keys <-> In w (wires Cut_10)) /\
    Forall2 (fun w e =>
               e_data e = pair_data (e_src e) (e_dst e) /\
               isMeasureNode (e_src e) = true /\
               isPrepareNode (e_dst e) = true /\
               wires (e_src e) = [w] /\ wires (e_dst e) = [w] /\
               has_node (graph st') (e_src e) = true /\
               has_node (graph st') (e_dst e) = true /\
               next_oid shared_state <= oid (e_src e) /\
               next_oid shared_state <= oid (e_dst e))
            keys pairs.
Proof.
  apply (@remove_wire_cut_node_cut_edges Cut_10 shared_state).
  - exact shared_state_well_formed.
  - reflexivity.
Defined.

Lemma remove_wire_cut_node_link_edges_witness :
  exists st' preds succs links pairs,
    predecessors (graph shared_state) Cut_10 = Ok preds /\
    successors (graph shared_state) Cut_10 = Ok succs /\
    remove_wire_cut_node Cut_10 shared_state = Ok st' /\
    g_edges (graph st')
    = filter (fun e => negb (incident Cut_10 e)) (g_edges (graph shared_state))
      ++ links ++ pairs /\
    Forall (fun e => e_pair (e_data e) <> None) pairs /\
    Forall (fun e =>
              e_data e = no_data /\
              ((In (e_src e) preds /\ has_node (graph st') (e_src e) = true /\
                isMeasureNode (e_dst e) = true /\
                next_oid shared_state <= oid (e_dst e) /\
                has_node (graph st') (e_dst e) = true) \/
               (In (e_dst e) succs /\ has_node (graph st') (e_dst e) = true /\
                isPrepareNode (e_src e) = true /\
                next_oid shared_state <= oid (e_src e) /\
                has_node (graph st') (e_src e) = true)))
           links.
Proof.
  apply (@remove_wire_cut_node_link_edges Cut_10 shared_state).
  - exact shared_state_well_formed.
  - reflexivity.
Defined.

Lemma remove_wire_cut_node_well_formed_witness :
  exists st', remove_wire_cut_node Cut_10 shared_state = Ok st' /\ well_formed st'.
Proof.
  apply (@remove_wire_cut_node_well_formed Cut_10 shared_state).
  - exact shared_state_well_formed.
  - reflexivity.
Defined.

Lemma remove_wire_cut_node_acyclic_witness :
  exists st',
    remove_wire_cut_node Cut_10 shared_state = Ok st' /\ acyclic (graph st').
Proof.
  apply (@remove_wire_cut_node_acyclic Cut_10 shared_state).
  - exact shared_state_well_formed.
  - reflexivity.
  - exact shared_state_acyclic.
Defined.

Lemma remove_wire_cut_node_placeholder_count_witness :
  exists st' preds succs news links pairs,
    predecessors (graph shared_state) Cut_10 = Ok preds /\
    successors (graph shared_state) Cut_10 = Ok succs /\
    remove_wire_cut_node Cut_10 shared_state = Ok st' /\
    g_nodes (graph st')
    = filter (fun m => negb (same_op m Cut_10)) (g_nodes (graph shared_state))
      ++ news /\
    g_edges (graph st')
    = filter (fun e => negb (incident Cut_10 e)) (g_edges (graph shared_state))
      ++ links ++ pairs /\
    Forall (fun e => e_pair (e_data e) = None) links /\
    Forall (fun e => e_pair (e_data e) <> None) pairs /\
    length pairs = length (wires Cut_10) /\
    length news
    = 2 * length pairs + shared_wires Cut_10 preds + shared_wires Cut_10 succs.
Proof.
  apply (@remove_wire_cut_node_placeholder_count Cut_10 shared_state).
  - exact shared_state_well_formed.
  - reflexivity.
  - repeat constructor; simpl; intuition discriminate.
Defined.

Lemma cut_circuit_resolves_markers_witness :
  exists g',
    resolved_graph Spec.tape_to_graph no_search shared_tape None [] = Ok g' /\
    (forall op, In op (operations shared_tape) -> isWireCut op = true ->
                has_node g' op = false) /\
    (forall x, In x (g_nodes shared_built) ->
               (forall op, In op (operations shared_tape) ->
                           isWireCut op = true -> oid op <> oid x) ->
               In x (g_nodes g')) /\
    (forall x, In x (g_nodes g') ->
               In x (g_nodes shared_built) \/
               (isPlaceholder x = true /\ fresh_oid shared_tape <= oid x)).
Proof.
  apply (@cut_circuit_resolves_markers Spec.tape_to_graph no_search
           shared_tape [] shared_built).
  - vm_compute. reflexivity.
  - exact shared_state_well_formed.
  - exact (proj1 shared_tape_valid).
  - exact shared_tape_nodes.
Defined.

Lemma cut_circuit_resolved_graph_acyclic_witness :
  exists g',
    resolved_graph Spec.tape_to_graph no_search shared_tape None [] = Ok g' /\
    acyclic g' /\
    NoDup (map oid (g_nodes g')) /\
    (forall e, In e (g_edges g') ->
               has_node g' (e_src e) = true /\ has_node g' (e_dst e) = true).
Proof.
  apply (@cut_circuit_resolved_graph_acyclic Spec.tape_to_graph no_search
           shared_tape [] shared_built).
  - vm_compute. reflexivity.
  - exact shared_state_well_formed.
  - exact (proj1 shared_tape_valid).
  - exact shared_tape_nodes.
  - exact shared_state_acyclic.
Defined.

Lemma cut_circuit_without_markers_witness :
  resolved_graph Spec.tape_to_graph no_search joined_tape None []
  = (do g <- Spec.tape_to_graph joined_tape; Ok g) /\
  cut_circuit_with 2 no_search joined_tape None []
  = (do g <- Spec.tape_to_graph joined_tape;
     do '(fragments, communication_graph) <- Ok (Spec.fragment_graph g);
     do fragment_tapes <- mapM Spec.graph_to_tape fragments;
     do configurations <-
       mapM (fun t => Ok (Spec.expand_fragment_tapes 2 t)) fragment_tapes;
     Ok (concat configurations,
         mkPartial (map (@length QuantumTape) configurations)
                   communication_graph)).
Proof.
  apply (@cut_circuit_without_markers Spec.tape_to_graph no_search
           (fun g => Ok (Spec.fragment_graph g)) Spec.graph_to_tape
           (fun t => Ok (Spec.expand_fragment_tapes 2 t)) joined_tape None []).
  reflexivity.
Defined.

Lemma cut_circuit_returned_value_witness :
  exists g fragments fragment_tapes configurations,
    resolved_graph Spec.tape_to_graph no_search chain_tape None [] = Ok g /\
    Ok (Spec.fragment_graph g) = Ok (fragments, chain_comm) /\
    mapM Spec.graph_to_tape fragments = Ok fragment_tapes /\
    mapM (fun t => Ok (Spec.expand_fragment_tapes 2 t)) fragment_tapes
    = Ok configurations /\
    concat chain_configurations = concat configurations /\
    map (@length QuantumTape) chain_configurations
    = map (@length QuantumTape) configurations /\
    length (map (@length QuantumTape) chain_configurations) = length fragments /\
    list_sum (map (@length QuantumTape) chain_configurations)
    = length (concat chain_configurations).
Proof.
  apply (@cut_circuit_returned_value Spec.tape_to_graph no_search
           (fun g => Ok (Spec.fragment_graph g)) Spec.graph_to_tape
           (fun t => Ok (Spec.expand_fragment_tapes 2 t)) chain_tape None []
           (concat chain_configurations)
           (mkPartial (map (@length QuantumTape) chain_configurations) chain_comm)).
  vm_compute. reflexivity.
Defined.

Lemma cut_circuit_first_failure_witness :
  cut_circuit Spec.tape_to_graph no_search
    (fun g => Ok (Spec.fragment_graph g)) Spec.graph_to_tape
    (fun _ => Raise ConfigurationBudgetExceededError) chain_tape None []
  = Raise ConfigurationBudgetExceededError <->
  first_failure Spec.graph_to_tape chain_fragments
    ConfigurationBudgetExceededError \/
  exists fragment_tapes,
    mapM Spec.graph_to_tape chain_fragments = Ok fragment_tapes /\
    first_failure
      (fun _ : QuantumTape =>
         @Raise (list QuantumTape) ConfigurationBudgetExceededError)
      fragment_tapes ConfigurationBudgetExceededError.
Proof.
  apply (@cut_circuit_first_failure Spec.tape_to_graph no_search
           (fun g => Ok (Spec.fragment_graph g)) Spec.graph_to_tape
           (fun _ => Raise ConfigurationBudgetExceededError) chain_tape None []
           chain_graph chain_fragments chain_comm
           ConfigurationBudgetExceededError).
  - vm_compute. reflexivity.
  - vm_compute. reflexivity.
Defined.

(** X15.  A marker is resolved once.  After [remove_wire_cut_node] has
    returned for a marker of a well-formed graph, a second call for the
    same marker raises the networkx error of a node that is not in the
    graph: a tape that lists the same WireCut object twice makes the loop
    of [cut_circuit] fail. *)
Theorem remove_wire_cut_node_once node st st' :
  well_formed st ->
  remove_wire_cut_node node st = Ok st' ->
  remove_wire_cut_node node st' = Raise NetworkXError.
Proof.
  intros Hwf Hok.
  destruct (has_node (graph st) node) eqn:Hhas.
  - destruct (remove_wire_cut_node_step node Hwf Hhas)
      as (st1 & Hok1 & _ & _ & _ & Hgone & _).
    rewrite Hok in Hok1. injection Hok1 as <-.
    unfold remove_wire_cut_node, predecessors. rewrite Hgone. reflexivity.
  - unfold remove_wire_cut_node, predecessors in Hok. rewrite Hhas in Hok.
    discriminate Hok.
Qed.

Lemma remove_wire_cut_node_once_witness :
  remove_wire_cut_node Cut_10 shared_resolved = Raise NetworkXError.
Proof.
  apply (@remove_wire_cut_node_once Cut_10 shared_state shared_resolved).
  - exact shared_state_well_formed.
  - vm_compute. reflexivity.
Defined.
